(** * QMedian palette quantizer (sol_qmedian.h): shallow embedding and properties

    The C source keeps colors in intrusive singly linked lists
    ([struct sqi_colorstruc], field [next]).  Every node is a member of
    exactly one list at a time, so a linked list is embedded as a Rocq
    [list] of nodes and relinking as list surgery.

    Conventions of the embedding
    - [unsigned char] channel bytes are [Byte.byte]; their integer value
      is [val];
    - [int] quantities that take part in arithmetic (sums, spreads, the
      median, channel selectors, the [groupsorted] marker with its [-1])
      are [Z]; signed overflow is undefined in C, so the embedding is
      exact as long as [255 * colors < 2^31];
    - counters and array positions that never go below zero ([colors],
      [zeros], [palwid], [groups], [coloridx]) are [nat];
    - a run the C program would continue with a NULL dereference or an
      out-of-bounds access is [None] (resp. [Undefined]). *)

From Stdlib Require Import List ZArith Lia Bool Arith Permutation Sorted.
From Stdlib Require Import Strings.Byte.
Import ListNotations.

Set Implicit Arguments.

(** ** Data model *)

(** [struct sqi_colorstruc]: the original index and the three channel
    bytes [data.component[0..2]]; [data.component[3]] is always zero. *)
Record sqi_colorstruc : Type := mkcolor
  { coloridx : nat;
    red : byte;
    green : byte;
    blue : byte }.

Abbreviation color := sqi_colorstruc.

(** [col->data.component[k]] *)
Definition component (c : color) (k : Z) : byte :=
  match k with
  | 0%Z => red c
  | 1%Z => green c
  | 2%Z => blue c
  | _ => x00
  end.

(** The value of a channel byte once promoted to [int]. *)
Definition val (c : color) (k : Z) : Z := Z.of_nat (Byte.to_nat (component c k)).

(** [col->data.block]: since [component[3]] is zero in every node, two
    blocks are equal exactly when the three channel bytes are, whatever
    the byte order. *)
Definition block (c : color) : byte * byte * byte := (red c, green c, blue c).

Definition block_eqb (x y : byte * byte * byte) : bool :=
  let '(r1, g1, b1) := x in
  let '(r2, g2, b2) := y in
  Byte.eqb r1 r2 && Byte.eqb g1 g2 && Byte.eqb b1 b2.

(** A write [a[i] = v] into an array; a write past the end (undefined in
    C) leaves the embedded array unchanged. *)
Fixpoint store {A : Type} (i : nat) (v : A) (a : list A) : list A :=
  match a, i with
  | [], _ => []
  | _ :: a', O => v :: a'
  | x :: a', S i' => x :: store i' v a'
  end.

(** ** sqi_examine_group *)

(** Running sum, minimum and maximum of one channel. *)
Record chanstat : Type := mkstat { cs_sum : Z; cs_min : Z; cs_max : Z }.

Definition stat_init (v : Z) : chanstat := mkstat v v v.

Definition stat_step (s : chanstat) (v : Z) : chanstat :=
  mkstat (cs_sum s + v)
         (if (cs_min s >? v)%Z then v else cs_min s)
         (if (cs_max s <? v)%Z then v else cs_max s).

(** One turn of the [while (g != NULL)] loop: the three channels are
    updated side by side. *)
Definition examine_step (acc : chanstat * chanstat * chanstat) (g : color)
  : chanstat * chanstat * chanstat :=
  let '(rs, gs, bs) := acc in
  (stat_step rs (val g 0), stat_step gs (val g 1), stat_step bs (val g 2)).

(** Returns [(component, size, sum)]; reading the head of an empty group
    is a NULL dereference. *)
Definition sqi_examine_group (g : list color) : option (Z * Z * Z) :=
  match g with
  | [] => None
  | g0 :: rest =>
      let '(rs, gs, bs) :=
        fold_left examine_step rest
          (stat_init (val g0 0), stat_init (val g0 1), stat_init (val g0 2)) in
      let size := (cs_max rs - cs_min rs)%Z in
      let comp := 0%Z in
      let sum := cs_sum rs in
      let '(comp, size, sum) :=
        if (cs_max gs - cs_min gs >? size)%Z
        then (1%Z, (cs_max gs - cs_min gs)%Z, cs_sum gs)
        else (comp, size, sum) in
      let '(comp, size, sum) :=
        if (cs_max bs - cs_min bs >? size)%Z
        then (2%Z, (cs_max bs - cs_min bs)%Z, cs_sum bs)
        else (comp, size, sum) in
      Some (comp, size, sum)
  end.

(** ** sqi_cut_group *)

(** The [while (count <= median)] walk.  [n] counts the nodes walked so
    far; the result is the number of nodes walked when the loop exits.
    Walking past the last node reads [g->data] through NULL. *)
Fixpoint cut_walk (median : Z) (k : Z) (count : Z) (n : nat) (g : list color)
  : option nat :=
  match g with
  | [] => if (count <=? median)%Z then None else Some n
  | c :: g' =>
      if (count <=? median)%Z
      then cut_walk median k (count + val c k) (S n) g'
      else Some n
  end.

(** Returns the group left in place and the new group ([[]] for NULL).
    After [n] walked nodes [second] is node [n-1] and [fore] is node
    [n-2]: with [n = 0] nothing was walked ([second == NULL]); with
    [n = 1] ([fore == NULL]) the first node is kept alone; otherwise the
    list is cut in front of [second]. *)
Definition sqi_cut_group (g : list color) (k : Z) (max : Z)
  : option (list color * list color) :=
  let median := Z.quot max 2 in
  match cut_walk median k 0 0 g with
  | None => None
  | Some O => Some (g, [])
  | Some (S O) => Some (firstn 1 g, skipn 1 g)
  | Some (S n) => Some (firstn n g, skipn n g)
  end.

(** ** sqi_sort_group *)

(** Step 1 for one node: append it to the tail of [bucket[a]]. *)
Definition bucket_add (a : nat) (col : color) (bucket : list (list color))
  : list (list color) :=
  store a (nth a bucket [] ++ [col]) bucket.

Definition fill_buckets (k : Z) (col : list color) : list (list color) :=
  fold_left (fun bucket c => bucket_add (Byte.to_nat (component c k)) c bucket)
            col (repeat [] 256).

(** Step 2 links the non-empty buckets in ascending order and returns the
    first of them.  On an empty list the search for the first full
    bucket runs off the bucket array. *)
Definition sqi_sort_group (col : list color) (k : Z) : option (list color) :=
  match col with
  | [] => None
  | _ :: _ => Some (concat (fill_buckets k col))
  end.

(** ** The quantizer context and registration *)

(** [struct sq_quantstruc].  [first] is the working list, [zeromap] the
    list of collapsed duplicates.  A node on the zero list has had its
    [data.block] overwritten with an original index, and only its
    [coloridx] and that [block] are read afterwards, so it is kept as the
    pair [(coloridx, block)].  The tail pointers [last] and [zerolast]
    and the allocation list [colmap] carry no information of their own. *)
Record SQ : Type := mkSQ
  { first : list color;
    zeromap : list (nat * nat);
    colors : nat;
    zeros : nat }.

Definition sq_alloc : SQ := mkSQ [] [] 0 0.

(** Conversion of an [int] to [unsigned char]. *)
Definition to_uchar (z : Z) : byte :=
  match Byte.of_N (Z.to_N (z mod 256)) with
  | Some b => b
  | None => x00
  end.

Definition sqi_add_color (q : SQ) (r g b : Z) : SQ :=
  mkSQ (first q ++ [mkcolor (colors q) (to_uchar r) (to_uchar g) (to_uchar b)])
       (zeromap q) (S (colors q)) (zeros q).

(** [*(colmap + i)]; the caller has to supply [colors * stride] bytes, a
    read beyond them is given the value zero here. *)
Definition peek (colmap : list byte) (i : nat) : Z :=
  Z.of_nat (Byte.to_nat (nth i colmap x00)).

(** Returns the context and the base index of the added map. *)
Definition sq_addcolormap (q : SQ) (colmap : list byte) (ncolors stride : nat)
  : SQ * nat :=
  (fold_left
     (fun q a => sqi_add_color q (peek colmap (a * stride + 0))
                                 (peek colmap (a * stride + 1))
                                 (peek colmap (a * stride + 2)))
     (seq 0 ncolors) q,
   colors q).

(** ** sqi_dupenuke *)

Definition bind {A B : Type} (x : option A) (f : A -> option B) : option B :=
  match x with
  | Some a => f a
  | None => None
  end.

Notation "x <- e ;; k" := (bind e (fun x => k))
  (at level 61, e at next level, right associativity).
Notation "' p <- e ;; k" := (bind e (fun x => let 'p := x in k))
  (at level 61, p pattern, e at next level, right associativity).

(** The scan over the sorted list, from the second node on.  The first
    component of the result is what stays linked behind [last], the
    second the nodes moved to the zero list, in the order they are
    appended, each with the [lastidx] written into its block. *)
Fixpoint dupe_scan (lastidx : nat) (lastcol : byte * byte * byte)
  (col : list color) : list color * list (nat * nat) :=
  match col with
  | [] => ([], [])
  | c :: rest =>
      if block_eqb (block c) lastcol
      then let '(keep, dup) := dupe_scan lastidx lastcol rest in
           (keep, (coloridx c, lastidx) :: dup)
      else let '(keep, dup) := dupe_scan (coloridx c) (block c) rest in
           (c :: keep, dup)
  end.

(** The three sorting passes in front of the scan. *)
Definition dupenuke_sort (l : list color) : option (list color) :=
  l <- sqi_sort_group l 0 ;;
  l <- sqi_sort_group l 1 ;;
  sqi_sort_group l 2.

Definition sqi_dupenuke (q : SQ) : option SQ :=
  l <- dupenuke_sort (first q) ;;
  match l with
  | [] => None
  | c :: rest =>
      let '(keep, dup) := dupe_scan (coloridx c) (block c) rest in
      Some (mkSQ (c :: keep) (zeromap q ++ dup) (colors q)
                 (zeros q + length dup))
  end.

(** ** sq_reduce *)

(** Entry [n] of the five parallel arrays [group], [groupcomponent],
    [groupcomponentsize], [groupcomponentsum] and [groupsorted]; the
    arrays are a list of these records, [groups] is its length. *)
Record groupinfo : Type := mkgroup
  { group : list color;
    groupcomponent : Z;
    groupcomponentsize : Z;
    groupcomponentsum : Z;
    groupsorted : Z }.

(** What [sqi_calloc] leaves in an array entry. *)
Definition zero_group : groupinfo := mkgroup [] 0 0 0 0.

(** The [for (n = 0; n < groups; n++)] search for the largest group. *)
Definition largest_group (st : list groupinfo) : nat :=
  fold_left
    (fun i n =>
       if (groupcomponentsize (nth n st zero_group)
           >? groupcomponentsize (nth i st zero_group))%Z
       then n else i)
    (seq 0 (length st)) 0.

Inductive iter_result : Type :=
| Split (st : list groupinfo)       (* groups++ *)
| CantCut (st : list groupinfo)     (* break *)
| Undefined.

(** The body of [while (groups < palwid)]. *)
Definition split_iter (st : list groupinfo) : iter_result :=
  let i := largest_group st in
  let gi := nth i st zero_group in
  let sorted :=
    if (groupsorted gi =? groupcomponent gi)%Z
    then Some (group gi, groupsorted gi)
    else l <- sqi_sort_group (group gi) (groupcomponent gi) ;;
         Some (l, groupcomponent gi) in
  match sorted with
  | None => Undefined
  | Some (gl, srt) =>
      match sqi_cut_group gl (groupcomponent gi) (groupcomponentsum gi) with
      | None => Undefined
      | Some (keep, []) =>
          CantCut (store i (mkgroup keep (groupcomponent gi)
                              (groupcomponentsize gi) (groupcomponentsum gi) srt)
                         st)
      | Some (keep, new) =>
          match sqi_examine_group keep, sqi_examine_group new with
          | Some (c1, s1, m1), Some (c2, s2, m2) =>
              Split (store i (mkgroup keep c1 s1 m1 srt) st
                       ++ [mkgroup new c2 s2 m2 srt])
          | _, _ => Undefined
          end
      end
  end.

Inductive loop_result : Type :=
| Finished (st : list groupinfo) (iterations : nat)
| Crashed
| OutOfFuel.

(** The split loop.  [fuel] bounds the number of turns the embedding is
    willing to take; [iters] counts the turns taken. *)
Fixpoint split_loop (fuel palwid : nat) (st : list groupinfo) (iters : nat)
  : loop_result :=
  if length st <? palwid then
    match fuel with
    | O => OutOfFuel
    | S fuel' =>
        match split_iter st with
        | Split st' => split_loop fuel' palwid st' (S iters)
        | CantCut st' => Finished st' (S iters)
        | Undefined => Crashed
        end
    end
  else Finished st iters.

(** The index map is an array of [unsigned char]: storing the [int]
    slot number keeps its low eight bits. *)
Definition slot_byte (i : nat) : nat := i mod 256.

Definition set_pal (i : nat) (r g b : byte) (pal : list byte) : list byte :=
  store (i * 3 + 2) b (store (i * 3 + 1) g (store (i * 3 + 0) r pal)).

(** The Fits path: walk the sorted list, give every color its position. *)
Fixpoint fits_assign (i : nat) (col : list color)
  (out : list nat * list byte) : list nat * list byte :=
  match col with
  | [] => out
  | c :: rest =>
      let '(idxmap, pal) := out in
      fits_assign (S i) rest
        (store (coloridx c) (slot_byte i) idxmap,
         set_pal i (red c) (green c) (blue c) pal)
  end.

(** [while (col != NULL)] over the zero list:
    [idxmap[col->coloridx] = idxmap[col->data.block]]. *)
Definition resolve_zeros (zm : list (nat * nat)) (idxmap : list nat) : list nat :=
  fold_left (fun m z => store (fst z) (nth (snd z) m 0) m) zm idxmap.

(** One turn of the averaging loop: [count] and [comp[0..2]]. *)
Definition tally (acc : Z * Z * Z * Z) (col : color) : Z * Z * Z * Z :=
  let '(count, c0, c1, c2) := acc in
  ((count + 1)%Z, (c0 + val col 0)%Z, (c1 + val col 1)%Z, (c2 + val col 2)%Z).

(** One turn of the palette-building [for] loop.  The statement
    [idxmap[col->coloridx] = i] stands in front of the [while] loop over
    the members, so it is executed for the head of the group. *)
Definition build_group (i : nat) (g : groupinfo) (out : list nat * list byte)
  : option (list nat * list byte) :=
  match group g with
  | [] => None
  | col :: _ =>
      let '(idxmap, pal) := out in
      let idxmap := store (coloridx col) (slot_byte i) idxmap in
      let '(count, c0, c1, c2) :=
        fold_left tally (group g) (0%Z, 0%Z, 0%Z, 0%Z) in
      let half := Z.quot count 2 in
      let pal :=
        if (groupcomponentsize g >? 1)%Z
        then set_pal i (to_uchar (Z.quot (c0 + half) count))
                       (to_uchar (Z.quot (c1 + half) count))
                       (to_uchar (Z.quot (c2 + half) count)) pal
        else set_pal i (red col) (green col) (blue col) pal in
      Some (idxmap, pal)
  end.

Fixpoint build_palette (i : nat) (st : list groupinfo)
  (out : list nat * list byte) : option (list nat * list byte) :=
  match st with
  | [] => Some out
  | g :: st' =>
      out' <- build_group i g out ;;
      build_palette (S i) st' out'
  end.

(** Everything in front of the split loop and the loop itself: the
    groups the palette is built from. *)
Definition initial_groups (q : SQ) : option (list groupinfo) :=
  ' (c, sz, sm) <- sqi_examine_group (first q) ;;
  Some [mkgroup (first q) c sz sm (-1)].

Definition split_groups (q : SQ) (palwid : nat) : loop_result :=
  match palwid with
  | O => Crashed               (* [group[0]] lies outside an empty array *)
  | S _ =>
      match initial_groups q with
      | None => Crashed
      | Some st => split_loop palwid palwid st 0
      end
  end.

(** The result of [sq_reduce]: [*idxmap], [*pal] and the returned
    width.  ([*outindices], when asked for, is [q->colors].) *)
Definition reduced : Type := list nat * list byte * nat.

(** [depth] bounds the nesting of the re-sorting call ([SQI_RE_SORT] is
    defined): [sq_reduce] calls itself on the palette it has built. *)
Fixpoint sq_reduce (depth : nat) (q : SQ) (palwid : nat) : option reduced :=
  match depth with
  | O => None
  | S depth' =>
      let totalcolors := colors q in
      let pal := repeat x00 (palwid * 3) in
      let idxmap := repeat 0 totalcolors in
      q <- sqi_dupenuke q ;;
      if colors q - zeros q <=? palwid then
        let palwid := colors q - zeros q in
        l <- sqi_sort_group (first q) 0 ;;
        l <- sqi_sort_group l 2 ;;
        l <- sqi_sort_group l 1 ;;
        let '(idxmap, pal) := fits_assign 0 l (idxmap, pal) in
        Some (resolve_zeros (zeromap q) idxmap, pal, palwid)
      else
        match split_groups q palwid with
        | Finished st _ =>
            ' (idxmap, pal) <- build_palette 0 st (idxmap, pal) ;;
            let idxmap := resolve_zeros (zeromap q) idxmap in
            let reorder := fst (sq_addcolormap sq_alloc pal palwid 3) in
            ' (remapmap, temppal, palwid') <- sq_reduce depth' reorder palwid ;;
            Some (map (fun v => nth v remapmap 0) idxmap, temppal, palwid')
        | _ => None
        end
  end.

(** ** Registering a sequence of color maps *)

(** A color map as handed to [sq_addcolormap]: the bytes, the number of
    colors and the stride. *)
Definition colormap : Type := list byte * nat * nat.

Definition register (maps : list colormap) : SQ :=
  fold_left (fun q m => fst (sq_addcolormap q (fst (fst m)) (snd (fst m)) (snd m)))
            maps sq_alloc.

(** Bytes of a color map written as numbers. *)
Definition bytes (l : list Z) : list byte := map to_uchar l.

Definition rgbmap (l : list Z) : colormap := (bytes l, (length l / 3)%nat, 3).

(** ** Notions used to state the properties *)

(** Sum of channel [k] over a group. *)
Definition chansum (k : Z) (g : list color) : Z :=
  fold_right (fun c acc => (val c k + acc)%Z) 0%Z g.

(** [s] is the spread (max - min) of channel [k] over [g]. *)
Definition is_spread (g : list color) (k : Z) (s : Z) : Prop :=
  exists lo hi : color,
    In lo g /\ In hi g /\
    (forall c, In c g -> (val lo k <= val c k <= val hi k)%Z) /\
    s = (val hi k - val lo k)%Z.

(** The bucket index of a node. *)
Definition key (k : Z) (c : color) : nat := Byte.to_nat (component c k).

(** The buckets [0 .. n-1] of a list, each in list order, one after the
    other. *)
Definition buckets_upto {A : Type} (f : A -> nat) (n : nat) (l : list A) : list A :=
  flat_map (fun v => filter (fun x => f x =? v) l) (seq 0 n).

(** Ordered by [f], ties ordered by [R]. *)
Definition lex_after {A : Type} (f : A -> nat) (R : A -> A -> Prop) (a b : A) : Prop :=
  f a < f b \/ (f a = f b /\ R a b).

(** The running statistics [s] describe channel [k] of the nodes [seen]. *)
Definition stat_of (k : Z) (seen : list color) (s : chanstat) : Prop :=
  cs_sum s = chansum k seen /\
  (exists lo, In lo seen /\ val lo k = cs_min s) /\
  (exists hi, In hi seen /\ val hi k = cs_max s) /\
  (forall c, In c seen -> (cs_min s <= val c k <= cs_max s)%Z).

(** The statistics of channel [k] as the examine loop accumulates them. *)
Definition chan_stat (k : Z) (g0 : color) (rest : list color) : chanstat :=
  fold_left (fun s g => stat_step s (val g k)) rest (stat_init (val g0 k)).

(** The Median Splitter as the specification words it (4.4): walk the
    group accumulating channel values until the running total exceeds
    half the sum; [crossing] is the number of colors walked up to and
    including the one that caused the crossing. *)
Fixpoint crossing (k : Z) (half total : Z) (g : list color) : option nat :=
  match g with
  | [] => None
  | c :: g' =>
      if (total + val c k >? half)%Z then Some 1
      else option_map S (crossing k half (total + val c k) g')
  end.

(** ... then cut there: the prefix inclusive of the crossing color and
    the remainder; when no remainder exists the split fails (null) and
    the group stays whole. *)
Definition cut_group_spec (g : list color) (k : Z) (sum : Z)
  : option (list color * list color) :=
  match crossing k (sum / 2)%Z 0 g with
  | None => None
  | Some n =>
      match skipn n g with
      | [] => Some (g, [])
      | rest => Some (firstn n g, rest)
      end
  end.

(** The three channel bytes as one number, blue most significant: the
    order the three passes of [sqi_dupenuke] establish. *)
Definition rgbkey (c : color) : Z := (val c 2 * 65536 + val c 1 * 256 + val c 0)%Z.

(** The order of the working list after the three passes when it was
    ordered by [R] before: by blue, then green, then red, then [R]. *)
Definition dedup_order (R : color -> color -> Prop) (a b : color) : Prop :=
  (rgbkey a <= rgbkey b)%Z /\ (block a = block b -> R a b).

Definition by_index (a b : color) : Prop := coloridx a < coloridx b.

(** The pass order the specification gives for the duplicate collapser
    (4.5): red, then blue, then green. *)
Definition dupenuke_sort_spec (l : list color) : option (list color) :=
  l <- sqi_sort_group l 0 ;;
  l <- sqi_sort_group l 2 ;;
  sqi_sort_group l 1.

Definition black : color := mkcolor 0 x00 x00 x00.

Definition block_dec (x y : byte * byte * byte) : {x = y} + {x <> y}.
Proof.
  destruct x as [[r1 g1] b1], y as [[r2 g2] b2].
  destruct (Byte.byte_eq_dec r1 r2) as [Hr|Hr]; [|right; congruence].
  destruct (Byte.byte_eq_dec g1 g2) as [Hg|Hg]; [|right; congruence].
  destruct (Byte.byte_eq_dec b1 b2) as [Hb|Hb]; [|right; congruence].
  left; congruence.
Defined.

(** Number of distinct colors (channel-wise) of a list. *)
Definition distinct_colors (l : list color) : nat :=
  length (nodup block_dec (map block l)).

(** A context as registration leaves it: no duplicates collapsed yet,
    the nodes numbered in list order. *)
Definition registered (q : SQ) : Prop :=
  zeromap q = [] /\ zeros q = 0 /\ map coloridx (first q) = seq 0 (colors q).

(** What [sqi_dupenuke] establishes, relating the context [q] before to
    the context [q'] after: the survivors are nodes of the old list in
    strictly ascending color order, survivors and duplicates together
    are the old indices, and every duplicate refers to an earlier
    registered survivor of its own color. *)
Definition dedup_ok (q q' : SQ) : Prop :=
  colors q' = colors q /\
  zeros q' = length (zeromap q') /\
  first q' <> [] /\
  StronglySorted (fun a b => (rgbkey a < rgbkey b)%Z) (first q') /\
  incl (first q') (first q) /\
  Permutation (map coloridx (first q))
              (map coloridx (first q') ++ map fst (zeromap q')) /\
  Forall (fun z => exists c s,
              In c (first q) /\ coloridx c = fst z /\
              In s (first q') /\ coloridx s = snd z /\
              block s = block c /\ snd z < fst z)
         (zeromap q').

(** The recorded statistics of a group are those of its members. *)
Definition group_ok (g : groupinfo) : Prop :=
  sqi_examine_group (group g)
  = Some (groupcomponent g, groupcomponentsize g, groupcomponentsum g).

(** Invariant of the split loop over the deduplicated list [fs]: the
    groups are non-empty, analyzed, and partition [fs]. *)
Definition groups_ok (fs : list color) (st : list groupinfo) : Prop :=
  st <> [] /\ Forall group_ok st /\ Permutation (concat (map group st)) fs.

(** The group the next turn of the loop works on. *)
Definition selected (st : list groupinfo) : groupinfo :=
  nth (largest_group st) st zero_group.

(** The arrays after [n] turns that all cut successfully. *)
Fixpoint after_splits (n : nat) (st : list groupinfo) : option (list groupinfo) :=
  match n with
  | O => Some st
  | S n' =>
      match split_iter st with
      | Split st' => after_splits n' st'
      | _ => None
      end
  end.

(** The index-map writes of an assignment loop: the [j]-th index of
    [idxs] receives slot [i + j]. *)
Fixpoint assign (i : nat) (idxs : list nat) (m : list nat) : list nat :=
  match idxs with
  | [] => m
  | x :: rest => assign (S i) rest (store x (slot_byte i) m)
  end.

(** The original index of the head of a group. *)
Definition head_index (g : groupinfo) : nat :=
  match group g with
  | [] => 0
  | c :: _ => coloridx c
  end.

(** The index map has one entry per registered color, and colors that
    are channel-identical have the same entry. *)
Definition index_map_ok (q : SQ) (idxmap : list nat) : Prop :=
  length idxmap = colors q /\
  forall i j, i < colors q -> j < colors q ->
    block (nth i (first q) black) = block (nth j (first q) black) ->
    nth i idxmap 0 = nth j idxmap 0.

(** Every slot below [w] is the entry of some registered color. *)
Definition covered (q : SQ) (idxmap : list nat) (w : nat) : Prop :=
  forall slot, slot < w -> exists i, i < colors q /\ nth i idxmap 0 = slot.

(** ** Example inputs *)

(** Four distinct colors of which two groups synthesize the same entry. *)
Definition ex_C1 : list colormap := [rgbmap [5;3;0; 5;0;1; 5;2;1; 12;0;0]%Z].

(** Three distinct colors; the second group of a two-way split has two
    members. *)
Definition ex_C2 : list colormap := [rgbmap [90;0;0; 100;0;0; 100;1;0]%Z].

(** A group ascending in red (1, 1, 10): the last color carries the
    running total past half the sum. *)
Definition ex_C3 : list color :=
  [mkcolor 0 x01 x00 x00; mkcolor 1 x01 x01 x00; mkcolor 2 x0a x00 x00].

(** Scenario B of the specification: a color registered twice. *)
Definition ex_C4 : list colormap :=
  [rgbmap [10;10;10; 10;10;10; 200;0;0]%Z].

(** Two colors that the pass orders (red, green, blue) and (red, blue,
    green) leave in different orders. *)
Definition ex_C5 : list color :=
  [mkcolor 0 x00 x00 x01; mkcolor 1 x00 x01 x00].

(** A group with a tie in red. *)
Definition ex_C6 : list color :=
  [mkcolor 0 x02 x00 x00; mkcolor 1 x01 x05 x00; mkcolor 2 x02 x01 x00].

(** A group whose red and green spreads tie. *)
Definition ex_C7 : list color :=
  [mkcolor 0 x01 x09 x03; mkcolor 1 x05 x05 x04].

(** 257 distinct colors [(k mod 256, k / 256, 0)]. *)
Definition ex_C8 : list colormap :=
  [rgbmap (flat_map (fun k => [Z.of_nat (k mod 256); Z.of_nat (k / 256); 0%Z])
                    (seq 0 257))].

(** A loop state of one analyzed group. *)
Definition ex_C9 : list groupinfo := [mkgroup ex_C3 0 9 12 (-1)].

(** ** Notions used by the further properties *)

(** The node [sq_addcolormap] builds for color [a] of a map when
    [base] colors were registered before. *)
Definition node_of (colmap : list byte) (stride base a : nat) : color :=
  mkcolor (base + a) (nth (a * stride) colmap x00)
          (nth (a * stride + 1) colmap x00) (nth (a * stride + 2) colmap x00).

(** Ascending in channel [k]. *)
Definition ascending (k : Z) (g : list color) : Prop :=
  StronglySorted (fun a b => (val a k <= val b k)%Z) g.

(** The [groupsorted] marker of a group tells the truth: it is [-1] or
    the group is ascending in the channel it names. *)
Definition sorted_ok (g : groupinfo) : Prop :=
  groupsorted g = (-1)%Z \/ ascending (groupsorted g) (group g).

(** The loop state one turn after [ex_C9]. *)
Definition ex_C9_next : list groupinfo :=
  match split_iter ex_C9 with
  | Split st => st
  | _ => []
  end.

(** The palette entry of slot [i]: [pal[i*3 + 0 .. i*3 + 2]]. *)
Definition pal_entry (pal : list byte) (i : nat) : byte * byte * byte :=
  (nth (i * 3 + 0) pal x00, nth (i * 3 + 1) pal x00, nth (i * 3 + 2) pal x00).

(** A palette entry as a color, to speak of its channel values. *)
Definition entry_color (e : byte * byte * byte) : color :=
  mkcolor 0 (fst (fst e)) (snd (fst e)) (snd e).

(** The three channel bytes as one number, green most significant, then
    blue, then red: the order the three passes of the Fits path
    establish. *)
Definition gbrkey (c : color) : Z := (val c 1 * 65536 + val c 2 * 256 + val c 0)%Z.

(** The entry [e] lies, channel by channel, between two members of [g]. *)
Definition within_box (g : list color) (e : byte * byte * byte) : Prop :=
  forall k, (0 <= k <= 2)%Z ->
    exists lo hi, In lo g /\ In hi g /\
                  (val lo k <= val (entry_color e) k <= val hi k)%Z.

(** * Properties *)

(** ** Arrays *)

Lemma length_store {A : Type} (i : nat) (v : A) (a : list A) :
  length (store i v a) = length a.
Proof.
  revert i; induction a as [|x a IH]; intros [|i]; simpl; auto.
Qed.

Lemma nth_store_eq {A : Type} (i : nat) (v d : A) (a : list A) :
  i < length a -> nth i (store i v a) d = v.
Proof.
  revert i; induction a as [|x a IH]; intros [|i] H; simpl in *; try lia; auto.
  apply IH; lia.
Qed.

Lemma nth_store_neq {A : Type} (i j : nat) (v d : A) (a : list A) :
  i <> j -> nth j (store i v a) d = nth j a d.
Proof.
  revert i j; induction a as [|x a IH]; intros [|i] [|j] H; simpl; auto; try lia.
Qed.

Lemma nth_store {A : Type} (i j : nat) (v d : A) (a : list A) :
  nth j (store i v a) d = if (i =? j) && (i <? length a) then v else nth j a d.
Proof.
  destruct (Nat.eqb_spec i j) as [->|Hne]; simpl.
  - destruct (Nat.ltb_spec j (length a)).
    + now apply nth_store_eq.
    + rewrite !nth_overflow; auto. rewrite length_store; lia.
  - now apply nth_store_neq.
Qed.

(** ** Bucket sorting, generically *)

Section BucketSort.
Variable A : Type.
Variable f : A -> nat.

Lemma filter_disjoint_app (p q : A -> bool) (l : list A) :
  (forall x, p x = true -> q x = true -> False) ->
  Permutation (filter p l ++ filter q l) (filter (fun x => p x || q x) l).
Proof.
  intros D; induction l as [|x l IH]; simpl; auto.
  destruct (p x) eqn:Hp, (q x) eqn:Hq; simpl.
  - exfalso; eauto.
  - now constructor.
  - rewrite <- IH. symmetry. apply Permutation_middle.
  - exact IH.
Qed.

Lemma buckets_upto_S (n : nat) (l : list A) :
  buckets_upto f (S n) l = buckets_upto f n l ++ filter (fun x => f x =? n) l.
Proof.
  unfold buckets_upto. rewrite seq_S, flat_map_app. simpl.
  now rewrite app_nil_r.
Qed.

Lemma buckets_upto_perm (n : nat) (l : list A) :
  Permutation (buckets_upto f n l) (filter (fun x => f x <? n) l).
Proof.
  induction n as [|n IH].
  - unfold buckets_upto; simpl.
    induction l; simpl; auto.
  - rewrite buckets_upto_S, IH.
    rewrite filter_disjoint_app.
    + erewrite filter_ext; [reflexivity|].
      intros x; simpl.
      destruct (Nat.ltb_spec (f x) n), (Nat.eqb_spec (f x) n),
        (Nat.ltb_spec (f x) (S n)); simpl; auto; lia.
    + intros x H1 H2. apply Nat.ltb_lt in H1. apply Nat.eqb_eq in H2. lia.
Qed.

Lemma buckets_upto_all (n : nat) (l : list A) :
  (forall x, In x l -> f x < n) ->
  Permutation l (buckets_upto f n l).
Proof.
  intros H. rewrite buckets_upto_perm.
  replace (filter (fun x => f x <? n) l) with l; auto.
  induction l as [|x l IH]; simpl; auto.
  destruct (Nat.ltb_spec (f x) n) as [_|Hge].
  - f_equal. apply IH. intros; apply H; now right.
  - specialize (H x (or_introl eq_refl)); lia.
Qed.

Lemma buckets_upto_In (n : nat) (l : list A) (x : A) :
  In x (buckets_upto f n l) <-> In x l /\ f x < n.
Proof.
  unfold buckets_upto. rewrite in_flat_map. split.
  - intros (v & Hv & Hx). apply in_seq in Hv. apply filter_In in Hx.
    destruct Hx as [Hx He]. apply Nat.eqb_eq in He. split; auto; lia.
  - intros [Hx Hn]. exists (f x). split.
    + apply in_seq; lia.
    + apply filter_In; split; auto. apply Nat.eqb_refl.
Qed.

Lemma filter_bucket_bucket (n v : nat) (l : list A) :
  filter (fun x => f x =? v) (filter (fun x => f x =? n) l)
  = if v =? n then filter (fun x => f x =? v) l else [].
Proof.
  induction l as [|x l IHl]; simpl.
  - now destruct (v =? n).
  - destruct (Nat.eqb_spec (f x) n) as [E1|E1]; simpl.
    + destruct (Nat.eqb_spec (f x) v) as [E2|E2]; rewrite IHl;
        destruct (Nat.eqb_spec v n); try lia; auto.
    + rewrite IHl. destruct (Nat.eqb_spec v n) as [E3|E3]; auto.
      destruct (Nat.eqb_spec (f x) v); try lia; auto.
Qed.

Lemma buckets_upto_filter (n v : nat) (l : list A) :
  filter (fun x => f x =? v) (buckets_upto f n l)
  = if v <? n then filter (fun x => f x =? v) l else [].
Proof.
  induction n as [|n IH].
  - reflexivity.
  - rewrite buckets_upto_S, filter_app, IH, filter_bucket_bucket.
    destruct (Nat.ltb_spec v n), (Nat.eqb_spec v n), (Nat.ltb_spec v (S n));
      try lia; auto using app_nil_r.
Qed.

Variable R : A -> A -> Prop.

Lemma StronglySorted_app_intro (Q : A -> A -> Prop) (l1 l2 : list A) :
  StronglySorted Q l1 -> StronglySorted Q l2 ->
  (forall x y, In x l1 -> In y l2 -> Q x y) ->
  StronglySorted Q (l1 ++ l2).
Proof.
  intros H1 H2 H12. induction H1 as [|x l1 Hs IH Hx]; simpl; auto.
  constructor.
  - apply IH. intros; apply H12; simpl; auto.
  - apply Forall_app; split; auto.
    apply Forall_forall. intros y Hy. apply H12; simpl; auto.
Qed.

Lemma StronglySorted_filter (Q : A -> A -> Prop) (p : A -> bool) (l : list A) :
  StronglySorted Q l -> StronglySorted Q (filter p l).
Proof.
  induction 1 as [|x l Hs IH Hx]; simpl; [constructor|].
  destruct (p x); auto. constructor; auto.
  apply Forall_forall. intros y Hy. apply filter_In in Hy.
  rewrite Forall_forall in Hx. now apply Hx.
Qed.

Lemma buckets_upto_sorted (n : nat) (l : list A) :
  StronglySorted R l ->
  StronglySorted (lex_after f R) (buckets_upto f n l).
Proof.
  intros Hl. induction n as [|n IH].
  - constructor.
  - rewrite buckets_upto_S. apply StronglySorted_app_intro; auto.
    + assert (Hf := StronglySorted_filter (fun x => f x =? n) Hl).
      assert (Hk : Forall (fun x => f x = n) (filter (fun x => f x =? n) l)).
      { apply Forall_forall. intros x Hx. apply filter_In in Hx.
        now apply Nat.eqb_eq. }
      induction Hf as [|x m Hs IHm Hx]; constructor.
      * apply IHm. now inversion Hk.
      * inversion Hk as [|? ? Hkx Hkm]; subst.
        rewrite Forall_forall in *. intros y Hy. right. split; auto.
        symmetry; auto.
    + intros x y Hx Hy. apply buckets_upto_In in Hx.
      apply filter_In in Hy. destruct Hy as [_ Hy]. apply Nat.eqb_eq in Hy.
      left. lia.
Qed.

End BucketSort.

(** ** sqi_sort_group *)

Lemma key_bounded (k : Z) (c : color) : key k c < 256.
Proof.
  unfold key. pose proof (Byte.to_nat_bounded (component c k)). lia.
Qed.

Lemma val_key (k : Z) (c : color) : val c k = Z.of_nat (key k c).
Proof. reflexivity. Qed.

Lemma val_range (k : Z) (c : color) : (0 <= val c k <= 255)%Z.
Proof.
  rewrite val_key. pose proof (key_bounded k c). lia.
Qed.

Lemma fill_buckets_from (k : Z) (col : list color) (bucket : list (list color)) :
  length bucket = 256 ->
  let bucket' :=
    fold_left (fun bucket c => bucket_add (key k c) c bucket) col bucket in
  length bucket' = 256 /\
  forall v, nth v bucket' [] = nth v bucket [] ++ filter (fun c => key k c =? v) col.
Proof.
  revert bucket. induction col as [|c col IH]; intros bucket Hlen; simpl.
  - split; auto. intros v. now rewrite app_nil_r.
  - assert (Hadd : length (bucket_add (key k c) c bucket) = 256).
    { unfold bucket_add. now rewrite length_store. }
    destruct (IH _ Hadd) as [Hl Hn]. split; auto.
    intros v. rewrite Hn. unfold bucket_add at 1.
    rewrite nth_store, Hlen.
    pose proof (key_bounded k c) as Hk.
    destruct (Nat.eqb_spec (key k c) v) as [E|Hne]; simpl.
    + apply Nat.ltb_lt in Hk. rewrite Hk. subst v. now rewrite <- app_assoc.
    + reflexivity.
Qed.

Lemma concat_nth_seq {A : Type} (l : list (list A)) :
  concat l = flat_map (fun v => nth v l []) (seq 0 (length l)).
Proof.
  rewrite flat_map_concat_map. f_equal.
  apply nth_ext with (d := []) (d' := []).
  - now rewrite length_map, length_seq.
  - intros n Hn.
    rewrite (nth_indep (map (fun v => nth v l []) (seq 0 (length l)))
               [] ((fun v => nth v l []) 0))
      by now rewrite length_map, length_seq.
    pose proof (map_nth (fun v => nth v l []) (seq 0 (length l)) 0 n) as E.
    cbv beta in E. rewrite E, seq_nth by assumption. reflexivity.
Qed.

Lemma sort_group_buckets (col : list color) (k : Z) :
  col <> [] ->
  sqi_sort_group col k = Some (buckets_upto (key k) 256 col).
Proof.
  destruct col as [|c col]; [congruence|]. intros _.
  unfold sqi_sort_group. f_equal.
  destruct (fill_buckets_from k (c :: col) (repeat [] 256) (repeat_length _ _))
    as [Hl Hn].
  unfold fill_buckets, key in *.
  rewrite concat_nth_seq, Hl. unfold buckets_upto.
  apply flat_map_ext. intros v. rewrite Hn.
  rewrite nth_repeat. reflexivity.
Qed.

Lemma filter_none {A : Type} (p : A -> bool) (l : list A) :
  (forall x, In x l -> p x = false) -> filter p l = [].
Proof.
  induction l as [|x l IH]; simpl; intros H; auto.
  rewrite (H x) by auto. apply IH. auto.
Qed.

Lemma sort_group_perm (col out : list color) (k : Z) :
  sqi_sort_group col k = Some out -> Permutation col out.
Proof.
  destruct col as [|c col]; [discriminate|].
  rewrite sort_group_buckets by discriminate. intros [= <-].
  apply buckets_upto_all. intros; apply key_bounded.
Qed.

Lemma sort_group_nonempty (col out : list color) (k : Z) :
  sqi_sort_group col k = Some out -> col <> [] /\ out <> [].
Proof.
  intros H. pose proof (sort_group_perm _ _ H) as P.
  destruct col; [discriminate|]. split; [discriminate|].
  intros ->. now apply Permutation_sym, Permutation_nil in P.
Qed.

Lemma sort_group_lex (R : color -> color -> Prop) (col out : list color) (k : Z) :
  sqi_sort_group col k = Some out ->
  StronglySorted R col ->
  StronglySorted (lex_after (key k) R) out.
Proof.
  destruct col as [|c col]; [discriminate|].
  rewrite sort_group_buckets by discriminate. intros [= <-] H.
  now apply buckets_upto_sorted.
Qed.

Lemma StronglySorted_any {A : Type} (l : list A) :
  StronglySorted (fun _ _ => True) l.
Proof.
  induction l; constructor; auto. now apply Forall_forall.
Qed.

Lemma StronglySorted_weaken {A : Type} (P Q : A -> A -> Prop) (l : list A) :
  (forall a b, P a b -> Q a b) -> StronglySorted P l -> StronglySorted Q l.
Proof.
  intros PQ. induction 1 as [|x l Hs IH Hx]; constructor; auto.
  eapply Forall_impl; [|exact Hx]. intros; now apply PQ.
Qed.

(** C6.  On a non-empty group and a channel index 0, 1 or 2,
    [sqi_sort_group] returns a permutation of the group that is ascending
    in that channel's byte value, and the colors of every single value
    appear in the order they had in the input (the sort is stable). *)
Theorem sort_group_sorted_stable (col : list color) (k : Z) :
  col <> [] -> (0 <= k <= 2)%Z ->
  exists out,
    sqi_sort_group col k = Some out /\
    Permutation col out /\
    StronglySorted (fun a b => (val a k <= val b k)%Z) out /\
    forall v : Z, filter (fun c => (val c k =? v)%Z) out
                  = filter (fun c => (val c k =? v)%Z) col.
Proof.
  intros Hne _. exists (buckets_upto (key k) 256 col).
  pose proof (sort_group_buckets k Hne) as Hs.
  split; [exact Hs|]. split; [now apply sort_group_perm with k|]. split.
  - apply StronglySorted_weaken with (P := lex_after (key k) (fun _ _ => True)).
    + intros a b [H|[H _]]; rewrite !val_key; lia.
    + eapply sort_group_lex; eauto. apply StronglySorted_any.
  - intros v. destruct (Z.ltb_spec v 0) as [Hneg|Hpos].
    + rewrite !filter_none; auto; intros c _;
        pose proof (val_range k c); apply Z.eqb_neq; lia.
    + assert (E : forall c, (val c k =? v)%Z = (key k c =? Z.to_nat v)).
      { intros c. rewrite val_key.
        destruct (Z.eqb_spec (Z.of_nat (key k c)) v),
          (Nat.eqb_spec (key k c) (Z.to_nat v)); auto; lia. }
      rewrite (filter_ext _ _ E), (filter_ext _ _ E col).
      rewrite buckets_upto_filter.
      destruct (Nat.ltb_spec (Z.to_nat v) 256); auto.
      symmetry. apply filter_none. intros c _.
      pose proof (key_bounded k c). apply Nat.eqb_neq. lia.
Qed.

Lemma sort_group_sorted_stable_witness :
  exists out,
    sqi_sort_group ex_C6 0 = Some out /\
    Permutation ex_C6 out /\
    StronglySorted (fun a b => (val a 0 <= val b 0)%Z) out /\
    forall v : Z, filter (fun c => (val c 0 =? v)%Z) out
                  = filter (fun c => (val c 0 =? v)%Z) ex_C6.
Proof.
  apply (@sort_group_sorted_stable ex_C6 0%Z).
  - discriminate.
  - lia.
Defined.

(** ** sqi_examine_group *)

Lemma chansum_app (k : Z) (l1 l2 : list color) :
  chansum k (l1 ++ l2) = (chansum k l1 + chansum k l2)%Z.
Proof.
  induction l1 as [|c l1 IH]; simpl; auto. rewrite IH. lia.
Qed.

Lemma chansum_nonneg (k : Z) (l : list color) : (0 <= chansum k l)%Z.
Proof.
  induction l as [|c l IH]; simpl; [lia|]. pose proof (val_range k c). lia.
Qed.

Lemma chansum_perm (k : Z) (l1 l2 : list color) :
  Permutation l1 l2 -> chansum k l1 = chansum k l2.
Proof.
  induction 1; simpl; lia.
Qed.

Lemma stat_of_step (k : Z) (seen : list color) (s : chanstat) (c : color) :
  stat_of k seen s -> stat_of k (seen ++ [c]) (stat_step s (val c k)).
Proof.
  intros (Hs & (lo & Hlo & Elo) & (hi & Hhi & Ehi) & Hb).
  unfold stat_of, stat_step; simpl.
  split; [|split; [|split; [|intros x H]]].
  - rewrite chansum_app, Hs. simpl. lia.
  - destruct (Z.gtb_spec (cs_min s) (val c k)).
    + exists c. split; auto. apply in_or_app. simpl; auto.
    + exists lo. split; auto. apply in_or_app; auto.
  - destruct (Z.ltb_spec (cs_max s) (val c k)).
    + exists c. split; auto. apply in_or_app. simpl; auto.
    + exists hi. split; auto. apply in_or_app; auto.
  - apply in_app_or in H.
    destruct (Z.gtb_spec (cs_min s) (val c k)), (Z.ltb_spec (cs_max s) (val c k));
      destruct H as [H|[<-|[]]]; try (apply Hb in H); lia.
Qed.

Lemma stat_of_scan (k : Z) (rest seen : list color) (s : chanstat) :
  stat_of k seen s ->
  stat_of k (seen ++ rest) (fold_left (fun s g => stat_step s (val g k)) rest s).
Proof.
  revert seen s. induction rest as [|c rest IH]; intros seen s H; simpl.
  - now rewrite app_nil_r.
  - replace (seen ++ c :: rest) with ((seen ++ [c]) ++ rest)
      by now rewrite <- app_assoc.
    apply IH. now apply stat_of_step.
Qed.

Lemma chan_stat_of (k : Z) (g0 : color) (rest : list color) :
  stat_of k (g0 :: rest) (chan_stat k g0 rest).
Proof.
  apply (@stat_of_scan k rest [g0]).
  unfold stat_of, stat_init; simpl.
  split; [lia|split; [|split; [|intros x H]]].
  - exists g0; auto.
  - exists g0; auto.
  - destruct H as [<-|[]]; lia.
Qed.

Lemma examine_fold (rest : list color) (a b c : chanstat) :
  fold_left examine_step rest (a, b, c)
  = (fold_left (fun s g => stat_step s (val g 0)) rest a,
     fold_left (fun s g => stat_step s (val g 1)) rest b,
     fold_left (fun s g => stat_step s (val g 2)) rest c).
Proof.
  revert a b c. induction rest as [|x rest IH]; intros; simpl; auto.
Qed.

Lemma stat_of_spread (k : Z) (g : list color) (s : chanstat) :
  stat_of k g s -> is_spread g k (cs_max s - cs_min s).
Proof.
  intros (_ & (lo & Hlo & Elo) & (hi & Hhi & Ehi) & Hb).
  exists lo, hi. split; [auto|split; [auto|split; [|lia]]].
  intros x H. apply Hb in H. lia.
Qed.

Lemma is_spread_unique (g : list color) (k s1 s2 : Z) :
  is_spread g k s1 -> is_spread g k s2 -> s1 = s2.
Proof.
  intros (lo1 & hi1 & L1 & H1 & B1 & ->) (lo2 & hi2 & L2 & H2 & B2 & ->).
  pose proof (B1 _ L2). pose proof (B1 _ H2).
  pose proof (B2 _ L1). pose proof (B2 _ H1). lia.
Qed.

(** What [sqi_examine_group] returns, in terms of the three channel
    statistics. *)
Lemma examine_group_eq (g0 : color) (rest : list color) :
  let sp k := (cs_max (chan_stat k g0 rest) - cs_min (chan_stat k g0 rest))%Z in
  let sm k := cs_sum (chan_stat k g0 rest) in
  sqi_examine_group (g0 :: rest)
  = Some (if (sp 2 >? (if (sp 1 >? sp 0) then sp 1 else sp 0))%Z
          then (2, sp 2, sm 2)
          else if (sp 1 >? sp 0)%Z then (1, sp 1, sm 1) else (0, sp 0, sm 0))%Z.
Proof.
  intros sp sm. unfold sqi_examine_group. rewrite examine_fold.
  fold (chan_stat 0 g0 rest) (chan_stat 1 g0 rest) (chan_stat 2 g0 rest).
  fold (sp 0%Z) (sp 1%Z) (sp 2%Z) (sm 0%Z) (sm 1%Z) (sm 2%Z).
  destruct (sp 1 >? sp 0)%Z; destruct (sp 2 >? _)%Z; reflexivity.
Qed.

Lemma examine_group_spec (g : list color) :
  g <> [] ->
  exists comp size sum,
    sqi_examine_group g = Some (comp, size, sum) /\
    (0 <= comp <= 2)%Z /\
    is_spread g comp size /\
    sum = chansum comp g /\
    forall k s, (0 <= k <= 2)%Z -> is_spread g k s ->
                (s <= size)%Z /\ ((k < comp)%Z -> (s < size)%Z).
Proof.
  destruct g as [|g0 rest]; [congruence|]. intros _.
  rewrite examine_group_eq.
  pose proof (chan_stat_of 0 g0 rest) as S0.
  pose proof (chan_stat_of 1 g0 rest) as S1.
  pose proof (chan_stat_of 2 g0 rest) as S2.
  pose proof (stat_of_spread S0) as P0.
  pose proof (stat_of_spread S1) as P1.
  pose proof (stat_of_spread S2) as P2.
  destruct S0 as (E0 & _), S1 as (E1 & _), S2 as (E2 & _).
  set (s0 := (cs_max (chan_stat 0 g0 rest) - cs_min (chan_stat 0 g0 rest))%Z) in *.
  set (s1 := (cs_max (chan_stat 1 g0 rest) - cs_min (chan_stat 1 g0 rest))%Z) in *.
  set (s2 := (cs_max (chan_stat 2 g0 rest) - cs_min (chan_stat 2 g0 rest))%Z) in *.
  assert (U : forall k s, (0 <= k <= 2)%Z -> is_spread (g0 :: rest) k s ->
                          (k = 0 /\ s = s0 \/ k = 1 /\ s = s1 \/ k = 2 /\ s = s2)%Z).
  { intros k s Hk Hs.
    assert (k = 0 \/ k = 1 \/ k = 2)%Z as [-> | [-> | ->]] by lia;
      [left|right;left|right;right]; split; auto;
        eapply is_spread_unique; eauto. }
  destruct (Z.gtb_spec s1 s0) as [G1|G1];
    [destruct (Z.gtb_spec s2 s1) as [G2|G2]|destruct (Z.gtb_spec s2 s0) as [G2|G2]];
    do 3 eexists; (split; [reflexivity|]); (split; [lia|]);
      (split; [eassumption|]); (split; [assumption|]);
      intros k s Hk Hs; destruct (U k s Hk Hs) as [[Ek Es]|[[Ek Es]|[Ek Es]]]; lia.
Qed.

(** C7.  On a non-empty group [sqi_examine_group] returns a channel, that
    channel's spread (max - min) and that channel's sum; the spread
    returned is the largest of the three, and every channel in front of
    the returned one (in the order red, green, blue) has a strictly
    smaller spread, so a later channel wins only when strictly greater. *)
Theorem examine_group_largest_spread (g : list color) :
  g <> [] ->
  exists comp size sum,
    sqi_examine_group g = Some (comp, size, sum) /\
    (0 <= comp <= 2)%Z /\
    is_spread g comp size /\
    sum = chansum comp g /\
    forall k s, (0 <= k <= 2)%Z -> is_spread g k s ->
                (s <= size)%Z /\ ((k < comp)%Z -> (s < size)%Z).
Proof.
  exact (@examine_group_spec g).
Qed.

Lemma examine_group_largest_spread_witness :
  exists comp size sum,
    sqi_examine_group ex_C7 = Some (comp, size, sum) /\
    (0 <= comp <= 2)%Z /\
    is_spread ex_C7 comp size /\
    sum = chansum comp ex_C7 /\
    forall k s, (0 <= k <= 2)%Z -> is_spread ex_C7 k s ->
                (s <= size)%Z /\ ((k < comp)%Z -> (s < size)%Z).
Proof.
  apply (@examine_group_largest_spread ex_C7). discriminate.
Defined.

(** ** sqi_cut_group *)

Lemma cut_walk_done (median k count : Z) (n : nat) (g : list color) :
  (median < count)%Z -> cut_walk median k count n g = Some n.
Proof.
  intros H. destruct g; simpl; destruct (Z.leb_spec count median); auto; lia.
Qed.

(** When the total of the group exceeds the median the walk stops inside
    the group, at the first node whose value carries the running count
    past the median. *)
Lemma cut_walk_cross (median k : Z) (g : list color) (count : Z) (n : nat) :
  (count <= median)%Z -> (median < count + chansum k g)%Z ->
  exists j,
    1 <= j <= length g /\
    cut_walk median k count n g = Some (n + j) /\
    (count + chansum k (firstn (j - 1) g) <= median
     < count + chansum k (firstn j g))%Z.
Proof.
  revert count n. induction g as [|c g IH]; intros count n Hle Hgt; simpl in *.
  - lia.
  - destruct (Z.leb_spec count median) as [_|]; [|lia].
    destruct (Z.leb_spec (count + val c k) median) as [Hc|Hc].
    + destruct (IH (count + val c k)%Z (S n) Hc) as (j & Hj & Hw & Hlo & Hhi);
        [lia|].
      exists (S j). split; [lia|]. split.
      * rewrite Hw. f_equal. lia.
      * replace (S j - 1) with (S (j - 1)) by lia. simpl. lia.
    + exists 1. split; [lia|]. split.
      * rewrite cut_walk_done by lia. f_equal. lia.
      * simpl. lia.
Qed.

(** A group whose channel is zero throughout makes the walk run off the
    list. *)
Lemma cut_walk_off (median k : Z) (g : list color) (count : Z) (n : nat) :
  (count + chansum k g <= median)%Z -> cut_walk median k count n g = None.
Proof.
  revert count n. induction g as [|c g IH]; intros count n H; simpl in *.
  - destruct (Z.leb_spec count median); auto; lia.
  - pose proof (chansum_nonneg k g). pose proof (val_range k c).
    destruct (Z.leb_spec count median); [|lia]. apply IH. lia.
Qed.

(** With a channel sum of zero the running total never passes the
    median: the walk leaves the list. *)
Lemma cut_group_zero_sum (g : list color) (k : Z) :
  chansum k g = 0%Z -> sqi_cut_group g k 0 = None.
Proof.
  intros H. unfold sqi_cut_group.
  change (Z.quot 0 2) with 0%Z. rewrite cut_walk_off; [reflexivity|lia].
Qed.

Lemma cut_group_positive (g : list color) (k sum : Z) :
  (0 < sum)%Z -> sum = chansum k g ->
  exists n,
    1 <= n <= length g /\
    (chansum k (firstn (n - 1) g) <= Z.quot sum 2 < chansum k (firstn n g))%Z /\
    sqi_cut_group g k sum
    = Some (firstn (Nat.max 1 (n - 1)) g, skipn (Nat.max 1 (n - 1)) g).
Proof.
  intros Hpos Hsum.
  assert (Hq : (0 <= Z.quot sum 2 < sum)%Z).
  { rewrite Z.quot_div_nonneg by lia. split.
    - apply Z.div_pos; lia.
    - apply Z.div_lt; lia. }
  destruct (@cut_walk_cross (Z.quot sum 2) k g 0%Z 0) as (j & Hj & Hw & Hb);
    [lia|lia|].
  exists j. split; [exact Hj|]. split; [lia|].
  unfold sqi_cut_group. rewrite Hw. simpl.
  destruct j as [|[|j]]; [lia| | ]; simpl; auto.
Qed.

(** C3, as the code has it.  For a group whose chosen channel has a
    positive sum, the walk stops at the first color that carries the
    running total past half the sum (color number [n]).  The cut is made
    in front of that color, so the prefix excludes it, unless it is the
    very first color, which then forms the prefix alone.  The new group
    is empty (null, group unsplit) exactly when the group has a single
    color. *)
Theorem cut_group_before_crossing (g : list color) (k : Z) :
  (0 <= k <= 2)%Z -> (0 < chansum k g)%Z ->
  exists n,
    1 <= n <= length g /\
    (chansum k (firstn (n - 1) g) <= Z.quot (chansum k g) 2
     < chansum k (firstn n g))%Z /\
    sqi_cut_group g k (chansum k g)
    = Some (firstn (Nat.max 1 (n - 1)) g, skipn (Nat.max 1 (n - 1)) g) /\
    (skipn (Nat.max 1 (n - 1)) g = [] <-> length g = 1).
Proof.
  intros _ Hpos.
  destruct (@cut_group_positive g k (chansum k g) Hpos eq_refl)
    as (n & Hn & Hb & Hc).
  exists n. repeat (split; [assumption|]).
  split; intros H.
  - apply length_zero_iff_nil in H. rewrite length_skipn in H. lia.
  - apply length_zero_iff_nil. rewrite length_skipn. lia.
Qed.

Lemma cut_group_before_crossing_witness :
  exists n,
    1 <= n <= length ex_C3 /\
    (chansum 0 (firstn (n - 1) ex_C3) <= Z.quot (chansum 0 ex_C3) 2
     < chansum 0 (firstn n ex_C3))%Z /\
    sqi_cut_group ex_C3 0 (chansum 0 ex_C3)
    = Some (firstn (Nat.max 1 (n - 1)) ex_C3, skipn (Nat.max 1 (n - 1)) ex_C3) /\
    (skipn (Nat.max 1 (n - 1)) ex_C3 = [] <-> length ex_C3 = 1).
Proof.
  apply (@cut_group_before_crossing ex_C3 0%Z).
  - lia.
  - vm_compute. reflexivity.
Defined.

(** C3 as the specification states it fails on the sorted group of red
    values 1, 1, 10 (sum 12): the third color causes the crossing, at the
    end of the group.  The specification has the split fail there; the
    code returns the third color as a new group and keeps the first two. *)
Lemma cut_group_spec_counterexample :
  StronglySorted (fun a b => (val a 0 <= val b 0)%Z) ex_C3 /\
  cut_group_spec ex_C3 0 (chansum 0 ex_C3) = Some (ex_C3, []) /\
  sqi_cut_group ex_C3 0 (chansum 0 ex_C3)
  = Some (firstn 2 ex_C3, skipn 2 ex_C3) /\
  sqi_cut_group ex_C3 0 (chansum 0 ex_C3)
  <> cut_group_spec ex_C3 0 (chansum 0 ex_C3).
Proof.
  split; [|split; [|split]].
  - unfold ex_C3. repeat constructor; vm_compute; discriminate.
  - reflexivity.
  - reflexivity.
  - vm_compute. discriminate.
Qed.

(** ** The sorting passes of sqi_dupenuke *)

Lemma to_nat_inj (x y : byte) : Byte.to_nat x = Byte.to_nat y -> x = y.
Proof.
  intros H. pose proof (Byte.of_to_nat x) as Hx.
  rewrite H, Byte.of_to_nat in Hx. congruence.
Qed.

Lemma block_eqb_eq (x y : byte * byte * byte) : block_eqb x y = true <-> x = y.
Proof.
  destruct x as [[r1 g1] b1], y as [[r2 g2] b2]. unfold block_eqb.
  rewrite !andb_true_iff. split.
  - intros [[H1 H2] H3].
    apply Byte.byte_dec_bl in H1, H2, H3. congruence.
  - intros [= -> -> ->]. now rewrite !Byte.byte_dec_lb.
Qed.

Lemma rgbkey_block (a b : color) : rgbkey a = rgbkey b <-> block a = block b.
Proof.
  unfold rgbkey, block. rewrite !val_key. split.
  - intros H.
    pose proof (key_bounded 0 a). pose proof (key_bounded 1 a).
    pose proof (key_bounded 2 a). pose proof (key_bounded 0 b).
    pose proof (key_bounded 1 b). pose proof (key_bounded 2 b).
    assert (key 0 a = key 0 b /\ key 1 a = key 1 b /\ key 2 a = key 2 b)
      as (E0 & E1 & E2) by lia.
    unfold key in E0, E1, E2. simpl in E0, E1, E2.
    apply to_nat_inj in E0, E1, E2. congruence.
  - intros [= Hr Hg Hb]. unfold key; simpl. now rewrite Hr, Hg, Hb.
Qed.

Lemma lex_after_three (R : color -> color -> Prop) (a b : color) :
  lex_after (key 2) (lex_after (key 1) (lex_after (key 0) R)) a b ->
  dedup_order R a b.
Proof.
  unfold lex_after, dedup_order. intros H. split.
  - pose proof (key_bounded 0 a). pose proof (key_bounded 1 a).
    pose proof (key_bounded 0 b). pose proof (key_bounded 1 b).
    unfold rgbkey. rewrite !val_key. lia.
  - intros E.
    assert (key 0 a = key 0 b /\ key 1 a = key 1 b /\ key 2 a = key 2 b)
      as (E0 & E1 & E2).
    { unfold block in E. injection E as Hr Hg Hb.
      unfold key; simpl. now rewrite Hr, Hg, Hb. }
    destruct H as [H|[_ [H|[_ [H|[_ H]]]]]]; try lia. exact H.
Qed.

Lemma dupenuke_sort_buckets (l : list color) :
  l <> [] ->
  dupenuke_sort l
  = Some (buckets_upto (key 2) 256
            (buckets_upto (key 1) 256 (buckets_upto (key 0) 256 l))).
Proof.
  intros Hne. unfold dupenuke_sort.
  pose proof (sort_group_buckets 0 Hne) as H0. rewrite H0; simpl.
  destruct (sort_group_nonempty _ _ H0) as [_ N0].
  pose proof (sort_group_buckets 1 N0) as H1. rewrite H1; simpl.
  destruct (sort_group_nonempty _ _ H1) as [_ N1].
  apply (sort_group_buckets 2 N1).
Qed.

Lemma dupenuke_sort_order (R : color -> color -> Prop) (l out : list color) :
  dupenuke_sort l = Some out ->
  StronglySorted R l ->
  Permutation l out /\ StronglySorted (dedup_order R) out.
Proof.
  unfold dupenuke_sort. intros H HR.
  destruct (sqi_sort_group l 0) as [l0|] eqn:H0; [simpl in H|discriminate].
  destruct (sqi_sort_group l0 1) as [l1|] eqn:H1; [simpl in H|discriminate].
  split.
  - rewrite (sort_group_perm _ _ H0), (sort_group_perm _ _ H1).
    eapply sort_group_perm; eauto.
  - eapply StronglySorted_weaken; [apply lex_after_three|].
    eapply sort_group_lex; eauto. eapply sort_group_lex; eauto.
    eapply sort_group_lex; eauto.
Qed.

Lemma StronglySorted_nth {A : Type} (R : A -> A -> Prop) (d : A) (l : list A) :
  StronglySorted R l ->
  forall i j, i < j -> j < length l -> R (nth i l d) (nth j l d).
Proof.
  induction 1 as [|x l Hs IH Hx]; intros i j Hij Hj; simpl in *; [lia|].
  destruct j as [|j]; [lia|]. destruct i as [|i].
  - rewrite Forall_forall in Hx. apply Hx. apply nth_In. lia.
  - apply IH; lia.
Qed.

(** C5, as the code has it.  In front of the scan the working list goes
    through three stable bucket passes: by red first, then by green, then
    by blue.  The result is a permutation ordered by blue, ties by green,
    ties by red, so that identical colors lie next to each other. *)
Theorem dupenuke_sort_red_green_blue (l : list color) :
  l <> [] ->
  exists out,
    dupenuke_sort l = Some out /\
    out = buckets_upto (key 2) 256
            (buckets_upto (key 1) 256 (buckets_upto (key 0) 256 l)) /\
    Permutation l out /\
    StronglySorted (fun a b => (rgbkey a <= rgbkey b)%Z) out /\
    forall i m j, i <= m <= j -> j < length out ->
      block (nth i out black) = block (nth j out black) ->
      block (nth m out black) = block (nth i out black).
Proof.
  intros Hne. pose proof (dupenuke_sort_buckets Hne) as Hs.
  eexists. split; [exact Hs|]. split; [reflexivity|].
  destruct (dupenuke_sort_order Hs (StronglySorted_any l)) as [P S].
  split; [exact P|].
  assert (S' : StronglySorted (fun a b => (rgbkey a <= rgbkey b)%Z)
                 (buckets_upto (key 2) 256
                    (buckets_upto (key 1) 256 (buckets_upto (key 0) 256 l)))).
  { eapply StronglySorted_weaken; [|exact S]. now intros a b [H _]. }
  split; [exact S'|].
  intros i m j Him Hj E. apply rgbkey_block in E. apply rgbkey_block.
  destruct (Nat.eq_dec i m) as [->|Hne1]; auto.
  destruct (Nat.eq_dec m j) as [->|Hne2]; auto.
  pose proof (StronglySorted_nth black S' (i := i) (j := m)).
  pose proof (StronglySorted_nth black S' (i := m) (j := j)).
  lia.
Qed.

Lemma dupenuke_sort_red_green_blue_witness :
  exists out,
    dupenuke_sort ex_C5 = Some out /\
    out = buckets_upto (key 2) 256
            (buckets_upto (key 1) 256 (buckets_upto (key 0) 256 ex_C5)) /\
    Permutation ex_C5 out /\
    StronglySorted (fun a b => (rgbkey a <= rgbkey b)%Z) out /\
    forall i m j, i <= m <= j -> j < length out ->
      block (nth i out black) = block (nth j out black) ->
      block (nth m out black) = block (nth i out black).
Proof.
  apply (@dupenuke_sort_red_green_blue ex_C5). discriminate.
Defined.

(** C5 as the specification states it (red, then blue, then green) fails
    on the two colors (0,0,1) and (0,1,0): the passes of the code leave
    the second in front, the specified passes the first. *)
Lemma dupenuke_sort_spec_counterexample :
  dupenuke_sort ex_C5 = Some [mkcolor 1 x00 x01 x00; mkcolor 0 x00 x00 x01] /\
  dupenuke_sort_spec ex_C5 = Some [mkcolor 0 x00 x00 x01; mkcolor 1 x00 x01 x00] /\
  option_map first (sqi_dupenuke (mkSQ ex_C5 [] 2 0))
  = Some [mkcolor 1 x00 x01 x00; mkcolor 0 x00 x00 x01] /\
  dupenuke_sort ex_C5 <> dupenuke_sort_spec ex_C5.
Proof.
  repeat split; try reflexivity. vm_compute. discriminate.
Qed.

(** ** Registration *)

Lemma registered_alloc : registered sq_alloc.
Proof. repeat split. Qed.

Lemma registered_add_color (q : SQ) (r g b : Z) :
  registered q ->
  registered (sqi_add_color q r g b) /\
  colors (sqi_add_color q r g b) = S (colors q).
Proof.
  intros (Hz & Hn & Hi). split; [|reflexivity].
  unfold registered, sqi_add_color; cbn [first zeromap zeros colors].
  repeat split; auto.
  now rewrite map_app, Hi, seq_S.
Qed.

Lemma registered_addcolormap (q : SQ) (colmap : list byte) (n stride : nat) :
  registered q ->
  registered (fst (sq_addcolormap q colmap n stride)) /\
  colors (fst (sq_addcolormap q colmap n stride)) = colors q + n /\
  snd (sq_addcolormap q colmap n stride) = colors q.
Proof.
  unfold sq_addcolormap; simpl. intros H.
  assert (G : forall l q,
             registered q ->
             let q' := fold_left
                         (fun q a => sqi_add_color q (peek colmap (a * stride + 0))
                                       (peek colmap (a * stride + 1))
                                       (peek colmap (a * stride + 2))) l q in
             registered q' /\ colors q' = colors q + length l).
  { induction l as [|a l IH]; intros q0 H0; simpl.
    - split; auto.
    - destruct (registered_add_color
                  (peek colmap (a * stride + 0)) (peek colmap (a * stride + 1))
                  (peek colmap (a * stride + 2)) H0) as [R1 C1].
      destruct (IH _ R1) as [R2 C2]. split; auto.
      rewrite C2, C1. lia. }
  destruct (G (seq 0 n) q H) as [R C]. rewrite length_seq in C. auto.
Qed.

Lemma registered_register (maps : list colormap) : registered (register maps).
Proof.
  unfold register. generalize registered_alloc. generalize sq_alloc.
  induction maps as [|m maps IH]; intros q H; simpl; auto.
  apply IH. now apply registered_addcolormap.
Qed.

Lemma seq_sorted_by_index (l : list color) (s n : nat) :
  map coloridx l = seq s n -> StronglySorted by_index l.
Proof.
  revert s n. induction l as [|c l IH]; intros s n H; [constructor|].
  destruct n as [|n]; [discriminate|]. simpl in H. injection H as Hc Hl.
  constructor; [eauto|].
  apply Forall_forall. intros x Hx. unfold by_index.
  assert (In (coloridx x) (seq (S s) n)) as Hin
      by (rewrite <- Hl; now apply in_map).
  apply in_seq in Hin. lia.
Qed.

Lemma registered_length (q : SQ) : registered q -> length (first q) = colors q.
Proof.
  intros (_ & _ & H). apply (f_equal (@length nat)) in H.
  now rewrite length_map, length_seq in H.
Qed.

Lemma registered_nth (q : SQ) (i : nat) :
  registered q -> i < colors q -> coloridx (nth i (first q) black) = i.
Proof.
  intros (_ & _ & H) Hi.
  rewrite <- (map_nth coloridx), H. now rewrite seq_nth.
Qed.

(** ** sqi_dupenuke *)

Lemma strict_key_NoDup (l : list color) :
  StronglySorted (fun a b => (rgbkey a < rgbkey b)%Z) l -> NoDup (map block l).
Proof.
  induction 1 as [|x l Hs IH Hx]; simpl; constructor; auto.
  intros Hin. apply in_map_iff in Hin. destruct Hin as (y & E & Hy).
  rewrite Forall_forall in Hx. apply Hx in Hy.
  apply rgbkey_block in E. lia.
Qed.

Lemma dupe_scan_spec (rest : list color) (s0 : color) (keep : list color)
  (dup : list (nat * nat)) :
  StronglySorted (dedup_order by_index) (s0 :: rest) ->
  dupe_scan (coloridx s0) (block s0) rest = (keep, dup) ->
  StronglySorted (fun a b => (rgbkey a < rgbkey b)%Z) (s0 :: keep) /\
  incl keep rest /\
  Permutation (map coloridx rest) (map coloridx keep ++ map fst dup) /\
  Forall (fun z => exists c s,
              In c rest /\ coloridx c = fst z /\
              In s (s0 :: keep) /\ coloridx s = snd z /\
              block s = block c /\ snd z < fst z) dup.
Proof.
  revert s0 keep dup.
  induction rest as [|c rest IH]; intros s0 keep dup Hs H; cbn [dupe_scan] in H.
  - injection H as <- <-. repeat split; auto.
    + repeat constructor.
    + apply incl_refl.
  - inversion Hs as [|? ? Hs' Hall]; subst.
    inversion Hs' as [|? ? Hs'' Hall']; subst.
    inversion Hall as [|? ? Hc Hall'']; subst.
    destruct (block_eqb (block c) (block s0)) eqn:E.
    + apply block_eqb_eq in E.
      destruct (dupe_scan (coloridx s0) (block s0) rest) as [keep' dup'] eqn:Hr.
      injection H as <- <-.
      destruct (IH s0 keep' dup') as (I1 & I2 & I3 & I4); auto.
      { constructor; auto. }
      split; [exact I1|]. split; [now apply incl_tl|]. split.
      * simpl. rewrite I3. apply Permutation_middle.
      * constructor.
        -- exists c, s0. simpl. destruct Hc as [_ Hc].
           repeat split; auto. apply Hc. auto.
        -- eapply Forall_impl; [|exact I4].
           intros z (c' & s & H1 & H2 & H3 & H4 & H5 & H6).
           exists c', s. repeat split; auto. now right.
    + destruct (dupe_scan (coloridx c) (block c) rest) as [keep' dup'] eqn:Hr.
      injection H as <- <-.
      destruct (IH c keep' dup') as (I1 & I2 & I3 & I4); auto.
      assert (Hlt : (rgbkey s0 < rgbkey c)%Z).
      { destruct Hc as [Hle _].
        assert (rgbkey s0 <> rgbkey c); [|lia].
        intros Hk. apply rgbkey_block in Hk.
        assert (block_eqb (block c) (block s0) = true)
          by (apply block_eqb_eq; auto).
        congruence. }
      split; [|split; [|split]].
      * constructor; auto. constructor; auto.
        inversion I1 as [|? ? _ Hk]; subst.
        eapply Forall_impl; [|exact Hk]. simpl; intros; lia.
      * intros x [<-|Hx]; [now left|right; now apply I2].
      * simpl. now rewrite I3.
      * eapply Forall_impl; [|exact I4].
        intros z (c' & s & H1 & H2 & H3 & H4 & H5 & H6).
        exists c', s. repeat split; auto.
        -- now right.
        -- now right.
Qed.

Lemma dupenuke_registered (q : SQ) :
  registered q -> first q <> [] ->
  exists q', sqi_dupenuke q = Some q' /\ dedup_ok q q'.
Proof.
  intros Hreg Hne. unfold sqi_dupenuke.
  pose proof (dupenuke_sort_buckets Hne) as Hs. rewrite Hs. simpl.
  destruct Hreg as (Hz & Hn & Hi).
  destruct (dupenuke_sort_order Hs (@seq_sorted_by_index _ _ _ Hi)) as [P S].
  destruct (buckets_upto _ _ _) as [|c rest] eqn:El.
  { apply Permutation_sym, Permutation_nil in P. contradiction. }
  destruct (dupe_scan (coloridx c) (block c) rest) as [keep dup] eqn:Hd.
  destruct (dupe_scan_spec S Hd) as (I1 & I2 & I3 & I4).
  eexists. split; [reflexivity|].
  unfold dedup_ok; simpl. rewrite Hz, Hn. simpl.
  split; [reflexivity|]. split; [reflexivity|]. split; [discriminate|].
  split; [exact I1|]. split; [|split].
  - intros x Hx. apply Permutation_in with (l := c :: rest).
    + now symmetry.
    + destruct Hx as [<-|Hx]; [now left|right; now apply I2].
  - rewrite (Permutation_map coloridx P). simpl. now rewrite I3.
  - eapply Forall_impl; [|exact I4].
    intros z (c' & s & H1 & H2 & H3 & H4 & H5 & H6).
    exists c', s. repeat split; auto.
    apply Permutation_in with (l := c :: rest); [now symmetry|now right].
Qed.

(** ** The split loop *)

Lemma largest_fold (sz : nat -> Z) (len a i0 : nat) :
  let r := fold_left (fun i n => if (sz n >? sz i)%Z then n else i)
                     (seq a len) i0 in
  (r = i0 \/ a <= r < a + len) /\
  (sz i0 <= sz r)%Z /\
  forall n, a <= n < a + len -> (sz n <= sz r)%Z.
Proof.
  revert a i0. induction len as [|len IH]; intros a i0; simpl.
  - repeat split; auto; try lia.
  - specialize (IH (S a) (if (sz a >? sz i0)%Z then a else i0)).
    simpl in IH. destruct IH as (H1 & H2 & H3).
    destruct (Z.gtb_spec (sz a) (sz i0)); repeat split; try lia.
    + intros n Hn. destruct (Nat.eq_dec n a) as [->|]; [lia|apply H3; lia].
    + intros n Hn. destruct (Nat.eq_dec n a) as [->|]; [lia|apply H3; lia].
Qed.

Lemma largest_group_spec (st : list groupinfo) :
  st <> [] ->
  largest_group st < length st /\
  forall n, n < length st ->
    (groupcomponentsize (nth n st zero_group)
     <= groupcomponentsize (selected st))%Z.
Proof.
  intros Hne. unfold selected, largest_group.
  pose proof (largest_fold
                (fun n => groupcomponentsize (nth n st zero_group))
                (length st) 0 0) as (H1 & H2 & H3).
  simpl in *. split.
  - destruct st; [congruence|]. simpl in *. lia.
  - intros n Hn. apply H3. lia.
Qed.

Lemma examine_group_facts (g : list color) (c sz sm : Z) :
  sqi_examine_group g = Some (c, sz, sm) ->
  g <> [] /\ (0 <= c <= 2)%Z /\ sm = chansum c g /\
  (exists lo hi, In lo g /\ In hi g /\ sz = (val hi c - val lo c)%Z) /\
  (forall k a b, (0 <= k <= 2)%Z -> In a g -> In b g ->
                 (val a k - val b k <= sz)%Z).
Proof.
  intros H. assert (Hne : g <> []) by (intros ->; discriminate).
  destruct (examine_group_spec Hne) as (c' & sz' & sm' & E & Hc & Hs & Hm & Hk).
  rewrite E in H. injection H as -> -> ->.
  split; auto. split; auto. split; auto. split.
  - destruct Hs as (lo & hi & ? & ? & _ & ?). eauto.
  - intros k a b Hk' Ha Hb.
    destruct g as [|g0 rest]; [congruence|].
    pose proof (stat_of_spread (chan_stat_of k g0 rest)) as Sp.
    destruct (Hk k _ Hk' Sp) as [Hle _].
    destruct (chan_stat_of k g0 rest) as (_ & _ & _ & Hb').
    pose proof (Hb' _ Ha). pose proof (Hb' _ Hb). lia.
Qed.

Lemma examine_group_some (g : list color) :
  g <> [] -> exists c sz sm, sqi_examine_group g = Some (c, sz, sm).
Proof.
  intros Hne. destruct (examine_group_spec Hne) as (c & sz & sm & E & _).
  eauto.
Qed.

Lemma chansum_ge_member (k : Z) (g : list color) (c : color) :
  In c g -> (val c k <= chansum k g)%Z.
Proof.
  induction g as [|x g IH]; simpl; [tauto|].
  pose proof (chansum_nonneg k g) as Hs. pose proof (val_range k x) as Hx.
  intros [<-|Hin]; [lia|]. apply IH in Hin. lia.
Qed.

Lemma pigeonhole {A : Type} (ls : list (list A)) :
  Forall (fun l => l <> []) ls ->
  length ls < length (concat ls) ->
  exists l, In l ls /\ 2 <= length l.
Proof.
  induction 1 as [|l ls Hl Hls IH]; simpl; [lia|].
  rewrite length_app. intros Hc.
  destruct l as [|a [|b l]]; [congruence| |].
  - simpl in Hc. destruct IH as (l' & Hin & Hlen); [lia|]. eauto.
  - exists (a :: b :: l). split; auto. simpl; lia.
Qed.

Lemma NoDup_concat_member {A B : Type} (f : A -> B) (ls : list (list A))
  (l : list A) :
  In l ls -> NoDup (map f (concat ls)) -> NoDup (map f l).
Proof.
  induction ls as [|x ls IH]; simpl; [tauto|].
  rewrite map_app. intros [->|H] N.
  - eapply NoDup_app_remove_r; eauto.
  - apply IH; auto. eapply NoDup_app_remove_l; eauto.
Qed.

Lemma blocks_differ (a b : color) :
  block a <> block b ->
  exists k, (0 <= k <= 2)%Z /\ val a k <> val b k.
Proof.
  intros H.
  destruct (Z.eq_dec (val a 0) (val b 0)) as [E0|]; [|exists 0%Z; split; [lia|auto]].
  destruct (Z.eq_dec (val a 1) (val b 1)) as [E1|]; [|exists 1%Z; split; [lia|auto]].
  destruct (Z.eq_dec (val a 2) (val b 2)) as [E2|]; [|exists 2%Z; split; [lia|auto]].
  exfalso. apply H. apply rgbkey_block. unfold rgbkey. lia.
Qed.

Lemma Forall_store {A : Type} (P : A -> Prop) (i : nat) (v : A) (l : list A) :
  Forall P l -> P v -> Forall P (store i v l).
Proof.
  intros H Hv. revert i. induction H as [|x l Hx Hl IH]; intros [|i]; simpl;
    constructor; auto.
Qed.

Lemma concat_store_perm (st : list groupinfo) (i : nat) (x : groupinfo)
  (extra : list color) :
  i < length st ->
  Permutation (group x ++ extra) (group (nth i st zero_group)) ->
  Permutation (concat (map group (store i x st)) ++ extra)
              (concat (map group st)).
Proof.
  revert i. induction st as [|g st IH]; intros [|i] Hi P; simpl in *; try lia.
  - rewrite <- P. rewrite <- !app_assoc. apply Permutation_app_head.
    apply Permutation_app_comm.
  - rewrite <- app_assoc. apply Permutation_app_head. apply IH; auto. lia.
Qed.

Lemma split_iter_length (st : list groupinfo) :
  match split_iter st with
  | Split st' => length st' = S (length st)
  | CantCut st' => length st' = length st
  | Undefined => True
  end.
Proof.
  unfold split_iter.
  destruct (if (groupsorted _ =? groupcomponent _)%Z then _ else _)
    as [[gl srt]|]; auto.
  destruct (sqi_cut_group _ _ _) as [[keep [|n0 new]]|]; auto.
  - now rewrite length_store.
  - destruct (sqi_examine_group keep) as [[[c1 s1] m1]|]; auto.
    destruct (sqi_examine_group (n0 :: new)) as [[[c2 s2] m2]|]; auto.
    rewrite length_app, length_store. simpl. lia.
Qed.

Lemma split_iter_progress (fs : list color) (st : list groupinfo) :
  groups_ok fs st -> NoDup (map block fs) -> length st < length fs ->
  2 <= length (group (selected st)) /\
  (0 < groupcomponentsum (selected st))%Z /\
  groupcomponentsum (selected st)
  = chansum (groupcomponent (selected st)) (group (selected st)) /\
  exists st', split_iter st = Split st' /\ groups_ok fs st' /\
              length st' = S (length st).
Proof.
  intros (Hne & Hok & Hperm) Hnd Hlen.
  destruct (largest_group_spec Hne) as [Hi Hmax].
  assert (Hgi : group_ok (selected st)).
  { rewrite Forall_forall in Hok. apply Hok. now apply nth_In. }
  (* some group has two members, hence a positive spread *)
  assert (Hbig : exists g2, In g2 st /\ (0 < groupcomponentsize g2)%Z).
  { destruct (@pigeonhole _ (map group st)) as (l & Hl & Hl2).
    - apply Forall_forall. intros l Hl. apply in_map_iff in Hl.
      destruct Hl as (g & <- & Hg). rewrite Forall_forall in Hok.
      apply Hok in Hg. now apply examine_group_facts in Hg.
    - rewrite length_map, (Permutation_length Hperm). exact Hlen.
    - assert (Nl : NoDup (map block l)).
      { apply NoDup_concat_member with (ls := map group st); auto.
        eapply Permutation_NoDup; [|exact Hnd].
        apply Permutation_map. now symmetry. }
      apply in_map_iff in Hl. destruct Hl as (g2 & <- & Hg2).
      exists g2. split; auto.
      rewrite Forall_forall in Hok. apply Hok in Hg2.
      apply examine_group_facts in Hg2.
      destruct Hg2 as (_ & _ & _ & _ & Hsp).
      destruct (group g2) as [|a [|b r]]; simpl in Hl2; try lia.
      inversion Nl as [|? ? Hab _]; subst.
      destruct (@blocks_differ a b) as (k & Hk & Hv).
      { intros E. apply Hab. rewrite E. now left. }
      pose proof (Hsp k a b Hk). pose proof (Hsp k b a Hk).
      simpl in *. 
      assert (val a k - val b k <= groupcomponentsize g2)%Z by auto.
      assert (val b k - val a k <= groupcomponentsize g2)%Z by auto.
      lia. }
  assert (Hpos : (0 < groupcomponentsize (selected st))%Z).
  { destruct Hbig as (g2 & Hin & Hg2).
    destruct (In_nth _ _ zero_group Hin) as (n & Hn & <-).
    specialize (Hmax n Hn). lia. }
  pose proof Hgi as Hex. apply examine_group_facts in Hex.
  destruct Hex as (Hgne & Hc & Hsum & (lo & hi & Hlo & Hhi & Hsz) & _).
  remember (selected st) as gi eqn:Egi.
  assert (Hsumpos : (0 < groupcomponentsum gi)%Z).
  { pose proof (chansum_ge_member (groupcomponent gi) _ _ Hhi).
    pose proof (val_range (groupcomponent gi) lo). lia. }
  assert (Hlen2 : 2 <= length (group gi)).
  { destruct (group gi) as [|x [|y r]]; simpl; try lia; [congruence|].
    destruct Hlo as [<-|[]], Hhi as [<-|[]]. lia. }
  split; [exact Hlen2|]. split; [exact Hsumpos|]. split; [exact Hsum|].
  (* the sorting step *)
  assert (Hsort : exists gl srt,
             (if (groupsorted gi =? groupcomponent gi)%Z
              then Some (group gi, groupsorted gi)
              else l <- sqi_sort_group (group gi) (groupcomponent gi) ;;
                   Some (l, groupcomponent gi)) = Some (gl, srt)
             /\ Permutation (group gi) gl).
  { destruct (groupsorted gi =? groupcomponent gi)%Z.
    - eauto.
    - rewrite (sort_group_buckets (groupcomponent gi) Hgne). simpl.
      do 2 eexists. split; [reflexivity|].
      apply sort_group_perm with (k := groupcomponent gi).
      now apply sort_group_buckets. }
  destruct Hsort as (gl & srt & Hsort & Pgl).
  destruct (@cut_group_positive gl (groupcomponent gi) (groupcomponentsum gi))
    as (n & Hn & _ & Hcut); auto.
  { rewrite Hsum. now apply chansum_perm. }
  pose proof (Permutation_length Pgl) as Lgl.
  set (cut := Nat.max 1 (n - 1)) in *.
  assert (Hk : firstn cut gl <> []).
  { intros E. apply (f_equal (@length color)) in E.
    rewrite length_firstn in E. simpl in E. lia. }
  assert (Hn' : skipn cut gl <> []).
  { intros E. apply (f_equal (@length color)) in E.
    rewrite length_skipn in E. simpl in E. lia. }
  destruct (examine_group_some Hk) as (c1 & s1 & m1 & E1).
  destruct (examine_group_some Hn') as (c2 & s2 & m2 & E2).
  exists (store (largest_group st) (mkgroup (firstn cut gl) c1 s1 m1 srt) st
            ++ [mkgroup (skipn cut gl) c2 s2 m2 srt]).
  split; [|split].
  - unfold split_iter. fold (selected st). rewrite <- Egi, Hsort, Hcut.
    destruct (skipn cut gl) as [|n0 new] eqn:Es; [congruence|].
    now rewrite E1, E2.
  - split; [|split].
    + intros E. apply (f_equal (@length groupinfo)) in E.
      rewrite length_app in E. simpl in E. lia.
    + apply Forall_app. split.
      * apply Forall_store; auto.
      * constructor; auto.
    + rewrite map_app, concat_app. simpl. rewrite app_nil_r.
      rewrite concat_store_perm; auto.
      simpl. rewrite firstn_skipn. fold (selected st). rewrite <- Egi.
      now symmetry.
  - rewrite length_app, length_store. simpl. lia.
Qed.

Lemma after_splits_ok (fs : list color) (W n : nat) (st : list groupinfo) :
  NoDup (map block fs) -> W < length fs ->
  groups_ok fs st -> length st + n <= W ->
  exists stn, after_splits n st = Some stn /\ groups_ok fs stn /\
              length stn = length st + n.
Proof.
  intros Hnd HW. revert st. induction n as [|n IH]; intros st Hok Hlen; simpl.
  - exists st. split; [reflexivity|]. split; [assumption|lia].
  - destruct (split_iter_progress Hok Hnd) as (_ & _ & _ & st' & E & Hok' & L);
      [lia|].
    rewrite E. destruct (IH st' Hok') as (stn & E' & Hn & Ln); [lia|].
    exists stn. split; [assumption|]. split; [assumption|lia].
Qed.

Lemma split_loop_run (fs : list color) (W fuel : nat) (st : list groupinfo)
  (it : nat) :
  NoDup (map block fs) -> W < length fs ->
  groups_ok fs st -> length st <= W -> W - length st <= fuel ->
  exists st', split_loop fuel W st it = Finished st' (it + (W - length st)) /\
              groups_ok fs st' /\ length st' = W /\
              after_splits (W - length st) st = Some st'.
Proof.
  intros Hnd HW. revert st it.
  induction fuel as [|fuel IH]; intros st it Hok Hlen Hfuel.
  - assert (length st = W) as E by lia. simpl.
    destruct (Nat.ltb_spec (length st) W); [lia|].
    exists st. replace (W - length st) with 0 by lia.
    rewrite Nat.add_0_r. simpl. auto.
  - simpl. destruct (Nat.ltb_spec (length st) W) as [Hlt|Hge].
    + destruct (split_iter_progress Hok Hnd) as (_ & _ & _ & st' & E & Hok' & L);
        [lia|].
      rewrite E. destruct (IH st' (S it) Hok') as (st2 & E2 & Hok2 & L2 & A2);
        [lia|lia|].
      exists st2. rewrite E2. split; [f_equal; lia|]. split; auto. split; auto.
      replace (W - length st) with (S (W - length st')) by lia.
      simpl. now rewrite E.
    + exists st. replace (W - length st) with 0 by lia.
      rewrite Nat.add_0_r. simpl.
      split; [reflexivity|]. split; [assumption|]. split; [lia|reflexivity].
Qed.

Lemma split_loop_bound (W fuel : nat) (st : list groupinfo) (it : nat) :
  W - length st <= fuel ->
  match split_loop fuel W st it with
  | Finished st' k =>
      it <= k <= it + (W - length st) /\ length st' <= Nat.max W (length st)
  | Crashed => True
  | OutOfFuel => False
  end.
Proof.
  revert st it. induction fuel as [|fuel IH]; intros st it Hfuel; simpl.
  - destruct (Nat.ltb_spec (length st) W); lia.
  - destruct (Nat.ltb_spec (length st) W) as [Hlt|Hge]; [|lia].
    pose proof (split_iter_length st) as L.
    destruct (split_iter st) as [st'|st'|]; auto; [|lia].
    specialize (IH st' (S it)).
    destruct (split_loop fuel W st' (S it)); auto; lia.
Qed.

Lemma NoDup_app_disjoint {A : Type} (l1 l2 : list A) (a : A) :
  NoDup (l1 ++ l2) -> In a l1 -> In a l2 -> False.
Proof.
  induction l1 as [|x l1 IH]; simpl; [tauto|].
  intros N [->|H1] H2; inversion N as [|? ? Hx N']; subst.
  - apply Hx. apply in_or_app. now right.
  - now apply IH.
Qed.

Lemma same_image_same_node {A B : Type} (f : A -> B) (l : list A) (a b : A) :
  NoDup (map f l) -> In a l -> In b l -> f a = f b -> a = b.
Proof.
  induction l as [|x l IH]; simpl; intros N Ha Hb E; [tauto|].
  inversion N as [|? ? Hx N']; subst.
  destruct Ha as [<-|Ha], Hb as [<-|Hb]; auto.
  - exfalso. apply Hx. rewrite E. now apply in_map.
  - exfalso. apply Hx. rewrite <- E. now apply in_map.
Qed.

Lemma registered_NoDup (q : SQ) : registered q -> NoDup (map coloridx (first q)).
Proof.
  intros (_ & _ & ->). apply seq_NoDup.
Qed.

(** Every registered color has a surviving representative of its own
    color, registered no later; the color is that survivor or sits on
    the zero list with the survivor's index in its block. *)
Lemma representative (q q' : SQ) (c : color) :
  registered q -> dedup_ok q q' -> In c (first q) ->
  exists s, In s (first q') /\ block s = block c /\
            ((s = c /\ ~ In (coloridx c) (map fst (zeromap q'))) \/
             (In (coloridx c, coloridx s) (zeromap q') /\
              coloridx s < coloridx c)).
Proof.
  intros Hreg (_ & _ & _ & _ & Hincl & Hperm & Hz) Hc.
  pose proof (registered_NoDup Hreg) as Nd.
  assert (Nd' : NoDup (map coloridx (first q') ++ map fst (zeromap q')))
    by (eapply Permutation_NoDup; eauto).
  assert (Hin : In (coloridx c) (map coloridx (first q') ++ map fst (zeromap q')))
    by (eapply Permutation_in; [exact Hperm|now apply in_map]).
  apply in_app_or in Hin. destruct Hin as [Hin|Hin].
  - apply in_map_iff in Hin. destruct Hin as (s & E & Hs).
    assert (s = c) as -> by (eapply same_image_same_node; eauto).
    exists c. repeat split; auto. left. split; auto.
    intros Hd. eapply NoDup_app_disjoint; eauto. now apply in_map.
  - apply in_map_iff in Hin. destruct Hin as ([i r] & E & Hzin). simpl in E.
    rewrite Forall_forall in Hz.
    destruct (Hz _ Hzin) as (c' & s & H1 & H2 & H3 & H4 & H5 & H6).
    simpl in *. subst i.
    assert (c' = c) as -> by (eapply same_image_same_node; eauto).
    exists s. repeat split; auto. right. subst r. split; auto.
Qed.

Lemma dedup_distinct (q q' : SQ) :
  registered q -> dedup_ok q q' ->
  distinct_colors (first q) = length (first q').
Proof.
  intros Hreg Hd. unfold distinct_colors.
  rewrite <- (length_map block (first q')).
  apply Permutation_length, NoDup_Permutation.
  - apply NoDup_nodup.
  - apply strict_key_NoDup. apply Hd.
  - intros x. rewrite nodup_In. split; intros H.
    + apply in_map_iff in H. destruct H as (c & <- & Hc).
      destruct (@representative q q' c Hreg Hd Hc) as (s & Hs & E & _).
      rewrite <- E. now apply in_map.
    + apply in_map_iff in H. destruct H as (s & <- & Hs).
      apply in_map. destruct Hd as (_ & _ & _ & _ & Hincl & _). now apply Hincl.
Qed.

Lemma dedup_counts (q q' : SQ) :
  registered q -> dedup_ok q q' ->
  colors q' - zeros q' = length (first q') /\
  length (first q') <= colors q.
Proof.
  intros Hreg (Hc & Hz & _ & _ & _ & Hperm & _).
  apply Permutation_length in Hperm.
  rewrite length_app, !length_map, registered_length in Hperm by assumption.
  lia.
Qed.

Lemma distinct_nonempty (l : list color) : 0 < distinct_colors l -> l <> [].
Proof.
  intros H ->. unfold distinct_colors in H. simpl in H. lia.
Qed.

Lemma initial_groups_ok (q : SQ) :
  first q <> [] ->
  exists st0, initial_groups q = Some st0 /\ groups_ok (first q) st0 /\
              length st0 = 1.
Proof.
  intros Hne. unfold initial_groups.
  destruct (examine_group_some Hne) as (c & sz & sm & E). rewrite E. simpl.
  eexists. split; [reflexivity|]. split; [|reflexivity].
  split; [discriminate|]. split.
  - constructor; [exact E|constructor].
  - simpl. now rewrite app_nil_r.
Qed.

(** C10.  When more distinct colors are registered than the requested
    width [W], every turn of the split loop finds a selected group of at
    least two members whose chosen channel has a positive sum, the cut
    of that group succeeds (the turn ends in [Split], never in the
    [break]), and the loop ends after [W - 1] turns with exactly [W]
    groups. *)
Theorem split_loop_never_breaks (maps : list colormap) (W : nat) :
  1 <= W -> W < distinct_colors (first (register maps)) ->
  exists q' st0 st,
    sqi_dupenuke (register maps) = Some q' /\
    initial_groups q' = Some st0 /\
    (forall n, n < W - 1 ->
       exists stn st',
         after_splits n st0 = Some stn /\
         2 <= length (group (selected stn)) /\
         groupcomponentsum (selected stn)
         = chansum (groupcomponent (selected stn)) (group (selected stn)) /\
         (0 < groupcomponentsum (selected stn))%Z /\
         split_iter stn = Split st') /\
    split_groups q' W = Finished st (W - 1) /\
    length st = W.
Proof.
  intros HW HD.
  pose proof (registered_register maps) as Hreg.
  assert (Hne : first (register maps) <> []) by (apply distinct_nonempty; lia).
  destruct (dupenuke_registered Hreg Hne) as (q' & Hq' & Hd).
  rewrite (dedup_distinct Hreg Hd) in HD.
  assert (Hnd : NoDup (map block (first q')))
    by (apply strict_key_NoDup; apply Hd).
  assert (Hne' : first q' <> []) by apply Hd.
  destruct (@initial_groups_ok q' Hne') as (st0 & E0 & Hok0 & L0).
  destruct (@split_loop_run (first q') W W st0 0 Hnd HD Hok0)
    as (st & Hrun & Hok & Lst & _); [lia|lia|].
  exists q', st0, st. split; [exact Hq'|]. split; [exact E0|]. split; [|split].
  - intros n Hn.
    destruct (@after_splits_ok (first q') W n st0 Hnd HD Hok0)
      as (stn & En & Hokn & Ln); [lia|].
    destruct (split_iter_progress Hokn Hnd) as (H2 & Hp & Hs & st' & Es & _);
      [lia|].
    exists stn, st'. auto.
  - unfold split_groups. destruct W as [|w]; [lia|]. rewrite E0.
    rewrite Hrun. f_equal. lia.
  - exact Lst.
Qed.

Lemma split_loop_never_breaks_witness :
  exists q' st0 st,
    sqi_dupenuke (register ex_C2) = Some q' /\
    initial_groups q' = Some st0 /\
    (forall n, n < 2 - 1 ->
       exists stn st',
         after_splits n st0 = Some stn /\
         2 <= length (group (selected stn)) /\
         groupcomponentsum (selected stn)
         = chansum (groupcomponent (selected stn)) (group (selected stn)) /\
         (0 < groupcomponentsum (selected stn))%Z /\
         split_iter stn = Split st') /\
    split_groups q' 2 = Finished st (2 - 1) /\
    length st = 2.
Proof.
  apply (@split_loop_never_breaks ex_C2 2).
  - lia.
  - vm_compute. lia.
Defined.

(** ** Index-map writes *)

Lemma assign_spec (idxs : list nat) (i : nat) (m : list nat) :
  NoDup idxs -> (forall x, In x idxs -> x < length m) ->
  length (assign i idxs m) = length m /\
  (forall j, j < length idxs ->
             nth (nth j idxs 0) (assign i idxs m) 0 = slot_byte (i + j)) /\
  (forall x, ~ In x idxs -> nth x (assign i idxs m) 0 = nth x m 0).
Proof.
  revert i m. induction idxs as [|x rest IH]; intros i m Nd Hb; simpl.
  - repeat split; auto. intros; lia.
  - inversion Nd as [|? ? Hx Nd']; subst.
    destruct (IH (S i) (store x (slot_byte i) m) Nd') as (I1 & I2 & I3).
    { intros y Hy. rewrite length_store. apply Hb. now right. }
    rewrite length_store in I1. split; [exact I1|]. split.
    + intros [|j] Hj.
      * rewrite I3 by assumption. rewrite nth_store_eq; [f_equal; lia|].
        apply Hb. now left.
      * rewrite I2 by lia. f_equal. lia.
    + intros y Hy. rewrite I3 by tauto. apply nth_store_neq. tauto.
Qed.

Lemma fits_assign_idx (l : list color) (i : nat) (m : list nat) (p : list byte) :
  fst (fits_assign i l (m, p)) = assign i (map coloridx l) m.
Proof.
  revert i m p. induction l as [|c l IH]; intros; simpl; auto.
Qed.

Lemma build_palette_idx (st : list groupinfo) (i : nat) (m : list nat)
  (p : list byte) :
  Forall (fun g => group g <> []) st ->
  exists p', build_palette i st (m, p)
             = Some (assign i (map head_index st) m, p').
Proof.
  intros H. revert i m p. induction H as [|g st Hg Hst IH]; intros i m p; simpl.
  - eauto.
  - unfold build_group, head_index.
    destruct (group g) as [|col rest] eqn:Eg; [congruence|].
    destruct (fold_left tally (col :: rest) (0%Z, 0%Z, 0%Z, 0%Z))
      as [[[count c0] c1] c2].
    simpl. apply IH.
Qed.

Lemma resolve_zeros_spec (zm : list (nat * nat)) (m : list nat) :
  NoDup (map fst zm) ->
  (forall z, In z zm -> ~ In (snd z) (map fst zm)) ->
  (forall z, In z zm -> fst z < length m) ->
  length (resolve_zeros zm m) = length m /\
  (forall z, In z zm -> nth (fst z) (resolve_zeros zm m) 0 = nth (snd z) m 0) /\
  (forall x, ~ In x (map fst zm) -> nth x (resolve_zeros zm m) 0 = nth x m 0).
Proof.
  unfold resolve_zeros. revert m.
  induction zm as [|z zm IH]; intros m Nd Hr Hb; simpl.
  - repeat split; auto. intros z [].
  - simpl in Nd. inversion Nd as [|? ? Hz Nd']; subst.
    destruct (IH (store (fst z) (nth (snd z) m 0) m) Nd') as (I1 & I2 & I3).
    { intros z' Hz' Hin. apply (Hr z'); [now right|]. simpl. now right. }
    { intros z' Hz'. rewrite length_store. apply Hb. now right. }
    rewrite length_store in I1. split; [exact I1|]. split.
    + intros z' [<-|Hz'].
      * rewrite I3 by assumption. apply nth_store_eq. apply Hb. now left.
      * rewrite I2 by assumption. apply nth_store_neq.
        intros E. apply (Hr z'); [now right|]. simpl. now left.
    + intros x Hx. rewrite I3 by (simpl in Hx; tauto).
      apply nth_store_neq. simpl in Hx. tauto.
Qed.

Lemma registered_In_bound (q : SQ) (c : color) :
  registered q -> In c (first q) -> coloridx c < colors q.
Proof.
  intros (_ & _ & H) Hc. apply (in_map coloridx) in Hc.
  rewrite H in Hc. apply in_seq in Hc. lia.
Qed.

Lemma registered_In_nth (q : SQ) (c : color) :
  registered q -> In c (first q) -> nth (coloridx c) (first q) black = c.
Proof.
  intros Hreg Hc. pose proof (@registered_In_bound q c Hreg Hc) as Hb.
  eapply same_image_same_node with (f := coloridx); eauto.
  - now apply registered_NoDup.
  - apply nth_In. now rewrite registered_length.
  - now apply registered_nth.
Qed.

(** The zero list can be resolved in one pass: its indices are distinct,
    in range, and no reference points at another duplicate. *)
Lemma zeromap_shape (q q' : SQ) :
  registered q -> dedup_ok q q' ->
  NoDup (map fst (zeromap q')) /\
  NoDup (map coloridx (first q')) /\
  (forall s, In s (first q') ->
             coloridx s < colors q /\ ~ In (coloridx s) (map fst (zeromap q'))) /\
  (forall z, In z (zeromap q') ->
             fst z < colors q /\ ~ In (snd z) (map fst (zeromap q'))).
Proof.
  intros Hreg (_ & _ & _ & _ & Hincl & Hperm & Hz).
  pose proof (registered_NoDup Hreg) as Nd.
  assert (Nd' : NoDup (map coloridx (first q') ++ map fst (zeromap q')))
    by (eapply Permutation_NoDup; eauto).
  assert (Hs : forall s, In s (first q') ->
             coloridx s < colors q /\ ~ In (coloridx s) (map fst (zeromap q'))).
  { intros s Hs. split.
    - apply registered_In_bound; auto.
    - intros Hin. eapply NoDup_app_disjoint; eauto. now apply in_map. }
  split; [eapply NoDup_app_remove_l; eauto|].
  split; [eapply NoDup_app_remove_r; eauto|].
  split; [exact Hs|].
  intros z Hzin. rewrite Forall_forall in Hz.
  destruct (Hz _ Hzin) as (c & s & H1 & H2 & H3 & H4 & _).
  split.
  - rewrite <- H2. now apply registered_In_bound.
  - rewrite <- H4. now apply Hs.
Qed.

(** After the zero list is resolved every registered color carries the
    entry of its representative, and the survivors keep their own. *)
Lemma resolved_entries (q q' : SQ) (m : list nat) :
  registered q -> dedup_ok q q' -> length m = colors q ->
  let final := resolve_zeros (zeromap q') m in
  length final = colors q /\
  (forall s, In s (first q') ->
             nth (coloridx s) final 0 = nth (coloridx s) m 0) /\
  (forall i j, i < colors q -> j < colors q ->
     block (nth i (first q) black) = block (nth j (first q) black) ->
     nth i final 0 = nth j final 0).
Proof.
  intros Hreg Hd Hlen final.
  destruct (@zeromap_shape q q' Hreg Hd) as (Z1 & Z2 & Z3 & Z4).
  destruct (@resolve_zeros_spec (zeromap q') m Z1) as (R1 & R2 & R3).
  { intros z Hz. now apply Z4. }
  { intros z Hz. rewrite Hlen. now apply Z4. }
  fold final in R1, R2, R3.
  assert (Hrep : forall c, In c (first q) ->
            exists s, In s (first q') /\ block s = block c /\
                      nth (coloridx c) final 0 = nth (coloridx s) m 0).
  { intros c Hc.
    destruct (@representative q q' c Hreg Hd Hc) as (s & Hs & E & [[-> Hn]|[Hz _]]).
    - exists c. repeat split; auto.
    - exists s. repeat split; auto. apply (R2 _ Hz). }
  split; [congruence|]. split.
  - intros s Hs. apply R3. now apply Z3.
  - intros i j Hi Hj E.
    assert (Hci : In (nth i (first q) black) (first q))
      by (apply nth_In; now rewrite registered_length).
    assert (Hcj : In (nth j (first q) black) (first q))
      by (apply nth_In; now rewrite registered_length).
    destruct (Hrep _ Hci) as (si & Hsi & Ei & Fi).
    destruct (Hrep _ Hcj) as (sj & Hsj & Ej & Fj).
    rewrite registered_nth in Fi, Fj by assumption.
    assert (si = sj) as ->.
    { eapply same_image_same_node with (f := block); eauto.
      - apply strict_key_NoDup. apply Hd.
      - congruence. }
    congruence.
Qed.

(** Back-references: a duplicate refers to the first registered color of
    its value, which survives. *)
Lemma backrefs (q q' : SQ) (i r : nat) :
  registered q -> dedup_ok q q' -> In (i, r) (zeromap q') ->
  r < i < colors q /\
  block (nth r (first q) black) = block (nth i (first q) black) /\
  In (nth r (first q) black) (first q') /\
  ~ In r (map fst (zeromap q')) /\
  forall j, j < colors q ->
    block (nth j (first q) black) = block (nth i (first q) black) -> r <= j.
Proof.
  intros Hreg Hd Hz.
  destruct (@zeromap_shape q q' Hreg Hd) as (Z1 & Z2 & Z3 & Z4).
  pose proof Hd as (_ & _ & _ & _ & Hincl & _ & Hall).
  rewrite Forall_forall in Hall.
  destruct (Hall _ Hz) as (c & s & H1 & H2 & H3 & H4 & H5 & H6).
  simpl in *. subst i r.
  pose proof (@registered_In_nth q c Hreg H1) as Ec.
  pose proof (@registered_In_nth q s Hreg (Hincl _ H3)) as Es.
  rewrite Ec, Es.
  split; [split; [lia|now apply registered_In_bound]|].
  split; [exact H5|]. split; [exact H3|]. split; [now apply Z3|].
  intros j Hj E.
  assert (Hcj : In (nth j (first q) black) (first q))
    by (apply nth_In; now rewrite registered_length).
  destruct (@representative q q' _ Hreg Hd Hcj) as (sj & Hsj & Ej & Hor).
  assert (sj = s) as ->.
  { eapply same_image_same_node with (f := block); eauto.
    - apply strict_key_NoDup. apply Hd.
    - congruence. }
  rewrite registered_nth in Hor by assumption.
  destruct Hor as [[-> _]|[_ Hlt]].
  - rewrite registered_nth by assumption. lia.
  - lia.
Qed.

(** ** sq_reduce *)

Lemma nth_map_in {A B : Type} (f : A -> B) (l : list A) (i : nat) (d : B) (d' : A) :
  i < length l -> nth i (map f l) d = f (nth i l d').
Proof.
  intros H. rewrite (nth_indep (map f l) d (f d')) by now rewrite length_map.
  apply map_nth.
Qed.

Lemma distinct_le_length (l : list color) : distinct_colors l <= length l.
Proof.
  unfold distinct_colors. rewrite <- (length_map block l).
  generalize (map block l). intros bl.
  induction bl as [|b bl IH]; simpl; auto.
  destruct (in_dec block_dec b bl); simpl; lia.
Qed.

Lemma slot_byte_small (i : nat) : i < 256 -> slot_byte i = i.
Proof. intros H. unfold slot_byte. now apply Nat.mod_small. Qed.

(** The three sorting passes of the Fits path. *)
Lemma fits_sort (l : list color) :
  l <> [] ->
  exists l2, (l0 <- sqi_sort_group l 0 ;;
              l1 <- sqi_sort_group l0 2 ;;
              sqi_sort_group l1 1) = Some l2 /\ Permutation l l2.
Proof.
  intros Hne.
  pose proof (sort_group_buckets 0 Hne) as H0.
  destruct (sort_group_nonempty _ _ H0) as [_ N0].
  pose proof (sort_group_buckets 2 N0) as H1.
  destruct (sort_group_nonempty _ _ H1) as [_ N1].
  pose proof (sort_group_buckets 1 N1) as H2.
  rewrite H0; simpl. rewrite H1; simpl. rewrite H2.
  eexists. split; [reflexivity|].
  eapply Permutation_trans; [apply (sort_group_perm _ _ H0)|].
  eapply Permutation_trans; [apply (sort_group_perm _ _ H1)|].
  apply (sort_group_perm _ _ H2).
Qed.

Lemma sq_reduce_fits (q : SQ) (W d : nat) :
  registered q -> first q <> [] -> distinct_colors (first q) <= W ->
  exists idxmap pal,
    sq_reduce (S d) q W = Some (idxmap, pal, distinct_colors (first q)) /\
    1 <= distinct_colors (first q) /\
    index_map_ok q idxmap /\
    (distinct_colors (first q) <= 256 ->
     covered q idxmap (distinct_colors (first q))).
Proof.
  intros Hreg Hne HD.
  destruct (dupenuke_registered Hreg Hne) as (q' & Hq' & Hd).
  pose proof (dedup_distinct Hreg Hd) as ED.
  destruct (dedup_counts Hreg Hd) as [Hc Hle].
  assert (Hne' : first q' <> []) by apply Hd.
  destruct (@fits_sort (first q') Hne') as (l2 & Hsort & P).
  destruct (@zeromap_shape q q' Hreg Hd) as (Z1 & Z2 & Z3 & Z4).
  set (m := assign 0 (map coloridx l2) (repeat 0 (colors q))).
  destruct (@assign_spec (map coloridx l2) 0 (repeat 0 (colors q)))
    as (A1 & A2 & A3).
  { eapply Permutation_NoDup; [|exact Z2]. now apply Permutation_map. }
  { intros x Hx. rewrite repeat_length. apply in_map_iff in Hx.
    destruct Hx as (s & <- & Hs). apply Z3.
    eapply Permutation_in; [symmetry; exact P|exact Hs]. }
  fold m in A1, A2, A3. rewrite repeat_length in A1.
  destruct (@resolved_entries q q' m Hreg Hd A1) as (R1 & R2 & R3).
  exists (resolve_zeros (zeromap q') m).
  exists (snd (fits_assign 0 l2 (repeat 0 (colors q), repeat x00 (W * 3)))).
  split; [|split; [|split]].
  - simpl. rewrite Hq'. simpl. rewrite Hc.
    destruct (Nat.leb_spec (length (first q')) W) as [_|]; [|lia].
    unfold bind in Hsort. rewrite ED.
    destruct (sqi_sort_group (first q') 0) as [l0|]; [simpl|discriminate].
    destruct (sqi_sort_group l0 2) as [l1|]; [simpl|discriminate].
    rewrite Hsort. simpl.
    pose proof (fits_assign_idx l2 0 (repeat 0 (colors q)) (repeat x00 (W * 3)))
      as Ef.
    destruct (fits_assign 0 l2 (repeat 0 (colors q), repeat x00 (W * 3)))
      as [m' p']. simpl in *. now subst m'.
  - rewrite ED. destruct (first q'); [congruence|simpl; lia].
  - split; [exact R1|exact R3].
  - intros H256 slot Hslot. rewrite ED in *.
    rewrite (Permutation_length P) in Hslot.
    assert (Hin : In (nth slot l2 black) (first q')).
    { eapply Permutation_in; [symmetry; exact P|]. now apply nth_In. }
    exists (coloridx (nth slot l2 black)). split; [now apply Z3|].
    rewrite (R2 _ Hin).
    rewrite <- (map_nth coloridx).
    rewrite (nth_indep (map coloridx l2) (coloridx black) 0)
      by now rewrite length_map.
    rewrite A2 by now rewrite length_map.
    apply slot_byte_small. rewrite (Permutation_length P) in H256. lia.
Qed.

Lemma heads_spec (st : list groupinfo) :
  Forall (fun g => group g <> []) st ->
  NoDup (map coloridx (concat (map group st))) ->
  NoDup (map head_index st) /\
  forall g, In g st ->
    exists c, In c (concat (map group st)) /\ head_index g = coloridx c.
Proof.
  induction 1 as [|g st Hg Hst IH]; simpl; intros Nd.
  - split; [constructor|intros g []].
  - rewrite map_app in Nd.
    destruct IH as [I1 I2]; [eapply NoDup_app_remove_l; eauto|].
    assert (Hh : exists c, In c (group g) /\ head_index g = coloridx c).
    { unfold head_index. destruct (group g) as [|a r]; [congruence|].
      exists a. simpl; auto. }
    split.
    + constructor; auto. intros Hin. apply in_map_iff in Hin.
      destruct Hin as (g' & E & Hg').
      destruct (I2 _ Hg') as (c' & Hc' & E').
      destruct Hh as (c & Hc & Ec).
      eapply NoDup_app_disjoint; [exact Nd| |].
      * apply in_map. exact Hc.
      * rewrite <- Ec, <- E, E'. now apply in_map.
    + intros g' [<-|Hg'].
      * destruct Hh as (c & Hc & Ec). exists c. split; auto.
        apply in_or_app. now left.
      * destruct (I2 _ Hg') as (c' & Hc' & E'). exists c'. split; auto.
        apply in_or_app. now right.
Qed.

Lemma split_groups_run (q' : SQ) (W : nat) :
  NoDup (map block (first q')) -> 1 <= W -> W < length (first q') ->
  exists st, split_groups q' W = Finished st (W - 1) /\
             groups_ok (first q') st /\ length st = W.
Proof.
  intros Hnd HW HD.
  assert (Hne : first q' <> []) by (destruct (first q'); simpl in *; [lia|discriminate]).
  destruct (@initial_groups_ok q' Hne) as (st0 & E0 & Hok0 & L0).
  destruct (@split_loop_run (first q') W W st0 0 Hnd HD Hok0)
    as (st & Hrun & Hok & Lst & _); [lia|lia|].
  exists st. split; [|split; auto].
  unfold split_groups. destruct W as [|w]; [lia|]. rewrite E0, Hrun.
  f_equal. lia.
Qed.

Lemma sq_reduce_split (q : SQ) (W d : nat) :
  registered q -> 1 <= W -> W < distinct_colors (first q) ->
  exists idxmap pal w,
    sq_reduce (S (S d)) q W = Some (idxmap, pal, w) /\
    1 <= w <= W /\
    index_map_ok q idxmap /\
    (W <= 256 -> covered q idxmap w).
Proof.
  intros Hreg HW HD.
  assert (Hne : first q <> []) by (apply distinct_nonempty; lia).
  destruct (dupenuke_registered Hreg Hne) as (q' & Hq' & Hd).
  pose proof (dedup_distinct Hreg Hd) as ED. rewrite ED in HD.
  destruct (dedup_counts Hreg Hd) as [Hc Hle].
  assert (Hnd : NoDup (map block (first q')))
    by (apply strict_key_NoDup; apply Hd).
  destruct (@split_groups_run q' W Hnd HW HD) as (st & Hrun & Hok & Lst).
  destruct (@zeromap_shape q q' Hreg Hd) as (Z1 & Z2 & Z3 & Z4).
  destruct Hok as (_ & Hgok & Hperm).
  assert (Hgne : Forall (fun g => group g <> []) st).
  { eapply Forall_impl; [|exact Hgok]. intros g Hg.
    now apply examine_group_facts in Hg. }
  destruct (heads_spec Hgne) as [Hh1 Hh2].
  { eapply Permutation_NoDup; [|exact Z2]. apply Permutation_map.
    now symmetry. }
  assert (Hh3 : forall g, In g st ->
            exists s, In s (first q') /\ head_index g = coloridx s).
  { intros g Hg. destruct (Hh2 _ Hg) as (c & Hcin & E). exists c. split; auto.
    eapply Permutation_in; eauto. }
  destruct (@build_palette_idx st 0 (repeat 0 (colors q)) (repeat x00 (W * 3)) Hgne)
    as (p & Hbuild).
  set (m := assign 0 (map head_index st) (repeat 0 (colors q))) in *.
  destruct (@assign_spec (map head_index st) 0 (repeat 0 (colors q)) Hh1)
    as (A1 & A2 & A3).
  { intros x Hx. rewrite repeat_length. apply in_map_iff in Hx.
    destruct Hx as (g & <- & Hg). destruct (Hh3 _ Hg) as (s & Hs & ->).
    now apply Z3. }
  fold m in A1, A2, A3. rewrite repeat_length in A1.
  destruct (@resolved_entries q q' m Hreg Hd A1) as (R1 & R2 & R3).
  set (final := resolve_zeros (zeromap q') m) in *.
  set (reorder := fst (sq_addcolormap sq_alloc p W 3)).
  destruct (@registered_addcolormap sq_alloc p W 3 registered_alloc)
    as (Rreg & Rcol & _).
  fold reorder in Rreg, Rcol. simpl in Rcol.
  assert (Rne : first reorder <> []).
  { intros E. pose proof (registered_length Rreg) as L. rewrite E in L.
    simpl in L. lia. }
  assert (RD : distinct_colors (first reorder) <= W).
  { pose proof (distinct_le_length (first reorder)) as L.
    rewrite (registered_length Rreg) in L. lia. }
  destruct (@sq_reduce_fits reorder W d Rreg Rne RD)
    as (rm & tp & Hin & H1 & [Hl _] & Hcov).
  exists (map (fun v => nth v rm 0) final), tp, (distinct_colors (first reorder)).
  split; [|split; [|split]].
  - change (sq_reduce (S (S d)) q W)
      with (let totalcolors := colors q in
            let pal := repeat x00 (W * 3) in
            let idxmap := repeat 0 totalcolors in
            q <- sqi_dupenuke q ;;
            if colors q - zeros q <=? W then
              let palwid := colors q - zeros q in
              l <- sqi_sort_group (first q) 0 ;;
              l <- sqi_sort_group l 2 ;;
              l <- sqi_sort_group l 1 ;;
              let '(idxmap, pal) := fits_assign 0 l (idxmap, pal) in
              Some (resolve_zeros (zeromap q) idxmap, pal, palwid)
            else
              match split_groups q W with
              | Finished st _ =>
                  ' (idxmap, pal) <- build_palette 0 st (idxmap, pal) ;;
                  let idxmap := resolve_zeros (zeromap q) idxmap in
                  let reorder := fst (sq_addcolormap sq_alloc pal W 3) in
                  ' (remapmap, temppal, palwid') <- sq_reduce (S d) reorder W ;;
                  Some (map (fun v => nth v remapmap 0) idxmap, temppal, palwid')
              | _ => None
              end).
    cbv zeta. rewrite Hq'. cbn [bind]. rewrite Hc.
    destruct (Nat.leb_spec (length (first q')) W) as [|_]; [lia|].
    rewrite Hrun, Hbuild. cbn [bind]. fold final. fold reorder.
    rewrite Hin. reflexivity.
  - lia.
  - split.
    + now rewrite length_map.
    + intros i j Hi Hj E.
      rewrite !(@nth_map_in _ _ (fun v => nth v rm 0) final _ 0 0) by lia.
      f_equal. now apply R3.
  - intros H256 slot Hslot.
    destruct (Hcov ltac:(lia) slot Hslot) as (k & Hk & Ek).
    rewrite Rcol in Hk.
    assert (Hg : In (nth k st zero_group) st) by (apply nth_In; lia).
    destruct (Hh3 _ Hg) as (s & Hs & Es).
    exists (coloridx s). split; [now apply Z3|].
    rewrite (@nth_map_in _ _ (fun v => nth v rm 0) final _ 0 0)
      by (rewrite R1; now apply Z3).
    rewrite (R2 _ Hs), <- Es.
    rewrite <- (map_nth head_index).
    rewrite (nth_indep (map head_index st) (head_index zero_group) 0)
      by (rewrite length_map; lia).
    rewrite A2 by (rewrite length_map; lia).
    rewrite slot_byte_small by lia. exact Ek.
Qed.

Lemma registered_nonempty (q : SQ) :
  registered q -> 1 <= colors q -> first q <> [].
Proof.
  intros Hreg HN E. pose proof (registered_length Hreg) as L.
  rewrite E in L. simpl in L. lia.
Qed.

(** Both paths of [sq_reduce] together. *)
Lemma sq_reduce_result (q : SQ) (W d : nat) :
  registered q -> first q <> [] -> 1 <= W ->
  exists idxmap pal w,
    sq_reduce (S (S d)) q W = Some (idxmap, pal, w) /\
    1 <= w <= Nat.min (distinct_colors (first q)) W /\
    (distinct_colors (first q) <= W -> w = distinct_colors (first q)) /\
    index_map_ok q idxmap /\
    (Nat.min (distinct_colors (first q)) W <= 256 -> covered q idxmap w).
Proof.
  intros Hreg Hne HW.
  destruct (Nat.le_gt_cases (distinct_colors (first q)) W) as [HD|HD].
  - destruct (@sq_reduce_fits q W (S d) Hreg Hne HD)
      as (idxmap & pal & E & H1 & Hok & Hcov).
    exists idxmap, pal, (distinct_colors (first q)).
    split; [exact E|]. split; [lia|]. split; [auto|]. split; [exact Hok|].
    intros H. apply Hcov. lia.
  - destruct (@sq_reduce_split q W d Hreg HW HD)
      as (idxmap & pal & w & E & Hw & Hok & Hcov).
    exists idxmap, pal, w.
    split; [exact E|]. split; [lia|]. split; [lia|]. split; [exact Hok|].
    intros H. apply Hcov. lia.
Qed.

(** C1 as the specification states it fails on the four distinct colors
    (5,3,0), (5,0,1), (5,2,1), (12,0,0) with [W = 3]: the groups
    {(5,3,0),(5,0,1)} and {(5,2,1)} both synthesize the entry (5,2,1),
    the re-sort pass collapses them, and the returned width is 2, not
    [min 4 3 = 3], although [D < W] does not hold. *)
Lemma reduce_width_counterexample :
  distinct_colors (first (register ex_C1)) = 4 /\
  exists idxmap pal,
    sq_reduce 2 (register ex_C1) 3 = Some (idxmap, pal, 2) /\
    2 <> Nat.min (distinct_colors (first (register ex_C1))) 3 /\
    2 < 3 /\ ~ distinct_colors (first (register ex_C1)) < 3.
Proof.
  split; [reflexivity|].
  do 2 eexists. split; [vm_compute; reflexivity|].
  split; [|split]; vm_compute; lia.
Qed.

(** C4.  For a non-empty registration and [W >= 1], [sq_reduce] returns
    an index map in which any two original indices whose colors agree in
    all three channels have the same entry.  Every node that
    [sqi_dupenuke] moved to the zero list refers to an original index
    [r] that was registered before it, holds the same color, is the
    first index of that color, survives in the working list, and is not
    itself on the zero list. *)
Theorem duplicates_share_slot (maps : list colormap) (W d : nat) :
  1 <= W -> 1 <= colors (register maps) ->
  exists q' idxmap pal w,
    sqi_dupenuke (register maps) = Some q' /\
    sq_reduce (S (S d)) (register maps) W = Some (idxmap, pal, w) /\
    (forall i j,
        i < colors (register maps) -> j < colors (register maps) ->
        block (nth i (first (register maps)) black)
        = block (nth j (first (register maps)) black) ->
        nth i idxmap 0 = nth j idxmap 0) /\
    (forall i r,
        In (i, r) (zeromap q') ->
        r < i < colors (register maps) /\
        block (nth r (first (register maps)) black)
        = block (nth i (first (register maps)) black) /\
        In (nth r (first (register maps)) black) (first q') /\
        ~ In r (map fst (zeromap q')) /\
        forall j, j < colors (register maps) ->
          block (nth j (first (register maps)) black)
          = block (nth i (first (register maps)) black) -> r <= j).
Proof.
  intros HW HN. pose proof (registered_register maps) as Hreg.
  pose proof (registered_nonempty Hreg HN) as Hne.
  destruct (dupenuke_registered Hreg Hne) as (q' & Hq' & Hd).
  destruct (@sq_reduce_result (register maps) W d Hreg Hne HW)
    as (idxmap & pal & w & E & _ & _ & [_ Hok] & _).
  exists q', idxmap, pal, w.
  split; [exact Hq'|]. split; [exact E|]. split; [exact Hok|].
  intros i r Hz. now apply (@backrefs (register maps) q' i r).
Qed.

Lemma duplicates_share_slot_witness :
  exists q' idxmap pal w,
    sqi_dupenuke (register ex_C4) = Some q' /\
    sq_reduce 2 (register ex_C4) 2 = Some (idxmap, pal, w) /\
    (forall i j,
        i < colors (register ex_C4) -> j < colors (register ex_C4) ->
        block (nth i (first (register ex_C4)) black)
        = block (nth j (first (register ex_C4)) black) ->
        nth i idxmap 0 = nth j idxmap 0) /\
    (forall i r,
        In (i, r) (zeromap q') ->
        r < i < colors (register ex_C4) /\
        block (nth r (first (register ex_C4)) black)
        = block (nth i (first (register ex_C4)) black) /\
        In (nth r (first (register ex_C4)) black) (first q') /\
        ~ In r (map fst (zeromap q')) /\
        forall j, j < colors (register ex_C4) ->
          block (nth j (first (register ex_C4)) black)
          = block (nth i (first (register ex_C4)) black) -> r <= j).
Proof.
  apply (@duplicates_share_slot ex_C4 2 0).
  - lia.
  - vm_compute. lia.
Defined.

(** C8, as the code has it.  For a non-empty registration and
    [W >= 1] with [min D W <= 256], every slot below the returned width
    is the index-map entry of some original index.  (The index map is an
    array of bytes; slots from 256 on cannot be stored in it.) *)
Theorem palette_slots_covered (maps : list colormap) (W d : nat) :
  1 <= W -> 1 <= colors (register maps) ->
  Nat.min (distinct_colors (first (register maps))) W <= 256 ->
  exists idxmap pal w,
    sq_reduce (S (S d)) (register maps) W = Some (idxmap, pal, w) /\
    forall slot, slot < w ->
      exists i, i < colors (register maps) /\ nth i idxmap 0 = slot.
Proof.
  intros HW HN H256.
  pose proof (registered_nonempty (registered_register maps) HN) as Hne.
  destruct (@sq_reduce_result (register maps) W d (registered_register maps) Hne HW)
    as (idxmap & pal & w & E & _ & _ & _ & Hcov).
  exists idxmap, pal, w. split; [exact E|]. now apply Hcov.
Qed.

Lemma palette_slots_covered_witness :
  exists idxmap pal w,
    sq_reduce 2 (register ex_C2) 2 = Some (idxmap, pal, w) /\
    forall slot, slot < w ->
      exists i, i < colors (register ex_C2) /\ nth i idxmap 0 = slot.
Proof.
  apply (@palette_slots_covered ex_C2 2 0).
  - lia.
  - vm_compute. lia.
  - vm_compute. lia.
Defined.

(** C8 as the specification states it fails for 257 distinct colors and
    [W = 257]: the returned width is 257, but every entry of the index
    map is a byte, so no original index is mapped to slot 256. *)
Lemma palette_slots_counterexample :
  exists idxmap pal,
    sq_reduce 2 (register ex_C8) 257 = Some (idxmap, pal, 257) /\
    256 < 257 /\
    ~ exists i, i < colors (register ex_C8) /\ nth i idxmap 0 = 256.
Proof.
  assert (E : match sq_reduce 2 (register ex_C8) 257 with
              | Some (m, _, w) => (w =? 257) && forallb (fun v => v <? 256) m
              | None => false
              end = true) by (vm_compute; reflexivity).
  destruct (sq_reduce 2 (register ex_C8) 257) as [[[m p] w]|]; [|discriminate].
  apply andb_true_iff in E. destruct E as [Ew Em].
  apply Nat.eqb_eq in Ew. subst w.
  exists m, p. split; [reflexivity|]. split; [lia|].
  intros (i & Hi & Hn).
  rewrite forallb_forall in Em.
  destruct (Nat.lt_ge_cases i (length m)) as [Hlt|Hge].
  - assert (Hin : In (nth i m 0) m) by now apply nth_In.
    apply Em in Hin. apply Nat.ltb_lt in Hin. lia.
  - rewrite nth_overflow in Hn by assumption. lia.
Qed.

(** C2 fails on the code.  For the colors (90,0,0), (100,0,0), (100,1,0)
    and [W = 2] the split loop ends with the groups {0} and {1, 2} (by
    original index).  The palette-building loop then writes the index
    map entries 0 and 1 only: original index 2, a member of group 1,
    keeps the entry 0 it had from allocation, also in the final map. *)
Theorem build_palette_assigns_heads_only :
  exists q' st idxmap pal,
    sqi_dupenuke (register ex_C2) = Some q' /\
    split_groups q' 2 = Finished st 1 /\
    map (fun g => map coloridx (group g)) st = [[0]; [1; 2]] /\
    build_palette 0 st (repeat 0 3, repeat x00 (2 * 3)) = Some (idxmap, pal) /\
    idxmap = [0; 1; 0] /\
    nth 2 idxmap 0 <> 1 /\
    option_map (fun r => fst (fst r)) (sq_reduce 2 (register ex_C2) 2)
    = Some [0; 1; 0].
Proof.
  do 4 eexists.
  split; [vm_compute; reflexivity|].
  split; [vm_compute; reflexivity|].
  split; [reflexivity|].
  split; [vm_compute; reflexivity|].
  split; [reflexivity|].
  split; [simpl; lia|].
  vm_compute. reflexivity.
Qed.

(** C9.  The split loop takes at most [W - groups] turns, hence at most
    [W]: run with that much fuel it never runs out, the number of turns
    it reports and the number of groups it ends with are within the
    bound, and every turn that does not leave the loop adds exactly one
    group.  [sq_reduce] runs it with fuel [W], and whenever it enters
    the loop (more distinct colors than [W]) the loop finishes. *)
Theorem split_loop_terminates (W fuel : nat) (st : list groupinfo) :
  W - length st <= fuel ->
  split_loop fuel W st 0 <> OutOfFuel /\
  (forall st' k, split_loop fuel W st 0 = Finished st' k ->
                 k <= W - length st /\ k <= W /\
                 length st' <= Nat.max W (length st)) /\
  (forall s s', split_iter s = Split s' -> length s' = S (length s)) /\
  (forall q, split_groups q W <> OutOfFuel) /\
  (forall maps,
      1 <= W -> W < distinct_colors (first (register maps)) ->
      exists q' st' k,
        sqi_dupenuke (register maps) = Some q' /\
        split_groups q' W = Finished st' k /\ k <= W).
Proof.
  intros Hfuel. pose proof (@split_loop_bound W fuel st 0 Hfuel) as B.
  split; [|split; [|split; [|split]]].
  - intros E. now rewrite E in B.
  - intros st' k E. rewrite E in B. lia.
  - intros s s' E. pose proof (split_iter_length s) as L. now rewrite E in L.
  - intros q. unfold split_groups. destruct W as [|w]; [discriminate|].
    destruct (initial_groups q) as [st0|]; [|discriminate].
    pose proof (@split_loop_bound (S w) (S w) st0 0) as B0.
    intros E. rewrite E in B0. apply B0. lia.
  - intros maps HW HD.
    pose proof (registered_register maps) as Hreg.
    assert (Hne : first (register maps) <> [])
      by (apply distinct_nonempty; lia).
    destruct (dupenuke_registered Hreg Hne) as (q' & Hq' & Hd).
    rewrite (dedup_distinct Hreg Hd) in HD.
    assert (Hnd : NoDup (map block (first q')))
      by (apply strict_key_NoDup; apply Hd).
    destruct (@split_groups_run q' W Hnd HW HD) as (st' & Hrun & _).
    exists q', st', (W - 1). split; [exact Hq'|]. split; [exact Hrun|lia].
Qed.

Lemma split_loop_terminates_witness :
  split_loop 3 3 ex_C9 0 <> OutOfFuel /\
  (forall st' k, split_loop 3 3 ex_C9 0 = Finished st' k ->
                 k <= 3 - length ex_C9 /\ k <= 3 /\
                 length st' <= Nat.max 3 (length ex_C9)) /\
  (forall s s', split_iter s = Split s' -> length s' = S (length s)) /\
  (forall q, split_groups q 3 <> OutOfFuel) /\
  (forall maps,
      1 <= 3 -> 3 < distinct_colors (first (register maps)) ->
      exists q' st' k,
        sqi_dupenuke (register maps) = Some q' /\
        split_groups q' 3 = Finished st' k /\ k <= 3).
Proof.
  apply (@split_loop_terminates 3 3 ex_C9). simpl. lia.
Defined.

(** * Further properties of the code *)

(** ** Registration: sq_addcolormap *)

Lemma to_uchar_byte (b : byte) : to_uchar (Z.of_nat (Byte.to_nat b)) = b.
Proof.
  unfold to_uchar. pose proof (Byte.to_nat_bounded b) as Hb.
  rewrite Z.mod_small by lia.
  replace (Z.to_N (Z.of_nat (Byte.to_nat b))) with (N.of_nat (Byte.to_nat b))
    by lia.
  now rewrite <- Byte.of_nat_via_N, Byte.of_to_nat.
Qed.

Lemma add_colors_from (colmap : list byte) (stride base n b : nat) (q : SQ) :
  colors q = base + b ->
  let q' := fold_left
              (fun q a => sqi_add_color q (peek colmap (a * stride + 0))
                            (peek colmap (a * stride + 1))
                            (peek colmap (a * stride + 2)))
              (seq b n) q in
  first q' = first q ++ map (node_of colmap stride base) (seq b n) /\
  colors q' = colors q + n /\ zeromap q' = zeromap q /\ zeros q' = zeros q.
Proof.
  revert b q. induction n as [|n IH]; intros b q Hc; simpl.
  - rewrite app_nil_r. auto.
  - destruct (IH (S b)
                (sqi_add_color q (peek colmap (b * stride + 0))
                   (peek colmap (b * stride + 1)) (peek colmap (b * stride + 2))))
      as (I1 & I2 & I3 & I4).
    { simpl. lia. }
    rewrite I1, I2, I3, I4. simpl. rewrite <- app_assoc. simpl.
    split; [|split; [lia|split; reflexivity]].
    do 2 f_equal. unfold node_of, peek. rewrite !to_uchar_byte, Hc.
    now rewrite Nat.add_0_r.
Qed.

Lemma addcolormap_spec (q : SQ) (colmap : list byte) (n stride : nat) :
  snd (sq_addcolormap q colmap n stride) = colors q /\
  colors (fst (sq_addcolormap q colmap n stride)) = colors q + n /\
  first (fst (sq_addcolormap q colmap n stride))
  = first q ++ map (node_of colmap stride (colors q)) (seq 0 n) /\
  zeromap (fst (sq_addcolormap q colmap n stride)) = zeromap q /\
  zeros (fst (sq_addcolormap q colmap n stride)) = zeros q.
Proof.
  unfold sq_addcolormap; simpl.
  destruct (@add_colors_from colmap stride (colors q) n 0 q) as (H1 & H2 & H3 & H4);
    [lia|].
  auto.
Qed.

(** X1.  [sq_addcolormap] returns the number of colors registered before
    as base index, appends one node per color behind the existing list
    in input order, numbers them consecutively from the base index,
    stores exactly the three bytes found at [a * stride + 0, 1, 2] (a
    fourth byte of a stride-4 record is never read), and leaves the zero
    list alone. *)
Theorem addcolormap_appends (q : SQ) (colmap : list byte) (n stride : nat) :
  snd (sq_addcolormap q colmap n stride) = colors q /\
  colors (fst (sq_addcolormap q colmap n stride)) = colors q + n /\
  first (fst (sq_addcolormap q colmap n stride))
  = first q ++ map (node_of colmap stride (colors q)) (seq 0 n) /\
  zeromap (fst (sq_addcolormap q colmap n stride)) = zeromap q /\
  zeros (fst (sq_addcolormap q colmap n stride)) = zeros q.
Proof.
  exact (addcolormap_spec q colmap n stride).
Qed.

Lemma register_snoc (maps : list colormap) (m : colormap) :
  register (maps ++ [m])
  = fst (sq_addcolormap (register maps) (fst (fst m)) (snd (fst m)) (snd m)).
Proof.
  unfold register. now rewrite fold_left_app.
Qed.

Lemma register_colors (maps : list colormap) :
  colors (register maps) = list_sum (map (fun m => snd (fst m)) maps).
Proof.
  induction maps as [|m maps IH] using rev_ind; [reflexivity|].
  rewrite register_snoc.
  destruct (addcolormap_spec (register maps) (fst (fst m)) (snd (fst m)) (snd m))
    as (_ & Hc & _).
  rewrite Hc, IH, map_app, list_sum_app. simpl.
  now rewrite Nat.add_0_r.
Qed.

(** X2.  Registering maps one after the other: the base index returned
    for a map is the sum of the color counts of the maps registered
    before it, and registering one more map changes none of the colors
    and indices registered so far. *)
Theorem register_offsets (maps : list colormap) (colmap : list byte)
  (n stride : nat) :
  snd (sq_addcolormap (register maps) colmap n stride)
  = list_sum (map (fun m => snd (fst m)) maps) /\
  colors (register (maps ++ [(colmap, n, stride)]))
  = list_sum (map (fun m => snd (fst m)) maps) + n /\
  forall i, i < colors (register maps) ->
    nth i (first (register (maps ++ [(colmap, n, stride)]))) black
    = nth i (first (register maps)) black.
Proof.
  rewrite register_snoc. cbn [fst snd].
  destruct (addcolormap_spec (register maps) colmap n stride)
    as (H1 & H2 & H3 & _).
  rewrite H1, H2, H3, register_colors.
  split; [reflexivity|]. split; [reflexivity|].
  intros i Hi. apply app_nth1.
  rewrite (registered_length (registered_register maps)).
  now rewrite register_colors.
Qed.

(** ** Group analysis, cutting and sorting *)

Lemma chansum_upper (k : Z) (g : list color) :
  (chansum k g <= 255 * Z.of_nat (length g))%Z.
Proof.
  induction g as [|c g IH]; simpl length; simpl chansum; [lia|].
  pose proof (val_range k c). lia.
Qed.

Lemma block_val (a b : color) (k : Z) : block a = block b -> val a k = val b k.
Proof.
  unfold block. intros [= Hr Hg Hb]. unfold val. do 2 f_equal.
  destruct k as [|[p|[p|p|]|]|]; cbn [component]; auto.
Qed.

Lemma examine_group_range (g : list color) (c sz sm : Z) :
  sqi_examine_group g = Some (c, sz, sm) ->
  (0 <= sz <= 255)%Z /\
  (0 <= sm <= 255 * Z.of_nat (length g))%Z /\
  (sz = 0%Z <-> forall a b, In a g -> In b g -> block a = block b).
Proof.
  intros H. apply examine_group_facts in H.
  destruct H as (Hne & Hc & Hsm & (lo & hi & Hlo & Hhi & Hsz) & Hall).
  split; [|split].
  - pose proof (Hall c lo lo Hc Hlo Hlo).
    pose proof (val_range c hi). pose proof (val_range c lo). lia.
  - subst sm. split; [apply chansum_nonneg|apply chansum_upper].
  - split.
    + intros Hz a b Ha Hb.
      destruct (block_dec (block a) (block b)) as [E|N]; [exact E|].
      destruct (blocks_differ N) as (k & Hk & Hv).
      pose proof (Hall k a b Hk Ha Hb). pose proof (Hall k b a Hk Hb Ha). lia.
    + intros Heq. rewrite Hsz, (block_val c (Heq hi lo Hhi Hlo)). lia.
Qed.

(** X3.  On a non-empty group [sqi_examine_group] returns a spread
    between 0 and 255 and a sum between 0 and 255 times the group size;
    the spread is 0 exactly when all members have the same color, so a
    group of one color can never be selected ahead of a group that has
    two different colors. *)
Theorem examine_group_bounds (g : list color) (c sz sm : Z) :
  sqi_examine_group g = Some (c, sz, sm) ->
  (0 <= sz <= 255)%Z /\
  (0 <= sm <= 255 * Z.of_nat (length g))%Z /\
  (sz = 0%Z <-> forall a b, In a g -> In b g -> block a = block b).
Proof.
  exact (@examine_group_range g c sz sm).
Qed.

Lemma examine_group_bounds_witness :
  (0 <= 4 <= 255)%Z /\
  (0 <= 6 <= 255 * Z.of_nat (length ex_C7))%Z /\
  (4%Z = 0%Z <-> forall a b, In a ex_C7 -> In b ex_C7 -> block a = block b).
Proof.
  apply (@examine_group_bounds ex_C7 0%Z 4%Z 6%Z). reflexivity.
Defined.

Lemma firstn_snoc {A : Type} (n : nat) (l : list A) (c : A) (rest : list A) :
  skipn n l = c :: rest -> firstn (S n) l = firstn n l ++ [c].
Proof.
  revert l. induction n as [|n IH]; intros l H.
  - simpl in H. subst l. reflexivity.
  - destruct l as [|x l]; [discriminate|]. simpl in H.
    change (firstn (S (S n)) (x :: l)) with (x :: firstn (S n) l).
    rewrite (IH l H). reflexivity.
Qed.

Lemma StronglySorted_app_inv {A : Type} (R : A -> A -> Prop) (l1 l2 : list A) :
  StronglySorted R (l1 ++ l2) ->
  StronglySorted R l1 /\ StronglySorted R l2 /\
  forall a b, In a l1 -> In b l2 -> R a b.
Proof.
  induction l1 as [|x l1 IH]; simpl; intros H.
  - split; [constructor|]. split; [exact H|]. intros a b [].
  - inversion H as [|? ? Hs Hx]; subst.
    destruct (IH Hs) as (I1 & I2 & I3).
    rewrite Forall_app in Hx. destruct Hx as [Hx1 Hx2].
    split; [now constructor|]. split; [exact I2|].
    intros a b [<-|Ha] Hb.
    + rewrite Forall_forall in Hx2. now apply Hx2.
    + now apply I3.
Qed.

(** What [sqi_cut_group] returns on a non-negative [max]: the walk
    stopped inside the list after [j >= 1] nodes. *)
Lemma cut_group_result (g : list color) (k max : Z) (keep new : list color) :
  (0 <= max)%Z ->
  sqi_cut_group g k max = Some (keep, new) ->
  exists j, 1 <= j <= length g /\
    (chansum k (firstn (j - 1) g) <= Z.quot max 2 < chansum k (firstn j g))%Z /\
    keep = firstn (Nat.max 1 (j - 1)) g /\ new = skipn (Nat.max 1 (j - 1)) g.
Proof.
  intros Hmax H.
  assert (Hq : (0 <= Z.quot max 2)%Z).
  { rewrite Z.quot_div_nonneg by lia. apply Z.div_pos; lia. }
  unfold sqi_cut_group in H.
  destruct (Z_le_gt_dec (0 + chansum k g) (Z.quot max 2)) as [Hle|Hgt].
  - rewrite (@cut_walk_off (Z.quot max 2) k g 0%Z 0 Hle) in H. discriminate.
  - destruct (@cut_walk_cross (Z.quot max 2) k g 0%Z 0) as (j & Hj & Hw & Hb);
      [lia|lia|].
    rewrite Hw in H. simpl in H. exists j. split; [exact Hj|]. split; [lia|].
    destruct j as [|[|j]]; [lia| |]; simpl in H; injection H as <- <-;
      split; reflexivity.
Qed.

Lemma cut_group_parts (g : list color) (k max : Z) (keep new : list color) :
  (0 <= max)%Z ->
  sqi_cut_group g k max = Some (keep, new) ->
  keep ++ new = g /\ keep <> [] /\
  (length keep = 1 \/ (chansum k keep <= Z.quot max 2)%Z) /\
  (forall c rest, new = c :: rest ->
                  (Z.quot max 2 < chansum k keep + val c k)%Z) /\
  (ascending k g ->
   forall a b, In a keep -> In b new -> (val a k <= val b k)%Z).
Proof.
  intros Hmax H.
  destruct (cut_group_result _ _ Hmax H) as (j & Hj & Hb & -> & ->).
  remember (Nat.max 1 (j - 1)) as n eqn:Hn.
  split; [apply firstn_skipn|]. split.
  { intros E. apply (f_equal (@length color)) in E.
    rewrite length_firstn in E. simpl in E. lia. }
  split; [|split].
  - destruct (Nat.eq_dec j 1) as [Hj1|Hne].
    + left. rewrite length_firstn. lia.
    + right. replace n with (j - 1) by lia. lia.
  - intros c rest Hnew.
    destruct (Nat.eq_dec j 1) as [Hj1|Hne].
    + pose proof (val_range k c). subst j. replace n with 1 by lia. lia.
    + assert (E : firstn j g = firstn n g ++ [c]).
      { replace j with (S n) by lia. now apply firstn_snoc with rest. }
      rewrite E, chansum_app in Hb. simpl in Hb. lia.
  - intros Hs a b Ha Hb'. unfold ascending in Hs.
    rewrite <- (firstn_skipn n g) in Hs.
    apply StronglySorted_app_inv in Hs. destruct Hs as (_ & _ & Hs).
    now apply Hs.
Qed.

(** X4.  For a non-negative [max], whatever [sqi_cut_group] returns
    splits the group without losing or reordering a node: the kept part
    followed by the new part is the group.  The kept part is never
    empty, and it is a single color or its channel sum does not exceed
    [max / 2]; adding the first color of the new part exceeds [max / 2].
    On a group ascending in the channel no color of the kept part lies
    above a color of the new part. *)
Theorem cut_group_partition (g : list color) (k max : Z) (keep new : list color) :
  (0 <= max)%Z ->
  sqi_cut_group g k max = Some (keep, new) ->
  keep ++ new = g /\ keep <> [] /\
  (length keep = 1 \/ (chansum k keep <= Z.quot max 2)%Z) /\
  (forall c rest, new = c :: rest ->
                  (Z.quot max 2 < chansum k keep + val c k)%Z) /\
  (ascending k g ->
   forall a b, In a keep -> In b new -> (val a k <= val b k)%Z).
Proof.
  exact (@cut_group_parts g k max keep new).
Qed.

Lemma cut_group_partition_witness :
  firstn 2 ex_C3 ++ skipn 2 ex_C3 = ex_C3 /\ firstn 2 ex_C3 <> [] /\
  (length (firstn 2 ex_C3) = 1 \/ (chansum 0 (firstn 2 ex_C3) <= Z.quot 12 2)%Z) /\
  (forall c rest, skipn 2 ex_C3 = c :: rest ->
                  (Z.quot 12 2 < chansum 0 (firstn 2 ex_C3) + val c 0)%Z) /\
  (ascending 0 ex_C3 ->
   forall a b, In a (firstn 2 ex_C3) -> In b (skipn 2 ex_C3) ->
               (val a 0 <= val b 0)%Z).
Proof.
  apply (@cut_group_partition ex_C3 0%Z 12%Z).
  - lia.
  - reflexivity.
Defined.

(** A list ascending in [f] is its own bucket concatenation. *)
Lemma buckets_upto_sorted_id {A : Type} (f : A -> nat) (n : nat) (l : list A) :
  StronglySorted (fun a b => f a <= f b) l ->
  buckets_upto f n l = filter (fun x => f x <? n) l.
Proof.
  intros Hs. induction n as [|n IH].
  - unfold buckets_upto. simpl. symmetry. now apply filter_none.
  - rewrite buckets_upto_S, IH. clear IH.
    induction Hs as [|x l Hs IHl Hx]; [reflexivity|]. simpl.
    rewrite Forall_forall in Hx.
    destruct (Nat.ltb_spec (f x) n) as [H1|H1];
      destruct (Nat.eqb_spec (f x) n) as [H2|H2];
      destruct (Nat.ltb_spec (f x) (S n)) as [H3|H3]; try lia.
    + simpl. now rewrite IHl.
    + rewrite (filter_none (fun y => f y <? n)).
      * simpl. f_equal. apply filter_ext_in. intros y Hy.
        specialize (Hx y Hy).
        destruct (Nat.eqb_spec (f y) n), (Nat.ltb_spec (f y) (S n)); auto; lia.
      * intros y Hy. specialize (Hx y Hy). apply Nat.ltb_ge. lia.
    + rewrite !filter_none; auto; intros y Hy; specialize (Hx y Hy).
      * apply Nat.ltb_ge. lia.
      * apply Nat.eqb_neq. lia.
      * apply Nat.ltb_ge. lia.
Qed.

Lemma filter_all {A : Type} (p : A -> bool) (l : list A) :
  (forall x, In x l -> p x = true) -> filter p l = l.
Proof.
  induction l as [|x l IH]; simpl; intros H; auto.
  rewrite (H x) by auto. f_equal. apply IH. auto.
Qed.

Lemma ascending_key (k : Z) (g : list color) :
  ascending k g <-> StronglySorted (fun a b => key k a <= key k b) g.
Proof.
  unfold ascending. split; apply StronglySorted_weaken; intros a b;
    rewrite !val_key; lia.
Qed.

Lemma sort_group_ascending (g out : list color) (k : Z) :
  sqi_sort_group g k = Some out -> ascending k out.
Proof.
  intros H. apply ascending_key.
  apply StronglySorted_weaken with (P := lex_after (key k) (fun _ _ => True)).
  - intros a b [Hlt|[Heq _]]; lia.
  - eapply sort_group_lex; eauto. apply StronglySorted_any.
Qed.

Lemma sort_group_fixed (g : list color) (k : Z) :
  g <> [] -> ascending k g -> sqi_sort_group g k = Some g.
Proof.
  intros Hne Hs. rewrite (sort_group_buckets k Hne). f_equal.
  rewrite buckets_upto_sorted_id by now apply ascending_key.
  apply filter_all. intros c _. apply Nat.ltb_lt. apply key_bounded.
Qed.

(** X5.  [sqi_sort_group] leaves a non-empty group that is already
    ascending in the channel exactly as it is, and sorting its own
    result again changes nothing.  This is what allows the split loop to
    skip the sort when [groupsorted[i] == groupcomponent[i]]. *)
Theorem sort_group_idempotent (g : list color) (k : Z) :
  g <> [] ->
  (ascending k g -> sqi_sort_group g k = Some g) /\
  exists out, sqi_sort_group g k = Some out /\ sqi_sort_group out k = Some out.
Proof.
  intros Hne. split; [now apply sort_group_fixed|].
  pose proof (sort_group_buckets k Hne) as H.
  eexists. split; [exact H|].
  apply sort_group_fixed.
  - now apply (sort_group_nonempty _ _ H).
  - now apply (sort_group_ascending _ _ H).
Qed.

Lemma sort_group_idempotent_witness :
  (ascending 0 ex_C6 -> sqi_sort_group ex_C6 0 = Some ex_C6) /\
  exists out, sqi_sort_group ex_C6 0 = Some out /\ sqi_sort_group out 0 = Some out.
Proof.
  apply (@sort_group_idempotent ex_C6 0%Z). discriminate.
Defined.

(** ** The split loop: what its turns preserve *)

Lemma cut_group_app (g : list color) (k max : Z) (keep new : list color) :
  sqi_cut_group g k max = Some (keep, new) -> keep ++ new = g.
Proof.
  unfold sqi_cut_group. destruct (cut_walk _ _ _ _ _) as [[|[|n]]|];
    intros [= <- <-];
    [apply app_nil_r|apply (firstn_skipn 1)|apply (firstn_skipn (S n))].
Qed.

Lemma ascending_app (k : Z) (l1 l2 : list color) :
  ascending k (l1 ++ l2) ->
  ascending k l1 /\ ascending k l2 /\
  forall a b, In a l1 -> In b l2 -> (val a k <= val b k)%Z.
Proof. apply StronglySorted_app_inv. Qed.

Lemma sorted_ok_nth (st : list groupinfo) (i : nat) :
  Forall sorted_ok st -> sorted_ok (nth i st zero_group).
Proof.
  intros H. destruct (Nat.lt_ge_cases i (length st)) as [Hlt|Hge].
  - rewrite Forall_forall in H. apply H. now apply nth_In.
  - rewrite nth_overflow by assumption. right. constructor.
Qed.

Lemma list_eq_dec_nil {A : Type} (l : list A) : {l = []} + {l <> []}.
Proof. destruct l; [left; reflexivity|right; discriminate]. Qed.

(** One turn keeps the markers truthful and separates the two parts. *)
Lemma split_iter_inv (st : list groupinfo) :
  Forall sorted_ok st ->
  match split_iter st with
  | Split st' =>
      Forall sorted_ok st' /\
      ((0 <= groupcomponent (selected st) <= 2)%Z ->
       forall a b,
         In a (group (nth (largest_group st) st' zero_group)) ->
         In b (group (last st' zero_group)) ->
         (val a (groupcomponent (selected st))
          <= val b (groupcomponent (selected st)))%Z)
  | CantCut st' => Forall sorted_ok st'
  | Undefined => True
  end.
Proof.
  intros Hs. destruct (list_eq_dec_nil st) as [->|Hne]; [exact I|].
  destruct (largest_group_spec Hne) as [Hi _].
  pose proof (sorted_ok_nth (largest_group st) Hs) as Hgi.
  unfold split_iter. fold (selected st) in *.
  set (gi := selected st) in *.
  assert (Hsort : forall gl srt,
             (if (groupsorted gi =? groupcomponent gi)%Z
              then Some (group gi, groupsorted gi)
              else l <- sqi_sort_group (group gi) (groupcomponent gi) ;;
                   Some (l, groupcomponent gi)) = Some (gl, srt) ->
             (srt = (-1)%Z \/ ascending srt gl) /\
             ((0 <= groupcomponent gi <= 2)%Z ->
              ascending (groupcomponent gi) gl)).
  { intros gl srt. destruct (Z.eqb_spec (groupsorted gi) (groupcomponent gi)) as [E|E].
    - intros [= <- <-]. split; [exact Hgi|].
      intros Hc. destruct Hgi as [Hm|Ha]; [lia|]. now rewrite <- E.
    - destruct (sqi_sort_group (group gi) (groupcomponent gi)) as [l|] eqn:El;
        [|discriminate].
      simpl. intros [= <- <-].
      pose proof (sort_group_ascending _ _ El). auto. }
  destruct (if (groupsorted gi =? groupcomponent gi)%Z then _ else _)
    as [[gl srt]|]; [|exact I].
  destruct (Hsort gl srt eq_refl) as [Hsrt Hasc]. clear Hsort.
  destruct (sqi_cut_group gl (groupcomponent gi) (groupcomponentsum gi))
    as [[keep new]|] eqn:Ecut; [|exact I].
  pose proof (cut_group_app _ _ _ Ecut) as Eapp.
  assert (Hparts : (srt = (-1)%Z \/ ascending srt keep) /\
                   (srt = (-1)%Z \/ ascending srt new)).
  { destruct Hsrt as [Hm|Ha]; [auto|]. rewrite <- Eapp in Ha.
    apply ascending_app in Ha. destruct Ha as (A1 & A2 & _). auto. }
  destruct Hparts as [Hk Hn].
  destruct new as [|n0 new].
  - apply Forall_store; auto.
  - destruct (sqi_examine_group keep) as [[[c1 s1] m1]|]; [|exact I].
    destruct (sqi_examine_group (n0 :: new)) as [[[c2 s2] m2]|]; [|exact I].
    split.
    + apply Forall_app. split.
      * apply Forall_store; auto.
      * constructor; [exact Hn|constructor].
    + intros Hc a b Ha Hb.
      rewrite last_last in Hb. simpl in Hb.
      specialize (Hasc Hc). rewrite <- Eapp in Hasc.
      apply ascending_app in Hasc. destruct Hasc as (_ & _ & Hsep).
      apply Hsep; auto.
      rewrite app_nth1 in Ha by now rewrite length_store.
      rewrite nth_store_eq in Ha by assumption. exact Ha.
Qed.

(** X6.  One successful turn of the split loop keeps every
    [groupsorted] marker truthful (each group is ascending in the
    channel its marker names, or the marker is [-1]), so a skipped sort
    is always justified; and the two parts it leaves are separated
    along the split channel: no color left in the selected group lies
    above a color of the new group. *)
Theorem split_iter_sorted_separated (st st' : list groupinfo) :
  Forall sorted_ok st ->
  (0 <= groupcomponent (selected st) <= 2)%Z ->
  split_iter st = Split st' ->
  Forall sorted_ok st' /\
  forall a b,
    In a (group (nth (largest_group st) st' zero_group)) ->
    In b (group (last st' zero_group)) ->
    (val a (groupcomponent (selected st))
     <= val b (groupcomponent (selected st)))%Z.
Proof.
  intros Hs Hc E. pose proof (split_iter_inv Hs) as H. rewrite E in H.
  destruct H as [H1 H2]. split; auto.
Qed.

Lemma split_iter_sorted_separated_witness :
  Forall sorted_ok ex_C9_next /\
  forall a b,
    In a (group (nth (largest_group ex_C9) ex_C9_next zero_group)) ->
    In b (group (last ex_C9_next zero_group)) ->
    (val a (groupcomponent (selected ex_C9))
     <= val b (groupcomponent (selected ex_C9)))%Z.
Proof.
  apply (@split_iter_sorted_separated ex_C9 ex_C9_next).
  - repeat constructor.
  - vm_compute. split; discriminate.
  - reflexivity.
Defined.

Lemma split_loop_sorted (fuel W : nat) (st : list groupinfo) (it : nat) :
  Forall sorted_ok st ->
  match split_loop fuel W st it with
  | Finished st' _ => Forall sorted_ok st'
  | _ => True
  end.
Proof.
  revert st it. induction fuel as [|fuel IH]; intros st it Hs; simpl.
  - destruct (length st <? W); auto.
  - destruct (length st <? W); auto.
    pose proof (split_iter_inv Hs) as H.
    destruct (split_iter st) as [st'|st'|]; auto.
    apply IH. apply H.
Qed.

Lemma split_groups_sorted (q : SQ) (W : nat) (st : list groupinfo) (k : nat) :
  split_groups q W = Finished st k -> Forall sorted_ok st.
Proof.
  unfold split_groups, initial_groups. destruct W as [|w]; [discriminate|].
  destruct (sqi_examine_group (first q)) as [[[c sz] sm]|]; [|discriminate].
  cbn [bind]. intros E.
  pose proof (@split_loop_sorted (S w) (S w)
                [mkgroup (first q) c sz sm (-1)] 0) as H.
  rewrite E in H. apply H. repeat constructor.
Qed.

(** X7.  When more distinct colors are registered than the requested
    width [W], the groups the palette is built from partition the
    deduplicated working list: there are exactly [W] of them, none is
    empty, every surviving color lies in exactly one of them, the
    recorded channel, spread and sum of each group are those of its
    members, and each group is ascending in the channel its
    [groupsorted] marker names. *)
Theorem split_groups_partition (maps : list colormap) (W : nat) :
  1 <= W -> W < distinct_colors (first (register maps)) ->
  exists q' st,
    sqi_dupenuke (register maps) = Some q' /\
    split_groups q' W = Finished st (W - 1) /\
    length st = W /\
    Forall (fun g => group g <> []) st /\
    Permutation (concat (map group st)) (first q') /\
    NoDup (map coloridx (concat (map group st))) /\
    Forall group_ok st /\
    Forall sorted_ok st.
Proof.
  intros HW HD.
  pose proof (registered_register maps) as Hreg.
  assert (Hne : first (register maps) <> []) by (apply distinct_nonempty; lia).
  destruct (dupenuke_registered Hreg Hne) as (q' & Hq' & Hd).
  rewrite (dedup_distinct Hreg Hd) in HD.
  assert (Hnd : NoDup (map block (first q')))
    by (apply strict_key_NoDup; apply Hd).
  destruct (@split_groups_run q' W Hnd HW HD) as (st & Hrun & Hok & Lst).
  destruct (@zeromap_shape (register maps) q' Hreg Hd) as (_ & Z2 & _).
  destruct Hok as (_ & Hgok & Hperm).
  exists q', st. split; [exact Hq'|]. split; [exact Hrun|]. split; [exact Lst|].
  split; [|split; [exact Hperm|split; [|split; [exact Hgok|]]]].
  - eapply Forall_impl; [|exact Hgok]. intros g Hg.
    now apply examine_group_facts in Hg.
  - eapply Permutation_NoDup; [|exact Z2]. apply Permutation_map.
    now symmetry.
  - eapply split_groups_sorted; eauto.
Qed.

Lemma split_groups_partition_witness :
  exists q' st,
    sqi_dupenuke (register ex_C1) = Some q' /\
    split_groups q' 3 = Finished st (3 - 1) /\
    length st = 3 /\
    Forall (fun g => group g <> []) st /\
    Permutation (concat (map group st)) (first q') /\
    NoDup (map coloridx (concat (map group st))) /\
    Forall group_ok st /\
    Forall sorted_ok st.
Proof.
  apply (@split_groups_partition ex_C1 3).
  - lia.
  - vm_compute. lia.
Defined.

(** ** sqi_dupenuke: the working list afterwards *)

(** X8.  After [sqi_dupenuke] on a non-empty registration the working
    list holds nodes of the registered list only, no two of them with
    the same color, one for every registered color value, in ascending
    order of blue, then green, then red; [colors] is unchanged, [zeros]
    counts the nodes on the zero list, and [colors - zeros] is the
    number of distinct registered colors. *)
Theorem dupenuke_distinct (maps : list colormap) :
  1 <= colors (register maps) ->
  exists q',
    sqi_dupenuke (register maps) = Some q' /\
    incl (first q') (first (register maps)) /\
    NoDup (map block (first q')) /\
    (forall c, In c (first (register maps)) ->
               exists s, In s (first q') /\ block s = block c) /\
    StronglySorted (fun a b => (rgbkey a < rgbkey b)%Z) (first q') /\
    colors q' = colors (register maps) /\
    zeros q' = length (zeromap q') /\
    length (first q') = distinct_colors (first (register maps)) /\
    colors q' - zeros q' = distinct_colors (first (register maps)).
Proof.
  intros HN. pose proof (registered_register maps) as Hreg.
  pose proof (registered_nonempty Hreg HN) as Hne.
  destruct (dupenuke_registered Hreg Hne) as (q' & Hq' & Hd).
  pose proof (dedup_distinct Hreg Hd) as ED.
  destruct (dedup_counts Hreg Hd) as [Hc _].
  exists q'. split; [exact Hq'|].
  split; [apply Hd|]. split; [apply strict_key_NoDup; apply Hd|].
  split.
  { intros c Hcin.
    destruct (@representative (register maps) q' c Hreg Hd Hcin)
      as (s & Hs & E & _).
    eauto. }
  split; [apply Hd|]. split; [apply Hd|]. split; [apply Hd|].
  split; [now symmetry|]. now rewrite Hc.
Qed.

Lemma dupenuke_distinct_witness :
  exists q',
    sqi_dupenuke (register ex_C4) = Some q' /\
    incl (first q') (first (register ex_C4)) /\
    NoDup (map block (first q')) /\
    (forall c, In c (first (register ex_C4)) ->
               exists s, In s (first q') /\ block s = block c) /\
    StronglySorted (fun a b => (rgbkey a < rgbkey b)%Z) (first q') /\
    colors q' = colors (register ex_C4) /\
    zeros q' = length (zeromap q') /\
    length (first q') = distinct_colors (first (register ex_C4)) /\
    colors q' - zeros q' = distinct_colors (first (register ex_C4)).
Proof.
  apply (@dupenuke_distinct ex_C4). vm_compute. lia.
Defined.

(** ** sq_reduce: inputs it is not defined on *)

(** X9.  With no color registered [sq_reduce] is undefined for every
    width (the first sort of [sqi_dupenuke] searches the bucket array
    for a full bucket that does not exist), and with a requested width
    of 0 it is undefined for every registration (with colors present
    [group[0]] is written into an array of no entries). *)
Theorem reduce_undefined (d W : nat) (q : SQ) (maps : list colormap) :
  (first q = [] -> sq_reduce d q W = None) /\
  sq_reduce d (register maps) 0 = None.
Proof.
  assert (H0 : forall q0 W0, first q0 = [] -> sq_reduce d q0 W0 = None).
  { intros q0 W0 E. destruct d as [|d]; [reflexivity|].
    simpl. unfold sqi_dupenuke, dupenuke_sort. rewrite E. reflexivity. }
  split; [apply H0|].
  destruct (list_eq_dec_nil (first (register maps))) as [E|Hne];
    [now apply H0|].
  destruct d as [|d]; [reflexivity|].
  pose proof (registered_register maps) as Hreg.
  destruct (dupenuke_registered Hreg Hne) as (q' & Hq' & Hd).
  destruct (dedup_counts Hreg Hd) as [Hc _].
  simpl. rewrite Hq'. cbn [bind]. rewrite Hc.
  assert (first q' <> []) as Hne' by apply Hd.
  destruct (first q') eqn:Ef; [congruence|]. reflexivity.
Qed.

(** ** The palette array *)

Lemma length_set_pal (i : nat) (r g b : byte) (p : list byte) :
  length (set_pal i r g b p) = length p.
Proof. unfold set_pal. now rewrite !length_store. Qed.

Lemma pal_entry_set_same (i : nat) (r g b : byte) (p : list byte) :
  i * 3 + 2 < length p -> pal_entry (set_pal i r g b p) i = (r, g, b).
Proof.
  intros H. unfold pal_entry, set_pal.
  repeat rewrite nth_store. rewrite !length_store.
  repeat match goal with
         | |- context [?a =? ?b] => destruct (Nat.eqb_spec a b); try lia
         | |- context [?a <? ?b] => destruct (Nat.ltb_spec a b); try lia
         end; reflexivity.
Qed.

Lemma pal_entry_set_other (i x : nat) (r g b : byte) (p : list byte) :
  x <> i -> pal_entry (set_pal i r g b p) x = pal_entry p x.
Proof.
  intros H. unfold pal_entry, set_pal.
  rewrite !nth_store_neq by lia. reflexivity.
Qed.

Lemma pal_entry_zero (n i : nat) : pal_entry (repeat x00 n) i = (x00, x00, x00).
Proof. unfold pal_entry. now rewrite !nth_repeat. Qed.

Lemma fits_assign_pal (l : list color) (i : nat) (m : list nat) (p : list byte) :
  (i + length l) * 3 <= length p ->
  length (snd (fits_assign i l (m, p))) = length p /\
  (forall j, j < length l ->
     pal_entry (snd (fits_assign i l (m, p))) (i + j) = block (nth j l black)) /\
  (forall x, x < i \/ i + length l <= x ->
     pal_entry (snd (fits_assign i l (m, p))) x = pal_entry p x).
Proof.
  revert i m p. induction l as [|c l IH]; intros i m p Hlen; simpl in *.
  - split; [reflexivity|]. split; [intros; lia|reflexivity].
  - destruct (IH (S i) (store (coloridx c) (slot_byte i) m)
                (set_pal i (red c) (green c) (blue c) p)) as (I1 & I2 & I3).
    { rewrite length_set_pal. lia. }
    rewrite length_set_pal in I1. split; [exact I1|]. split.
    + intros [|j] Hj.
      * rewrite Nat.add_0_r, I3 by lia.
        apply pal_entry_set_same. lia.
      * replace (i + S j) with (S i + j) by lia. apply I2. lia.
    + intros x Hx. rewrite I3 by lia. apply pal_entry_set_other. lia.
Qed.

(** ** The Fits path in full *)

Lemma gbrkey_block (a b : color) : gbrkey a = gbrkey b <-> block a = block b.
Proof.
  split.
  - intros H. apply rgbkey_block. unfold gbrkey, rgbkey in *.
    pose proof (val_range 0 a). pose proof (val_range 1 a).
    pose proof (val_range 2 a). pose proof (val_range 0 b).
    pose proof (val_range 1 b). pose proof (val_range 2 b). lia.
  - intros H. unfold gbrkey.
    now rewrite (block_val 0 H), (block_val 1 H), (block_val 2 H).
Qed.

Lemma strict_from_NoDup (l : list color) :
  StronglySorted (fun a b => (gbrkey a <= gbrkey b)%Z) l ->
  NoDup (map block l) ->
  StronglySorted (fun a b => (gbrkey a < gbrkey b)%Z) l.
Proof.
  induction 1 as [|x l Hs IH Hx]; intros Nd; constructor.
  - apply IH. now inversion Nd.
  - inversion Nd as [|? ? Hnin _]; subst.
    rewrite Forall_forall in *. intros y Hy.
    assert (gbrkey x <> gbrkey y).
    { intros E. apply gbrkey_block in E. apply Hnin. rewrite E.
      now apply in_map. }
    specialize (Hx y Hy). lia.
Qed.

(** The three passes of the Fits path leave distinct colors strictly
    ascending in green, then blue, then red. *)
Lemma fits_sort_order (l : list color) :
  l <> [] -> NoDup (map block l) ->
  exists l2, (l0 <- sqi_sort_group l 0 ;;
              l1 <- sqi_sort_group l0 2 ;;
              sqi_sort_group l1 1) = Some l2 /\
             Permutation l l2 /\
             StronglySorted (fun a b => (gbrkey a < gbrkey b)%Z) l2.
Proof.
  intros Hne Nd.
  pose proof (sort_group_buckets 0 Hne) as H0.
  destruct (sort_group_nonempty _ _ H0) as [_ N0].
  pose proof (sort_group_buckets 2 N0) as H1.
  destruct (sort_group_nonempty _ _ H1) as [_ N1].
  pose proof (sort_group_buckets 1 N1) as H2.
  rewrite H0; simpl. rewrite H1; simpl. rewrite H2.
  eexists. split; [reflexivity|].
  assert (P : Permutation l (buckets_upto (key 1) 256
               (buckets_upto (key 2) 256 (buckets_upto (key 0) 256 l)))).
  { eapply Permutation_trans; [apply (sort_group_perm _ _ H0)|].
    eapply Permutation_trans; [apply (sort_group_perm _ _ H1)|].
    apply (sort_group_perm _ _ H2). }
  split; [exact P|].
  apply strict_from_NoDup.
  - apply StronglySorted_weaken
      with (P := lex_after (key 1) (lex_after (key 2)
                   (lex_after (key 0) (fun _ _ => True)))).
    + intros a b H. unfold lex_after in H. unfold gbrkey. rewrite !val_key.
      pose proof (key_bounded 0 a). pose proof (key_bounded 2 a).
      pose proof (key_bounded 0 b). pose proof (key_bounded 2 b). lia.
    + eapply sort_group_lex; [exact H2|].
      eapply sort_group_lex; [exact H1|].
      eapply sort_group_lex; [exact H0|]. apply StronglySorted_any.
  - eapply Permutation_NoDup; [|exact Nd]. now apply Permutation_map.
Qed.

Lemma slot_byte_le (i : nat) : slot_byte i <= i.
Proof. unfold slot_byte. apply Nat.Div0.mod_le. Qed.

(** Everything the Fits path returns, in terms of the sorted list [l2]
    of distinct colors. *)
Lemma fits_result (q : SQ) (W d : nat) :
  registered q -> first q <> [] -> distinct_colors (first q) <= W ->
  exists idxmap pal l2,
    sq_reduce (S d) q W = Some (idxmap, pal, distinct_colors (first q)) /\
    length idxmap = colors q /\ length pal = W * 3 /\
    length l2 = distinct_colors (first q) /\
    incl l2 (first q) /\
    StronglySorted (fun a b => (gbrkey a < gbrkey b)%Z) l2 /\
    (forall j, j < length l2 -> pal_entry pal j = block (nth j l2 black)) /\
    (forall j, length l2 <= j -> pal_entry pal j = (x00, x00, x00)) /\
    (forall i, i < colors q ->
       exists j, j < length l2 /\
                 block (nth j l2 black) = block (nth i (first q) black) /\
                 nth i idxmap 0 = slot_byte j).
Proof.
  intros Hreg Hne HD.
  destruct (dupenuke_registered Hreg Hne) as (q' & Hq' & Hd).
  pose proof (dedup_distinct Hreg Hd) as ED.
  destruct (dedup_counts Hreg Hd) as [Hc Hle].
  assert (Hne' : first q' <> []) by apply Hd.
  assert (Hnd : NoDup (map block (first q')))
    by (apply strict_key_NoDup; apply Hd).
  destruct (@fits_sort_order (first q') Hne' Hnd) as (l2 & Hsort & P & Hs).
  destruct (@zeromap_shape q q' Hreg Hd) as (Z1 & Z2 & Z3 & Z4).
  set (m := assign 0 (map coloridx l2) (repeat 0 (colors q))).
  destruct (@assign_spec (map coloridx l2) 0 (repeat 0 (colors q)))
    as (A1 & A2 & A3).
  { eapply Permutation_NoDup; [|exact Z2]. now apply Permutation_map. }
  { intros x Hx. rewrite repeat_length. apply in_map_iff in Hx.
    destruct Hx as (s & <- & Hsin). apply Z3.
    eapply Permutation_in; [symmetry; exact P|exact Hsin]. }
  fold m in A1, A2, A3. rewrite repeat_length in A1.
  destruct (@resolved_entries q q' m Hreg Hd A1) as (R1 & R2 & R3).
  destruct (@fits_assign_pal l2 0 (repeat 0 (colors q)) (repeat x00 (W * 3)))
    as (P1 & P2 & P3).
  { rewrite repeat_length, <- (Permutation_length P), <- ED. simpl. lia. }
  rewrite repeat_length in P1.
  exists (resolve_zeros (zeromap q') m),
         (snd (fits_assign 0 l2 (repeat 0 (colors q), repeat x00 (W * 3)))), l2.
  split.
  { simpl. rewrite Hq'. simpl. rewrite Hc.
    destruct (Nat.leb_spec (length (first q')) W) as [_|]; [|lia].
    unfold bind in Hsort. rewrite ED.
    destruct (sqi_sort_group (first q') 0) as [l0|]; [simpl|discriminate].
    destruct (sqi_sort_group l0 2) as [l1|]; [simpl|discriminate].
    rewrite Hsort. simpl.
    pose proof (fits_assign_idx l2 0 (repeat 0 (colors q)) (repeat x00 (W * 3)))
      as Ef.
    destruct (fits_assign 0 l2 (repeat 0 (colors q), repeat x00 (W * 3)))
      as [m' p']. simpl in *. now subst m'. }
  split; [exact R1|]. split; [exact P1|].
  split; [now rewrite <- (Permutation_length P)|].
  split.
  { intros x Hx. destruct Hd as (_ & _ & _ & _ & Hincl & _). apply Hincl.
    eapply Permutation_in; [symmetry; exact P|exact Hx]. }
  split; [exact Hs|]. split; [exact P2|]. split.
  { intros j Hj. rewrite P3 by (simpl; lia). apply pal_entry_zero. }
  intros i Hi.
  assert (Hci : In (nth i (first q) black) (first q))
    by (apply nth_In; now rewrite registered_length).
  destruct (@representative q q' _ Hreg Hd Hci) as (s & Hsin & Eb & _).
  assert (Hs2 : In s l2) by (eapply Permutation_in; eauto).
  destruct (In_nth _ _ black Hs2) as (j & Hj & Ej).
  exists j. split; [exact Hj|]. split; [now rewrite Ej|].
  assert (Hcs : In s (first q)).
  { destruct Hd as (_ & _ & _ & _ & Hincl & _). now apply Hincl. }
  assert (E1 : nth i (resolve_zeros (zeromap q') m) 0
               = nth (coloridx s) (resolve_zeros (zeromap q') m) 0).
  { apply R3; [exact Hi|now apply registered_In_bound|].
    rewrite (@registered_In_nth q s Hreg Hcs). now symmetry. }
  rewrite E1, (R2 _ Hsin), <- Ej.
  rewrite <- (map_nth coloridx).
  rewrite (nth_indep (map coloridx l2) (coloridx black) 0)
    by now rewrite length_map.
  rewrite A2 by now rewrite length_map. reflexivity.
Qed.

(** ** Palette synthesis *)

Lemma to_uchar_val (z : Z) :
  (0 <= z <= 255)%Z -> Z.of_nat (Byte.to_nat (to_uchar z)) = z.
Proof.
  intros Hz. unfold to_uchar. rewrite Z.mod_small by lia.
  destruct (Byte.of_N (Z.to_N z)) as [b|] eqn:E.
  - apply Byte.to_of_N in E. rewrite Byte.to_nat_via_N, E. lia.
  - apply Byte.of_N_None_iff in E. lia.
Qed.

Lemma tally_fold (g : list color) (n a b c : Z) :
  fold_left tally g (n, a, b, c)
  = ((n + Z.of_nat (length g))%Z, (a + chansum 0 g)%Z,
     (b + chansum 1 g)%Z, (c + chansum 2 g)%Z).
Proof.
  revert n a b c. induction g as [|x g IH]; intros n a b c.
  - simpl. now rewrite !Z.add_0_r.
  - cbn [fold_left tally]. rewrite IH. simpl length. rewrite Nat2Z.inj_succ.
    change (chansum 0 (x :: g)) with (val x 0 + chansum 0 g)%Z.
    change (chansum 1 (x :: g)) with (val x 1 + chansum 1 g)%Z.
    change (chansum 2 (x :: g)) with (val x 2 + chansum 2 g)%Z.
    apply f_equal2; [apply f_equal2; [apply f_equal2|]|]; lia.
Qed.

Lemma chansum_between (k lo hi : Z) (g : list color) :
  (forall c, In c g -> (lo <= val c k <= hi)%Z) ->
  (Z.of_nat (length g) * lo <= chansum k g <= Z.of_nat (length g) * hi)%Z.
Proof.
  induction g as [|x g IH]; intros H.
  - simpl. lia.
  - change (chansum k (x :: g)) with (val x k + chansum k g)%Z.
    simpl length. rewrite Nat2Z.inj_succ, !Z.mul_succ_l.
    specialize (IH (fun c Hc => H c (or_intror Hc))).
    pose proof (H x (or_introl eq_refl)). lia.
Qed.

Lemma average_between (count sum lo hi : Z) :
  (0 < count)%Z -> (0 <= lo)%Z ->
  (count * lo <= sum <= count * hi)%Z ->
  (lo <= Z.quot (sum + Z.quot count 2) count <= hi)%Z.
Proof.
  intros Hc Hlo Hs.
  assert (Hh : (0 <= Z.quot count 2 < count)%Z).
  { rewrite Z.quot_div_nonneg by lia. split.
    - apply Z.div_pos; lia.
    - apply Z.div_lt; lia. }
  assert (0 <= count * lo)%Z by (apply Z.mul_nonneg_nonneg; lia).
  rewrite (Z.quot_div_nonneg (sum + Z.quot count 2) count) by lia.
  split.
  - apply Z.div_le_lower_bound; lia.
  - assert ((sum + Z.quot count 2) / count < hi + 1)%Z; [|lia].
    apply Z.div_lt_upper_bound; lia.
Qed.

Lemma channel_extremes (k : Z) (g0 : color) (rest : list color) :
  exists lo hi, In lo (g0 :: rest) /\ In hi (g0 :: rest) /\
    forall c, In c (g0 :: rest) -> (val lo k <= val c k <= val hi k)%Z.
Proof.
  destruct (chan_stat_of k g0 rest) as (_ & (lo & Hlo & Elo) & (hi & Hhi & Ehi) & Hb).
  exists lo, hi. split; [exact Hlo|]. split; [exact Hhi|].
  intros c Hc. rewrite Elo, Ehi. now apply Hb.
Qed.

Lemma entry_val (r g b : byte) (k : Z) :
  val (entry_color (r, g, b)) k
  = Z.of_nat (Byte.to_nat (component (mkcolor 0 r g b) k)).
Proof. reflexivity. Qed.

(** The entry of the averaging branch lies in the bounding box. *)
Lemma average_within_box (g0 : color) (rest : list color) :
  let g := g0 :: rest in
  let count := Z.of_nat (length g) in
  let half := Z.quot count 2 in
  within_box g (to_uchar (Z.quot (chansum 0 g + half) count),
                to_uchar (Z.quot (chansum 1 g + half) count),
                to_uchar (Z.quot (chansum 2 g + half) count)).
Proof.
  intros g count half k Hk.
  destruct (channel_extremes k g0 rest) as (lo & hi & Hlo & Hhi & Hb).
  exists lo, hi. split; [exact Hlo|]. split; [exact Hhi|].
  assert (Hc : (0 < count)%Z) by (unfold count, g; simpl length; lia).
  pose proof (val_range k lo) as Rlo. pose proof (val_range k hi) as Rhi.
  pose proof (@average_between count (chansum k g) (val lo k) (val hi k) Hc
                ltac:(lia) (@chansum_between k (val lo k) (val hi k) g Hb)) as Ha.
  fold half in Ha.
  assert (k = 0 \/ k = 1 \/ k = 2)%Z as [-> | [-> | ->]] by lia;
    rewrite entry_val; cbn [component red green blue];
    rewrite to_uchar_val by lia; exact Ha.
Qed.

Lemma head_within_box (g0 : color) (rest : list color) :
  within_box (g0 :: rest) (red g0, green g0, blue g0).
Proof.
  intros k Hk. exists g0, g0. split; [now left|]. split; [now left|].
  assert (k = 0 \/ k = 1 \/ k = 2)%Z as [-> | [-> | ->]] by lia;
    unfold val; simpl; lia.
Qed.

Lemma build_group_pal (i : nat) (g : groupinfo) (m m' : list nat)
  (p p' : list byte) :
  build_group i g (m, p) = Some (m', p') ->
  i * 3 + 2 < length p ->
  length p' = length p /\
  within_box (group g) (pal_entry p' i) /\
  forall x, x <> i -> pal_entry p' x = pal_entry p x.
Proof.
  unfold build_group. destruct (group g) as [|g0 rest] eqn:Eg; [discriminate|].
  rewrite tally_fold. rewrite !Z.add_0_l.
  destruct (groupcomponentsize g >? 1)%Z; intros [= <- <-] Hi;
    (split; [apply length_set_pal|]);
    (split; [|intros x Hx; now apply pal_entry_set_other]);
    rewrite pal_entry_set_same by assumption.
  - apply average_within_box.
  - apply head_within_box.
Qed.

Lemma build_palette_pal (st : list groupinfo) (i : nat) (m m' : list nat)
  (p p' : list byte) :
  build_palette i st (m, p) = Some (m', p') ->
  (i + length st) * 3 <= length p ->
  length p' = length p /\
  (forall k, k < length st ->
     within_box (group (nth k st zero_group)) (pal_entry p' (i + k))) /\
  (forall x, x < i -> pal_entry p' x = pal_entry p x).
Proof.
  revert i m p. induction st as [|g st IH]; intros i m p H Hlen.
  - simpl in H. injection H as <- <-. split; [reflexivity|].
    split; [simpl; intros; lia|reflexivity].
  - cbn [build_palette] in H. simpl length in Hlen.
    destruct (build_group i g (m, p)) as [[m1 p1]|] eqn:Eg; [|discriminate].
    cbn [bind] in H.
    destruct (build_group_pal _ _ _ _ Eg) as (G1 & G2 & G3); [lia|].
    destruct (IH (S i) m1 p1 H) as (I1 & I2 & I3); [rewrite G1; lia|].
    split; [congruence|]. split.
    + intros [|k] Hk.
      * rewrite Nat.add_0_r, I3 by lia. exact G2.
      * replace (i + S k) with (S i + k) by lia. apply I2. simpl in Hk. lia.
    + intros x Hx. rewrite I3 by lia. apply G3. lia.
Qed.

(** ** The split path in full *)

Lemma block_node_of (p : list byte) (base k : nat) :
  block (node_of p 3 base k) = pal_entry p k.
Proof. unfold node_of, pal_entry, block. simpl. now rewrite Nat.add_0_r. Qed.

Lemma reorder_nodes (p : list byte) (W : nat) :
  first (fst (sq_addcolormap sq_alloc p W 3)) = map (node_of p 3 0) (seq 0 W).
Proof.
  destruct (addcolormap_spec sq_alloc p W 3) as (_ & _ & H & _).
  exact H.
Qed.

(** Everything the split path returns: [st] are the groups, [p] the
    palette synthesized from them, [final] the index map in front of the
    re-sort pass, [rm] the index map of the re-sort pass and [l2] its
    sorted list of distinct synthesized entries. *)
Lemma split_result (q : SQ) (W d : nat) :
  registered q -> 1 <= W -> W < distinct_colors (first q) ->
  exists q' st p final rm pal w l2,
    sqi_dupenuke q = Some q' /\ dedup_ok q q' /\
    split_groups q' W = Finished st (W - 1) /\
    groups_ok (first q') st /\ length st = W /\
    build_palette 0 st (repeat 0 (colors q), repeat x00 (W * 3))
    = Some (assign 0 (map head_index st) (repeat 0 (colors q)), p) /\
    length p = W * 3 /\
    sq_reduce (S (S d)) q W = Some (map (fun v => nth v rm 0) final, pal, w) /\
    length final = colors q /\
    (forall i j, i < colors q -> j < colors q ->
       block (nth i (first q) black) = block (nth j (first q) black) ->
       nth i final 0 = nth j final 0) /\
    (forall k, k < W ->
       head_index (nth k st zero_group) < colors q /\
       nth (head_index (nth k st zero_group)) final 0 = slot_byte k) /\
    (forall s, In s (first q') -> ~ In (coloridx s) (map head_index st) ->
       nth (coloridx s) final 0 = 0) /\
    (forall i, i < colors q -> nth i final 0 < W) /\
    length rm = W /\ length pal = W * 3 /\ 1 <= w <= W /\ length l2 = w /\
    StronglySorted (fun a b => (gbrkey a < gbrkey b)%Z) l2 /\
    (forall j, j < w -> pal_entry pal j = block (nth j l2 black)) /\
    (forall j, w <= j -> pal_entry pal j = (x00, x00, x00)) /\
    (forall j, j < w -> exists k, k < W /\ block (nth j l2 black) = pal_entry p k) /\
    (forall k, k < W ->
       exists j, j < w /\ block (nth j l2 black) = pal_entry p k /\
                 nth k rm 0 = slot_byte j) /\
    w = length (nodup block_dec (map (pal_entry p) (seq 0 W))).
Proof.
  intros Hreg HW HD.
  assert (Hne : first q <> []) by (apply distinct_nonempty; lia).
  destruct (dupenuke_registered Hreg Hne) as (q' & Hq' & Hd).
  pose proof (dedup_distinct Hreg Hd) as ED. rewrite ED in HD.
  destruct (dedup_counts Hreg Hd) as [Hc Hle].
  assert (Hnd : NoDup (map block (first q')))
    by (apply strict_key_NoDup; apply Hd).
  destruct (@split_groups_run q' W Hnd HW HD) as (st & Hrun & Hok & Lst).
  destruct (@zeromap_shape q q' Hreg Hd) as (Z1 & Z2 & Z3 & Z4).
  pose proof Hok as (_ & Hgok & Hperm).
  assert (Hgne : Forall (fun g => group g <> []) st).
  { eapply Forall_impl; [|exact Hgok]. intros g Hg.
    now apply examine_group_facts in Hg. }
  destruct (heads_spec Hgne) as [Hh1 Hh2].
  { eapply Permutation_NoDup; [|exact Z2]. apply Permutation_map.
    now symmetry. }
  assert (Hh3 : forall g, In g st ->
            exists s, In s (first q') /\ head_index g = coloridx s).
  { intros g Hg. destruct (Hh2 _ Hg) as (c & Hcin & E). exists c. split; auto.
    eapply Permutation_in; eauto. }
  destruct (@build_palette_idx st 0 (repeat 0 (colors q)) (repeat x00 (W * 3)) Hgne)
    as (p & Hbuild).
  destruct (build_palette_pal _ _ _ _ Hbuild) as (Lp & _ & _).
  { rewrite repeat_length. simpl. lia. }
  rewrite repeat_length in Lp.
  set (m := assign 0 (map head_index st) (repeat 0 (colors q))) in *.
  destruct (@assign_spec (map head_index st) 0 (repeat 0 (colors q)) Hh1)
    as (A1 & A2 & A3).
  { intros x Hx. rewrite repeat_length. apply in_map_iff in Hx.
    destruct Hx as (g & <- & Hg). destruct (Hh3 _ Hg) as (s & Hs & ->).
    now apply Z3. }
  fold m in A1, A2, A3. rewrite repeat_length in A1.
  destruct (@resolved_entries q q' m Hreg Hd A1) as (R1 & R2 & R3).
  set (final := resolve_zeros (zeromap q') m) in *.
  set (reorder := fst (sq_addcolormap sq_alloc p W 3)).
  destruct (@registered_addcolormap sq_alloc p W 3 registered_alloc)
    as (Rreg & Rcol & _).
  fold reorder in Rreg, Rcol. simpl in Rcol.
  assert (Rne : first reorder <> []).
  { intros E. pose proof (registered_length Rreg) as L. rewrite E in L.
    simpl in L. lia. }
  assert (RD : distinct_colors (first reorder) <= W).
  { pose proof (distinct_le_length (first reorder)) as L.
    rewrite (registered_length Rreg) in L. lia. }
  destruct (@fits_result reorder W d Rreg Rne RD)
    as (rm & pal & l2 & Hin & F1 & F2 & F3 & F4 & F5 & F6 & F7 & F8).
  rewrite Rcol in F1, F8.
  assert (Hnode : forall k, k < W ->
            block (nth k (first reorder) black) = pal_entry p k).
  { intros k Hk. unfold reorder. rewrite reorder_nodes.
    rewrite (nth_indep _ black (node_of p 3 0 0))
      by now rewrite length_map, length_seq.
    rewrite map_nth, seq_nth by assumption. apply block_node_of. }
  assert (Hheads : forall k, k < W ->
            head_index (nth k st zero_group) < colors q /\
            nth (head_index (nth k st zero_group)) final 0 = slot_byte k).
  { intros k Hk.
    assert (Hg : In (nth k st zero_group) st) by (apply nth_In; lia).
    destruct (Hh3 _ Hg) as (s & Hs & Es). rewrite Es.
    split; [now apply Z3|]. rewrite (R2 _ Hs), <- Es.
    rewrite <- (map_nth head_index).
    rewrite (nth_indep (map head_index st) (head_index zero_group) 0)
      by (rewrite length_map; lia).
    rewrite A2 by (rewrite length_map; lia). reflexivity. }
  assert (Hothers : forall s, In s (first q') ->
            ~ In (coloridx s) (map head_index st) ->
            nth (coloridx s) final 0 = 0).
  { intros s Hs Hn. rewrite (R2 _ Hs), A3 by assumption.
    apply nth_repeat. }
  assert (Hrange : forall i, i < colors q -> nth i final 0 < W).
  { intros i Hi.
    assert (Hci : In (nth i (first q) black) (first q))
      by (apply nth_In; now rewrite registered_length).
    destruct (@representative q q' _ Hreg Hd Hci) as (s & Hsin & Eb & _).
    assert (Hcs : In s (first q)).
    { destruct Hd as (_ & _ & _ & _ & Hincl & _). now apply Hincl. }
    assert (E1 : nth i final 0 = nth (coloridx s) final 0).
    { apply R3; [exact Hi|now apply registered_In_bound|].
      rewrite (@registered_In_nth q s Hreg Hcs). now symmetry. }
    rewrite E1.
    destruct (in_dec Nat.eq_dec (coloridx s) (map head_index st)) as [Hin'|Hn].
    - destruct (In_nth _ _ 0 Hin') as (k & Hk & Ek).
      rewrite length_map in Hk.
      rewrite (nth_indep (map head_index st) 0 (head_index zero_group)) in Ek
        by now rewrite length_map.
      rewrite map_nth in Ek. rewrite <- Ek.
      destruct (Hheads k ltac:(lia)) as [_ ->].
      pose proof (slot_byte_le k). lia.
    - rewrite (Hothers s Hsin Hn). lia. }
  exists q', st, p, final, rm, pal, (distinct_colors (first reorder)), l2.
  split; [exact Hq'|]. split; [exact Hd|]. split; [exact Hrun|].
  split; [exact Hok|]. split; [exact Lst|]. split; [exact Hbuild|].
  split; [exact Lp|]. split.
  { change (sq_reduce (S (S d)) q W)
      with (let totalcolors := colors q in
            let pal := repeat x00 (W * 3) in
            let idxmap := repeat 0 totalcolors in
            q <- sqi_dupenuke q ;;
            if colors q - zeros q <=? W then
              let palwid := colors q - zeros q in
              l <- sqi_sort_group (first q) 0 ;;
              l <- sqi_sort_group l 2 ;;
              l <- sqi_sort_group l 1 ;;
              let '(idxmap, pal) := fits_assign 0 l (idxmap, pal) in
              Some (resolve_zeros (zeromap q) idxmap, pal, palwid)
            else
              match split_groups q W with
              | Finished st _ =>
                  ' (idxmap, pal) <- build_palette 0 st (idxmap, pal) ;;
                  let idxmap := resolve_zeros (zeromap q) idxmap in
                  let reorder := fst (sq_addcolormap sq_alloc pal W 3) in
                  ' (remapmap, temppal, palwid') <- sq_reduce (S d) reorder W ;;
                  Some (map (fun v => nth v remapmap 0) idxmap, temppal, palwid')
              | _ => None
              end).
    cbv zeta. rewrite Hq'. cbn [bind]. rewrite Hc.
    destruct (Nat.leb_spec (length (first q')) W) as [|_]; [lia|].
    rewrite Hrun, Hbuild. cbn [bind]. fold final. fold reorder.
    rewrite Hin. reflexivity. }
  split; [exact R1|]. split; [exact R3|]. split; [exact Hheads|].
  split; [exact Hothers|]. split; [exact Hrange|].
  split; [exact F1|]. split; [exact F2|].
  split.
  { rewrite <- F3. split; [|lia].
    destruct l2 as [|x l2]; [|simpl; lia].
    destruct (F8 0 ltac:(lia)) as (j & Hj & _). simpl in Hj. lia. }
  split; [exact F3|]. split; [exact F5|].
  split; [rewrite <- F3; exact F6|]. split; [rewrite <- F3; exact F7|].
  split; [|split].
  - intros j Hj. rewrite <- F3 in Hj.
    assert (Hx : In (nth j l2 black) (first reorder))
      by (apply F4; now apply nth_In).
    destruct (In_nth _ _ black Hx) as (k & Hk & Ek).
    rewrite (registered_length Rreg), Rcol in Hk.
    exists k. split; [exact Hk|]. rewrite <- Ek. now apply Hnode.
  - intros k Hk. destruct (F8 k Hk) as (j & Hj & Eb & Er).
    exists j. rewrite <- F3. split; [exact Hj|]. split; [|exact Er].
    rewrite Eb. now apply Hnode.
  - unfold distinct_colors, reorder. rewrite reorder_nodes, map_map.
    do 2 f_equal. apply map_ext. intros k. apply block_node_of.
Qed.

(** ** What sq_reduce returns *)

Lemma block_entry_color (e : byte * byte * byte) : block (entry_color e) = e.
Proof. destruct e as [[r g] b]. reflexivity. Qed.

Lemma gbrkey_entry (c : color) : gbrkey (entry_color (block c)) = gbrkey c.
Proof. apply gbrkey_block. apply block_entry_color. Qed.

Lemma within_box_member (g : list color) (c : color) :
  In c g -> within_box g (block c).
Proof.
  intros Hc k Hk. exists c, c. split; [exact Hc|]. split; [exact Hc|].
  rewrite (@block_val (entry_color (block c)) c k (block_entry_color _)). lia.
Qed.

Lemma within_box_incl (g1 g2 : list color) (e : byte * byte * byte) :
  incl g1 g2 -> within_box g1 e -> within_box g2 e.
Proof.
  intros Hi H k Hk. destruct (H k Hk) as (lo & hi & H1 & H2 & H3).
  exists lo, hi. auto.
Qed.

Lemma group_incl (fs : list color) (st : list groupinfo) (k : nat) :
  Permutation (concat (map group st)) fs -> k < length st ->
  incl (group (nth k st zero_group)) fs.
Proof.
  intros P Hk c Hc. eapply Permutation_in; [exact P|].
  apply in_concat. exists (group (nth k st zero_group)). split; [|exact Hc].
  apply in_map. now apply nth_In.
Qed.

(** The properties of the returned triple that hold on both paths. *)
Lemma reduce_result (q : SQ) (W d : nat) :
  registered q -> first q <> [] -> 1 <= W ->
  exists idxmap pal w,
    sq_reduce (S (S d)) q W = Some (idxmap, pal, w) /\
    length idxmap = colors q /\ length pal = W * 3 /\
    (forall i, i < colors q -> nth i idxmap 0 < w) /\
    (forall a b, a < b < w ->
       (gbrkey (entry_color (pal_entry pal a))
        < gbrkey (entry_color (pal_entry pal b)))%Z) /\
    (forall j, w <= j -> pal_entry pal j = (x00, x00, x00)) /\
    (forall j, j < w -> within_box (first q) (pal_entry pal j)) /\
    w <= W.
Proof.
  intros Hreg Hne HW.
  destruct (Nat.le_gt_cases (distinct_colors (first q)) W) as [HD|HD].
  - destruct (@fits_result q W (S d) Hreg Hne HD)
      as (idxmap & pal & l2 & E & F1 & F2 & F3 & F4 & F5 & F6 & F7 & F8).
    exists idxmap, pal, (distinct_colors (first q)). rewrite <- F3.
    split; [rewrite F3; exact E|]. split; [exact F1|]. split; [exact F2|].
    split; [|split; [|split; [exact F7|split; [|lia]]]].
    + intros i Hi. destruct (F8 i Hi) as (j & Hj & _ & ->).
      pose proof (slot_byte_le j). lia.
    + intros a b Hab. rewrite !F6, !gbrkey_entry by lia.
      apply (StronglySorted_nth black F5); lia.
    + intros j Hj. rewrite F6 by assumption.
      apply within_box_member. apply F4. now apply nth_In.
  - destruct (@split_result q W d Hreg HW HD)
      as (q' & st & p & final & rm & pal & w & l2 & _ & Hd & _ & Hok & Lst
          & Hbuild & Lp & E & Lf & _ & _ & _ & Hrange & Lrm & Lpal & Hw & Ll2
          & Hs & E1 & E2 & E3 & E4 & _).
    exists (map (fun v => nth v rm 0) final), pal, w.
    split; [exact E|]. split; [now rewrite length_map|]. split; [exact Lpal|].
    split; [|split; [|split; [exact E2|split; [|lia]]]].
    + intros i Hi.
      rewrite (@nth_map_in _ _ (fun v => nth v rm 0) final i 0 0) by lia.
      destruct (E4 (nth i final 0) (Hrange i Hi)) as (j & Hj & _ & ->).
      pose proof (slot_byte_le j). lia.
    + intros a b Hab. rewrite !E1, !gbrkey_entry by lia.
      apply (StronglySorted_nth black Hs); lia.
    + intros j Hj. destruct (E3 j Hj) as (k & Hk & Ek).
      rewrite (E1 j Hj), Ek.
      destruct (build_palette_pal _ _ _ _ Hbuild) as (_ & Hbox & _).
      { rewrite repeat_length. simpl. lia. }
      specialize (Hbox k ltac:(lia)). simpl in Hbox.
      eapply within_box_incl; [|exact Hbox].
      intros c Hc. destruct Hd as (_ & _ & _ & _ & Hincl & _). apply Hincl.
      destruct Hok as (_ & _ & Hperm).
      apply (@group_incl (first q') st k Hperm ltac:(lia)). exact Hc.
Qed.

(** X10.  For a non-empty registration and [W >= 1] the index map has
    one entry per registered color, the palette array has [3 * W] bytes,
    and every index map entry is a slot below the returned width. *)
Theorem index_map_in_range (maps : list colormap) (W d : nat) :
  1 <= W -> 1 <= colors (register maps) ->
  exists idxmap pal w,
    sq_reduce (S (S d)) (register maps) W = Some (idxmap, pal, w) /\
    length idxmap = colors (register maps) /\
    length pal = W * 3 /\
    forall i, i < colors (register maps) -> nth i idxmap 0 < w.
Proof.
  intros HW HN. pose proof (registered_register maps) as Hreg.
  destruct (@reduce_result (register maps) W d Hreg
              (registered_nonempty Hreg HN) HW)
    as (idxmap & pal & w & E & H1 & H2 & H3 & _).
  exists idxmap, pal, w. auto.
Qed.

Lemma index_map_in_range_witness :
  exists idxmap pal w,
    sq_reduce 2 (register ex_C1) 3 = Some (idxmap, pal, w) /\
    length idxmap = colors (register ex_C1) /\
    length pal = 3 * 3 /\
    forall i, i < colors (register ex_C1) -> nth i idxmap 0 < w.
Proof.
  apply (@index_map_in_range ex_C1 3 0).
  - lia.
  - vm_compute. lia.
Defined.

(** X11.  The palette [sq_reduce] returns is sorted and free of
    duplicates on both paths: its first [w] entries (w the returned
    width) are strictly ascending in green, then blue, then red, and
    the entries behind them are left at zero. *)
Theorem palette_sorted_distinct (maps : list colormap) (W d : nat) :
  1 <= W -> 1 <= colors (register maps) ->
  exists idxmap pal w,
    sq_reduce (S (S d)) (register maps) W = Some (idxmap, pal, w) /\
    (forall a b, a < b < w ->
       (gbrkey (entry_color (pal_entry pal a))
        < gbrkey (entry_color (pal_entry pal b)))%Z) /\
    (forall j, w <= j -> pal_entry pal j = (x00, x00, x00)).
Proof.
  intros HW HN. pose proof (registered_register maps) as Hreg.
  destruct (@reduce_result (register maps) W d Hreg
              (registered_nonempty Hreg HN) HW)
    as (idxmap & pal & w & E & _ & _ & _ & H4 & H5 & _).
  exists idxmap, pal, w. auto.
Qed.

Lemma palette_sorted_distinct_witness :
  exists idxmap pal w,
    sq_reduce 2 (register ex_C1) 3 = Some (idxmap, pal, w) /\
    (forall a b, a < b < w ->
       (gbrkey (entry_color (pal_entry pal a))
        < gbrkey (entry_color (pal_entry pal b)))%Z) /\
    (forall j, w <= j -> pal_entry pal j = (x00, x00, x00)).
Proof.
  apply (@palette_sorted_distinct ex_C1 3 0).
  - lia.
  - vm_compute. lia.
Defined.

(** X12.  Every palette entry [sq_reduce] returns lies, in each of the
    three channels, between the values of two registered colors: the
    rounded averages never leave the range of the input (nor the range
    of a byte). *)
Theorem palette_within_input_range (maps : list colormap) (W d : nat) :
  1 <= W -> 1 <= colors (register maps) ->
  exists idxmap pal w,
    sq_reduce (S (S d)) (register maps) W = Some (idxmap, pal, w) /\
    forall j, j < w -> within_box (first (register maps)) (pal_entry pal j).
Proof.
  intros HW HN. pose proof (registered_register maps) as Hreg.
  destruct (@reduce_result (register maps) W d Hreg
              (registered_nonempty Hreg HN) HW)
    as (idxmap & pal & w & E & _ & _ & _ & _ & _ & H6 & _).
  exists idxmap, pal, w. auto.
Qed.

Lemma palette_within_input_range_witness :
  exists idxmap pal w,
    sq_reduce 2 (register ex_C1) 3 = Some (idxmap, pal, w) /\
    forall j, j < w -> within_box (first (register ex_C1)) (pal_entry pal j).
Proof.
  apply (@palette_within_input_range ex_C1 3 0).
  - lia.
  - vm_compute. lia.
Defined.

(** X13.  When the registration has no more distinct colors than the
    requested width and no more than 256, nothing is lost: the returned
    width is the number of distinct colors, the palette entry at the
    slot of every original index is exactly the color registered there,
    and every palette entry below the width is a registered color. *)
Theorem fits_lossless (maps : list colormap) (W d : nat) :
  1 <= colors (register maps) ->
  distinct_colors (first (register maps)) <= W ->
  distinct_colors (first (register maps)) <= 256 ->
  exists idxmap pal,
    sq_reduce (S d) (register maps) W
    = Some (idxmap, pal, distinct_colors (first (register maps))) /\
    (forall i, i < colors (register maps) ->
       pal_entry pal (nth i idxmap 0)
       = block (nth i (first (register maps)) black)) /\
    (forall j, j < distinct_colors (first (register maps)) ->
       exists i, i < colors (register maps) /\ nth i idxmap 0 = j /\
                 pal_entry pal j = block (nth i (first (register maps)) black)).
Proof.
  intros HN HD H256. pose proof (registered_register maps) as Hreg.
  destruct (@fits_result (register maps) W d Hreg
              (registered_nonempty Hreg HN) HD)
    as (idxmap & pal & l2 & E & F1 & F2 & F3 & F4 & F5 & F6 & F7 & F8).
  exists idxmap, pal. split; [exact E|].
  assert (Hl : forall i, i < colors (register maps) ->
            pal_entry pal (nth i idxmap 0)
            = block (nth i (first (register maps)) black)).
  { intros i Hi. destruct (F8 i Hi) as (j & Hj & Eb & ->).
    rewrite slot_byte_small by lia. rewrite F6 by assumption. exact Eb. }
  split; [exact Hl|].
  intros j Hj. rewrite <- F3 in Hj.
  assert (Hin : In (nth j l2 black) (first (register maps)))
    by (apply F4; now apply nth_In).
  exists (coloridx (nth j l2 black)).
  pose proof (@registered_In_bound _ _ Hreg Hin) as Hb.
  split; [exact Hb|].
  destruct (F8 _ Hb) as (j' & Hj' & Eb & Ei).
  rewrite (@registered_In_nth _ _ Hreg Hin) in Eb.
  assert (j' = j).
  { destruct (Nat.lt_trichotomy j' j) as [Hlt|[Heq|Hgt]]; [|exact Heq|].
    - pose proof (StronglySorted_nth black F5 Hlt Hj) as Hk.
      cbv beta in Hk. apply gbrkey_block in Eb. lia.
    - pose proof (StronglySorted_nth black F5 Hgt Hj') as Hk.
      cbv beta in Hk. apply gbrkey_block in Eb. lia. }
  subst j'. rewrite Ei, slot_byte_small by lia.
  split; [reflexivity|].
  rewrite F6 by assumption. now rewrite (@registered_In_nth _ _ Hreg Hin).
Qed.

Lemma fits_lossless_witness :
  exists idxmap pal,
    sq_reduce 1 (register ex_C4) 2
    = Some (idxmap, pal, distinct_colors (first (register ex_C4))) /\
    (forall i, i < colors (register ex_C4) ->
       pal_entry pal (nth i idxmap 0)
       = block (nth i (first (register ex_C4)) black)) /\
    (forall j, j < distinct_colors (first (register ex_C4)) ->
       exists i, i < colors (register ex_C4) /\ nth i idxmap 0 = j /\
                 pal_entry pal j = block (nth i (first (register ex_C4)) black)).
Proof.
  apply (@fits_lossless ex_C4 2 0); vm_compute; lia.
Defined.

(** X14.  On the split path, with at most 256 slots requested, the
    first color of every group is mapped to the slot that holds the
    entry synthesized for its group.  A surviving color that is not the
    first of its group is mapped to the slot of the first color of
    group 0 (its index map entry is never written by the palette
    loop). *)
Theorem split_heads_keep_their_entry (maps : list colormap) (W d : nat) :
  1 <= W -> W < distinct_colors (first (register maps)) -> W <= 256 ->
  exists q' st m p idxmap pal w,
    sqi_dupenuke (register maps) = Some q' /\
    split_groups q' W = Finished st (W - 1) /\
    build_palette 0 st (repeat 0 (colors (register maps)), repeat x00 (W * 3))
    = Some (m, p) /\
    sq_reduce (S (S d)) (register maps) W = Some (idxmap, pal, w) /\
    (forall k, k < W ->
       pal_entry pal (nth (head_index (nth k st zero_group)) idxmap 0)
       = pal_entry p k) /\
    (forall s, In s (first q') -> ~ In (coloridx s) (map head_index st) ->
       nth (coloridx s) idxmap 0
       = nth (head_index (nth 0 st zero_group)) idxmap 0).
Proof.
  intros HW HD H256. pose proof (registered_register maps) as Hreg.
  destruct (@split_result (register maps) W d Hreg HW HD)
    as (q' & st & p & final & rm & pal & w & l2 & Hq' & Hd & Hrun & Hok & Lst
        & Hbuild & Lp & E & Lf & _ & Hheads & Hothers & Hrange & Lrm & Lpal
        & Hw & Ll2 & Hs & E1 & E2 & E3 & E4 & _).
  destruct (@zeromap_shape (register maps) q' Hreg Hd) as (_ & _ & Z3 & _).
  eexists q', st, _, p, _, pal, w.
  split; [exact Hq'|]. split; [exact Hrun|]. split; [exact Hbuild|].
  split; [exact E|]. split.
  - intros k Hk. destruct (Hheads k Hk) as [Hb Hv].
    rewrite (@nth_map_in _ _ (fun v => nth v rm 0) final _ 0 0) by lia.
    rewrite Hv, slot_byte_small by lia.
    destruct (E4 k Hk) as (j & Hj & Eb & ->).
    rewrite slot_byte_small by lia. rewrite E1 by assumption. exact Eb.
  - intros s Hsin Hn. destruct (Hheads 0 ltac:(lia)) as [Hb Hv].
    rewrite !(@nth_map_in _ _ (fun v => nth v rm 0) final _ 0 0)
      by (rewrite Lf; auto; now apply Z3).
    rewrite Hv, (Hothers s Hsin Hn). reflexivity.
Qed.

Lemma split_heads_keep_their_entry_witness :
  exists q' st m p idxmap pal w,
    sqi_dupenuke (register ex_C2) = Some q' /\
    split_groups q' 2 = Finished st (2 - 1) /\
    build_palette 0 st (repeat 0 (colors (register ex_C2)), repeat x00 (2 * 3))
    = Some (m, p) /\
    sq_reduce 2 (register ex_C2) 2 = Some (idxmap, pal, w) /\
    (forall k, k < 2 ->
       pal_entry pal (nth (head_index (nth k st zero_group)) idxmap 0)
       = pal_entry p k) /\
    (forall s, In s (first q') -> ~ In (coloridx s) (map head_index st) ->
       nth (coloridx s) idxmap 0
       = nth (head_index (nth 0 st zero_group)) idxmap 0).
Proof.
  apply (@split_heads_keep_their_entry ex_C2 2 0).
  - lia.
  - vm_compute. lia.
  - lia.
Defined.

(** ** Reducing a returned palette again *)

Lemma StronglySorted_of_nth {A : Type} (R : A -> A -> Prop) (d : A) (l : list A) :
  (forall i j, i < j -> j < length l -> R (nth i l d) (nth j l d)) ->
  StronglySorted R l.
Proof.
  induction l as [|x l IH]; intros H; constructor.
  - apply IH. intros i j Hij Hj. apply (H (S i) (S j)); simpl; lia.
  - apply Forall_forall. intros y Hy.
    destruct (In_nth _ _ d Hy) as (n & Hn & <-).
    apply (H 0 (S n)); simpl; lia.
Qed.

Lemma strictly_sorted_unique (l1 l2 : list color) :
  StronglySorted (fun a b => (gbrkey a < gbrkey b)%Z) l1 ->
  StronglySorted (fun a b => (gbrkey a < gbrkey b)%Z) l2 ->
  (forall x, In x l1 <-> In x l2) -> l1 = l2.
Proof.
  intros H1. revert l2. induction H1 as [|x l1 Hs1 IH Hx]; intros l2 H2 Hin.
  - destruct l2 as [|y l2]; [reflexivity|].
    exfalso. apply (Hin y). now left.
  - destruct H2 as [|y l2 Hs2 Hy].
    { exfalso. apply (Hin x). now left. }
    rewrite Forall_forall in Hx, Hy.
    assert (x = y).
    { destruct (proj1 (Hin x) (or_introl eq_refl)) as [E|Hx2]; [now symmetry|].
      destruct (proj2 (Hin y) (or_introl eq_refl)) as [E|Hy1]; [exact E|].
      specialize (Hx _ Hy1). specialize (Hy _ Hx2). lia. }
    subst y. f_equal. apply IH; [exact Hs2|].
    intros z. split; intros Hz.
    + destruct (proj1 (Hin z) (or_intror Hz)) as [E|Hz2]; [|exact Hz2].
      subst z. specialize (Hx _ Hz). lia.
    + destruct (proj2 (Hin z) (or_intror Hz)) as [E|Hz1]; [|exact Hz1].
      subst z. specialize (Hy _ Hz). lia.
Qed.

Lemma gbr_strict_NoDup (l : list color) :
  StronglySorted (fun a b => (gbrkey a < gbrkey b)%Z) l ->
  NoDup l /\ NoDup (map block l).
Proof.
  induction 1 as [|x l Hs [IH1 IH2] Hx]; simpl; [split; constructor|].
  rewrite Forall_forall in Hx. split; constructor; auto.
  - intros Hin. specialize (Hx _ Hin). lia.
  - intros Hin. apply in_map_iff in Hin. destruct Hin as (y & E & Hy).
    specialize (Hx _ Hy). apply gbrkey_block in E. lia.
Qed.

Lemma distinct_of_NoDup (l : list color) :
  NoDup (map block l) -> distinct_colors l = length l.
Proof.
  intros H. unfold distinct_colors.
  rewrite (nodup_fixed_point block_dec H). apply length_map.
Qed.

Lemma register_single (p : list byte) (n stride : nat) :
  register [(p, n, stride)] = fst (sq_addcolormap sq_alloc p n stride).
Proof. reflexivity. Qed.

(** Reducing, at the same width, the palette a reduction has returned,
    registered as one map of [w] colors. *)
Lemma reduce_again (pal : list byte) (w W : nat) :
  1 <= w <= W ->
  (forall a b, a < b < w ->
     (gbrkey (entry_color (pal_entry pal a))
      < gbrkey (entry_color (pal_entry pal b)))%Z) ->
  (forall j, w <= j -> pal_entry pal j = (x00, x00, x00)) ->
  exists idxmap' pal',
    sq_reduce 1 (register [(pal, w, 3)]) W = Some (idxmap', pal', w) /\
    (forall j, pal_entry pal' j = pal_entry pal j) /\
    (forall j, j < w -> nth j idxmap' 0 = slot_byte j).
Proof.
  intros Hw Hsorted Hzero. rewrite register_single.
  set (q2 := fst (sq_addcolormap sq_alloc pal w 3)).
  destruct (@registered_addcolormap sq_alloc pal w 3 registered_alloc)
    as (Rreg & Rcol & _).
  fold q2 in Rreg, Rcol. simpl in Rcol.
  pose proof (registered_length Rreg) as Rlen. rewrite Rcol in Rlen.
  assert (Hnode : forall k, k < w ->
            block (nth k (first q2) black) = pal_entry pal k).
  { intros k Hk. unfold q2. rewrite reorder_nodes.
    rewrite (nth_indep _ black (node_of pal 3 0 0))
      by now rewrite length_map, length_seq.
    rewrite map_nth, seq_nth by assumption. apply block_node_of. }
  assert (Hs1 : StronglySorted (fun a b => (gbrkey a < gbrkey b)%Z) (first q2)).
  { apply StronglySorted_of_nth with (d := black). intros i j Hij Hj.
    rewrite Rlen in Hj.
    rewrite <- (gbrkey_entry (nth i (first q2) black)).
    rewrite <- (gbrkey_entry (nth j (first q2) black)).
    rewrite !Hnode by lia. apply Hsorted. lia. }
  destruct (gbr_strict_NoDup Hs1) as [Nd1 Nb1].
  pose proof (@distinct_of_NoDup (first q2) Nb1) as ED. rewrite Rlen in ED.
  assert (Rne : first q2 <> []).
  { intros E. rewrite E in Rlen. simpl in Rlen. lia. }
  destruct (@fits_result q2 W 0 Rreg Rne ltac:(lia))
    as (idxmap' & pal' & l2 & E & F1 & F2 & F3 & F4 & F5 & F6 & F7 & F8).
  rewrite ED in E, F3. rewrite Rcol in F8.
  assert (El : l2 = first q2).
  { apply strictly_sorted_unique; auto.
    intros x. split; [apply F4|].
    destruct (gbr_strict_NoDup F5) as [Nd2 _].
    apply (NoDup_length_incl Nd2); [lia|exact F4]. }
  exists idxmap', pal'. split; [exact E|]. split.
  - intros j. destruct (Nat.lt_ge_cases j w) as [Hlt|Hge].
    + rewrite F6 by lia. rewrite El. now apply Hnode.
    + rewrite F7 by lia. symmetry. now apply Hzero.
  - intros j Hj. destruct (F8 j Hj) as (j' & Hj' & Eb & ->).
    f_equal. rewrite El in Eb, Hj'. rewrite Rlen in Hj'.
    destruct (Nat.lt_trichotomy j' j) as [Hlt|[Heq|Hgt]]; [|exact Heq|].
    + pose proof (StronglySorted_nth black Hs1 Hlt ltac:(lia)) as Hk.
      cbv beta in Hk. apply gbrkey_block in Eb. lia.
    + pose proof (StronglySorted_nth black Hs1 Hgt ltac:(lia)) as Hk.
      cbv beta in Hk. apply gbrkey_block in Eb. lia.
Qed.

(** X15.  Reducing a returned palette again reproduces it: when the
    palette [sq_reduce] returns is registered as one map of [w] colors
    (w the returned width) and reduced at the same requested width, the
    result has the same width and the same palette, and its index map
    sends slot [j] to [j] (to its low eight bits). *)
Theorem reduce_is_idempotent (maps : list colormap) (W d : nat) :
  1 <= W -> 1 <= colors (register maps) ->
  exists idxmap pal w idxmap' pal',
    sq_reduce (S (S d)) (register maps) W = Some (idxmap, pal, w) /\
    sq_reduce 1 (register [(pal, w, 3)]) W = Some (idxmap', pal', w) /\
    (forall j, pal_entry pal' j = pal_entry pal j) /\
    (forall j, j < w -> nth j idxmap' 0 = slot_byte j).
Proof.
  intros HW HN. pose proof (registered_register maps) as Hreg.
  destruct (@reduce_result (register maps) W d Hreg
              (registered_nonempty Hreg HN) HW)
    as (idxmap & pal & w & E & _ & _ & H3 & H4 & H5 & _ & H7).
  assert (Hw : 1 <= w <= W).
  { split; [|exact H7]. pose proof (H3 0 ltac:(lia)). lia. }
  destruct (@reduce_again pal w W Hw H4 H5) as (idxmap' & pal' & E' & P1 & P2).
  exists idxmap, pal, w, idxmap', pal'. auto.
Qed.

Lemma reduce_is_idempotent_witness :
  exists idxmap pal w idxmap' pal',
    sq_reduce 2 (register ex_C1) 3 = Some (idxmap, pal, w) /\
    sq_reduce 1 (register [(pal, w, 3)]) 3 = Some (idxmap', pal', w) /\
    (forall j, pal_entry pal' j = pal_entry pal j) /\
    (forall j, j < w -> nth j idxmap' 0 = slot_byte j).
Proof.
  apply (@reduce_is_idempotent ex_C1 3 0).
  - lia.
  - vm_compute. lia.
Defined.

(** ** More on analysis, selection and registration *)

Lemma stat_of_perm (k : Z) (l l' : list color) (s s' : chanstat) :
  Permutation l l' -> stat_of k l s -> stat_of k l' s' -> s = s'.
Proof.
  intros P (S1 & (lo & Hlo & Elo) & (hi & Hhi & Ehi) & B)
         (S1' & (lo' & Hlo' & Elo') & (hi' & Hhi' & Ehi') & B').
  pose proof (B' _ (Permutation_in _ P Hlo)).
  pose proof (B' _ (Permutation_in _ P Hhi)).
  pose proof (B _ (Permutation_in _ (Permutation_sym P) Hlo')).
  pose proof (B _ (Permutation_in _ (Permutation_sym P) Hhi')).
  pose proof (chansum_perm k P).
  destruct s, s'; simpl in *. f_equal; lia.
Qed.

Lemma examine_group_perm (g g' : list color) :
  Permutation g g' -> sqi_examine_group g' = sqi_examine_group g.
Proof.
  intros P. destruct g as [|g0 rest], g' as [|g0' rest'].
  - reflexivity.
  - now apply Permutation_nil in P.
  - now apply Permutation_sym, Permutation_nil in P.
  - rewrite !examine_group_eq.
    rewrite (stat_of_perm P (chan_stat_of 0 g0 rest) (chan_stat_of 0 g0' rest')).
    rewrite (stat_of_perm P (chan_stat_of 1 g0 rest) (chan_stat_of 1 g0' rest')).
    rewrite (stat_of_perm P (chan_stat_of 2 g0 rest) (chan_stat_of 2 g0' rest')).
    reflexivity.
Qed.

(** X16.  Sorting a group does not change what [sqi_examine_group]
    returns for it (channel, spread and sum depend on the members only,
    not on their order); the split loop relies on this when it cuts the
    freshly sorted group with the sum recorded before the sort. *)
Theorem examine_after_sort (g out : list color) (k : Z) :
  sqi_sort_group g k = Some out ->
  sqi_examine_group out = sqi_examine_group g /\
  forall c, chansum c out = chansum c g.
Proof.
  intros H. pose proof (sort_group_perm _ _ H) as P. split.
  - now apply examine_group_perm.
  - intros c. symmetry. now apply chansum_perm.
Qed.

Lemma examine_after_sort_witness :
  sqi_examine_group [mkcolor 1 x01 x05 x00; mkcolor 0 x02 x00 x00; mkcolor 2 x02 x01 x00]
  = sqi_examine_group ex_C6 /\
  forall c, chansum c [mkcolor 1 x01 x05 x00; mkcolor 0 x02 x00 x00; mkcolor 2 x02 x01 x00]
            = chansum c ex_C6.
Proof.
  apply (@examine_after_sort ex_C6 _ 0%Z). reflexivity.
Defined.

Lemma largest_fold_first (sz : nat -> Z) (len a i0 : nat) :
  i0 <= a ->
  let r := fold_left (fun i n => if (sz n >? sz i)%Z then n else i)
                     (seq a len) i0 in
  (r = i0 \/ (a <= r /\ (sz i0 < sz r)%Z)) /\
  forall n, a <= n -> n < r -> (sz n < sz r)%Z.
Proof.
  revert a i0. induction len as [|len IH]; intros a i0 Hi; simpl.
  - split; [now left|]. intros; lia.
  - assert (Hi1 : (if (sz a >? sz i0)%Z then a else i0) <= S a)
      by (destruct (sz a >? sz i0)%Z; lia).
    specialize (IH (S a) _ Hi1). simpl in IH. destruct IH as (H1 & H2).
    destruct (Z.gtb_spec (sz a) (sz i0)) as [Hgt|Hle].
    + split.
      * right. destruct H1 as [->|[Hr Hs]]; split; lia.
      * intros n Hn Hr. destruct (Nat.eq_dec n a) as [->|Hne].
        -- destruct H1 as [E|[_ Hs]]; [lia|exact Hs].
        -- apply H2; lia.
    + split.
      * destruct H1 as [->|[Hr Hs]]; [now left|right; split; lia].
      * intros n Hn Hr. destruct (Nat.eq_dec n a) as [->|Hne].
        -- destruct H1 as [E|[_ Hs]]; [lia|lia].
        -- apply H2; lia.
Qed.

(** X17.  The group the split loop selects is the first one of maximal
    recorded spread: no group has a larger spread, and every group in
    front of it has a strictly smaller one (ties go to the lowest
    index). *)
Theorem largest_group_first_maximum (st : list groupinfo) :
  st <> [] ->
  largest_group st < length st /\
  (forall n, n < length st ->
     (groupcomponentsize (nth n st zero_group)
      <= groupcomponentsize (selected st))%Z) /\
  (forall n, n < largest_group st ->
     (groupcomponentsize (nth n st zero_group)
      < groupcomponentsize (selected st))%Z).
Proof.
  intros Hne. destruct (largest_group_spec Hne) as [H1 H2].
  split; [exact H1|]. split; [exact H2|].
  intros n Hn. unfold selected, largest_group in *.
  pose proof (@largest_fold_first
                (fun n => groupcomponentsize (nth n st zero_group))
                (length st) 0 0 (le_n 0)) as [_ H].
  apply H; lia.
Qed.

Lemma largest_group_first_maximum_witness :
  largest_group ex_C9_next < length ex_C9_next /\
  (forall n, n < length ex_C9_next ->
     (groupcomponentsize (nth n ex_C9_next zero_group)
      <= groupcomponentsize (selected ex_C9_next))%Z) /\
  (forall n, n < largest_group ex_C9_next ->
     (groupcomponentsize (nth n ex_C9_next zero_group)
      < groupcomponentsize (selected ex_C9_next))%Z).
Proof.
  apply (@largest_group_first_maximum ex_C9_next). vm_compute. discriminate.
Defined.

(** X18.  Only the three channel bytes of each record matter to
    [sq_addcolormap]: two color maps, whatever their strides, whose
    records agree in the bytes at offsets 0, 1 and 2 leave the same
    context and return the same base index (the fourth byte of a
    stride-4 record is ignored). *)
Theorem addcolormap_stride_irrelevant (q : SQ) (cm cm' : list byte)
  (n s s' : nat) :
  (forall a, a < n ->
     nth (a * s) cm x00 = nth (a * s') cm' x00 /\
     nth (a * s + 1) cm x00 = nth (a * s' + 1) cm' x00 /\
     nth (a * s + 2) cm x00 = nth (a * s' + 2) cm' x00) ->
  sq_addcolormap q cm n s = sq_addcolormap q cm' n s'.
Proof.
  intros H.
  destruct (addcolormap_spec q cm n s) as (A1 & A2 & A3 & A4 & A5).
  destruct (addcolormap_spec q cm' n s') as (B1 & B2 & B3 & B4 & B5).
  destruct (sq_addcolormap q cm n s) as [q1 r1].
  destruct (sq_addcolormap q cm' n s') as [q2 r2].
  simpl in *. f_equal; [|congruence].
  destruct q1, q2; simpl in *. f_equal; try congruence.
  rewrite A3, B3. f_equal. apply map_ext_in. intros a Ha.
  apply in_seq in Ha. destruct (H a ltac:(lia)) as (E0 & E1 & E2).
  unfold node_of. now rewrite E0, E1, E2.
Qed.

Lemma addcolormap_stride_irrelevant_witness :
  sq_addcolormap sq_alloc (bytes [1; 2; 3; 4; 5; 6]%Z) 2 3
  = sq_addcolormap sq_alloc (bytes [1; 2; 3; 99; 4; 5; 6; 77]%Z) 2 4.
Proof.
  apply (@addcolormap_stride_irrelevant sq_alloc
           (bytes [1; 2; 3; 4; 5; 6]%Z) (bytes [1; 2; 3; 99; 4; 5; 6; 77]%Z) 2 3 4).
  intros a Ha.
  assert (a = 0 \/ a = 1) as [-> | ->] by lia; repeat split; reflexivity.
Defined.

(** ** The returned width *)

(** C1, as the code has it.  For a non-empty registration with [D]
    distinct colors and a requested width [W >= 1], [sq_reduce] returns
    a width [w] with [1 <= w <= min D W].  With [D <= W] it is [D].
    With [D > W] the split loop ends with [W] groups, the palette loop
    synthesizes one entry per group, and [w] is the number of distinct
    entries among these [W] synthesized entries: the re-sort pass
    collapses entries that coincide. *)
Theorem reduce_width (maps : list colormap) (W d : nat) :
  1 <= W -> 1 <= colors (register maps) ->
  exists idxmap pal w,
    sq_reduce (S (S d)) (register maps) W = Some (idxmap, pal, w) /\
    1 <= w <= Nat.min (distinct_colors (first (register maps))) W /\
    (distinct_colors (first (register maps)) <= W ->
     w = distinct_colors (first (register maps))) /\
    (W < distinct_colors (first (register maps)) ->
     exists q' st m p,
       sqi_dupenuke (register maps) = Some q' /\
       split_groups q' W = Finished st (W - 1) /\
       length st = W /\
       build_palette 0 st
         (repeat 0 (colors (register maps)), repeat x00 (W * 3))
       = Some (m, p) /\
       w = length (nodup block_dec (map (pal_entry p) (seq 0 W)))).
Proof.
  intros HW HN. pose proof (registered_register maps) as Hreg.
  pose proof (registered_nonempty Hreg HN) as Hne.
  destruct (Nat.le_gt_cases (distinct_colors (first (register maps))) W)
    as [HD|HD].
  - destruct (@sq_reduce_result (register maps) W d Hreg Hne HW)
      as (idxmap & pal & w & E & Hw & Heq & _).
    exists idxmap, pal, w. split; [exact E|]. split; [exact Hw|].
    split; [exact Heq|]. intros Hlt. lia.
  - destruct (@split_result (register maps) W d Hreg HW HD)
      as (q' & st & p & final & rm & pal & w & l2 & Hq' & _ & Hrun & _ & Lst
          & Hbuild & _ & E & _ & _ & _ & _ & _ & _ & _ & Hw & _ & _ & _ & _
          & _ & _ & Ew).
    exists (map (fun v => nth v rm 0) final), pal, w.
    split; [exact E|]. split; [lia|]. split; [intros Hle; lia|].
    intros _.
    exists q', st, (assign 0 (map head_index st)
                      (repeat 0 (colors (register maps)))), p.
    split; [exact Hq'|]. split; [exact Hrun|]. split; [exact Lst|].
    split; [exact Hbuild|exact Ew].
Qed.

Lemma reduce_width_witness :
  exists idxmap pal w,
    sq_reduce 2 (register ex_C1) 3 = Some (idxmap, pal, w) /\
    1 <= w <= Nat.min (distinct_colors (first (register ex_C1))) 3 /\
    (distinct_colors (first (register ex_C1)) <= 3 ->
     w = distinct_colors (first (register ex_C1))) /\
    (3 < distinct_colors (first (register ex_C1)) ->
     exists q' st m p,
       sqi_dupenuke (register ex_C1) = Some q' /\
       split_groups q' 3 = Finished st (3 - 1) /\
       length st = 3 /\
       build_palette 0 st
         (repeat 0 (colors (register ex_C1)), repeat x00 (3 * 3))
       = Some (m, p) /\
       w = length (nodup block_dec (map (pal_entry p) (seq 0 3)))).
Proof.
  apply (@reduce_width ex_C1 3 0).
  - lia.
  - vm_compute. lia.
Defined.
